(** * Threshold alert service

    A shallow embedding of the alert-processing pipeline of the service
    (device-state manager, threshold classifier, TTL caches, rate limiter,
    notifier and retry scheduler) and the properties its specification
    states about them.

    The Python code is stateful and raises exceptions, so it is embedded
    in a state-and-exception monad over one record [World] that gathers the
    process-global objects of the service.  What lies outside the process
    (the wall clock, the SQL store, the SMTP relay, the configuration read
    from the OS environment) is collected in a record [Env] of oracles. *)

From Stdlib Require Import ZArith String Ascii List Lia.
From Stdlib Require Import OrderedTypeEx Sorting.Sorted Sorting.Permutation.
From Stdlib Require Import Floats.PrimFloat Numbers.Cyclic.Int63.Uint63.
From stdpp Require Import base tactics option list list_numbers gmap strings pretty.

Local Open Scope string_scope.

(** ** Python numbers

    [time.time()], sensor values and thresholds are IEEE-754 doubles:
    Rocq's primitive floats.  Comparisons are the IEEE ones, so every
    comparison with a NaN is [false], as in Python. *)

Definition py_ge (a b : float) : bool := PrimFloat.leb b a.
Definition py_gt (a b : float) : bool := PrimFloat.ltb b a.
Definition py_lt (a b : float) : bool := PrimFloat.ltb a b.

(** A Python [int] met by a float operation.  The conversion is exact for
    magnitudes up to 2^53, far above any number of seconds configured. *)
Definition float_of_int (n : Z) : float :=
  if (n <? 0)%Z
  then PrimFloat.opp (PrimFloat.of_uint63 (Uint63.of_Z (- n)))
  else PrimFloat.of_uint63 (Uint63.of_Z n).

(** ** Python strings

    [str.lower] and [str.strip] on the ASCII range; bytes of non-ASCII
    characters are left as they are. *)

Definition lower_ascii (c : ascii) : ascii :=
  let n := nat_of_ascii c in
  if ((65 <=? n) && (n <=? 90))%nat then ascii_of_nat (n + 32) else c.

Fixpoint lower (s : string) : string :=
  match s with
  | EmptyString => EmptyString
  | String c s' => String (lower_ascii c) (lower s')
  end.

Definition is_space (c : ascii) : bool :=
  let n := nat_of_ascii c in
  (((9 <=? n) && (n <=? 13)) || ((28 <=? n) && (n <=? 32)))%nat.

Fixpoint lstrip_chars (l : list ascii) : list ascii :=
  match l with
  | [] => []
  | c :: l' => if is_space c then lstrip_chars l' else l
  end.

Definition strip (s : string) : string :=
  string_of_list_ascii
    (rev (lstrip_chars (rev (lstrip_chars (list_ascii_of_string s))))).

(** [sep.join(l)] *)
Definition join (sep : string) (l : list string) : string := String.concat sep l.

(** ** Values of the event payload

    A sensor value arrives as JSON: a number, a string or null.  [PyNum x]
    is a JSON number, given by the double that [float()] yields for it. *)

Inductive pyval :=
| PyNum (x : float)
| PyStr (s : string)
| PyNone.

Inductive exn :=
| ValueError (msg : string)
| TypeError
| KeyError (key : string)
| DataNotSetError (device_id sensor_id : string)
| Full.

(** ** Data model *)

Definition Thresholds : Type := float * float * float.

(** The dict built by [make_breach_object]. *)
Record Breach := {
  b_device_id : string;
  b_sensor_id : string;
  b_factory_name : string;
  b_zone_name : string;
  b_machine_name : string;
  b_sensor_name : string;
  b_sensor_value : pyval;
  b_timestamp : string;
  b_threshold_type : string;
  b_threshold_value : float;
}.

(** A sensor reading is a dict; each key may be missing. *)
Record Reading := {
  r_sensor_id : option string;
  r_value : option pyval;
  r_sensor_type : option string;
}.

(** The ["readings"] entry of an event: one reading or a list of them. *)
Inductive Readings :=
| OneReading (r : Reading)
| ReadingList (l : list Reading).

Record Event := {
  ev_device_id : string;
  ev_time : string;
  ev_readings : Readings;
}.

(** The per-level dict of the device-state manager. *)
Record SubState := {
  above_threshold : bool;
  since_timestamp : option float;
  breach : option Breach;
}.

Record SensorState := {
  yellow : SubState;
  orange : SubState;
}.

Definition null_state : SubState :=
  {| above_threshold := false; since_timestamp := None; breach := None |}.

Definition fresh_sensor_state : SensorState :=
  {| yellow := null_state; orange := null_state |}.

(** What [get_emails] may hand back: one string or a list of strings. *)
Inductive Recipients :=
| RecStr (s : string)
| RecList (l : list string).

(** The dict handed to the retry path; ["attempt"] and ["next_try"] are
    set by [queue_for_retry]. *)
Record EmailData := {
  ed_recipients : list string;
  ed_subject : string;
  ed_content : string;
  ed_attempt : option Z;
  ed_next_try : option float;
}.

(** One message given to the SMTP relay. *)
Record SmtpMessage := {
  msg_to : string;
  msg_subject : string;
  msg_content : string;
}.

Inductive SmtpOutcome :=
| Delivered
| PartialFailure
| SmtpError.

(** ** Log records *)

Inductive Level := DEBUG | INFO | WARNING | ERROR.

Inductive LogMsg :=
| MsgCheckingThresholds (device_id : string) (n : nat)
| MsgCacheMissThresholds (device_id sensor_id : string)
| MsgCacheMissEmails (device_id threshold_type : string)
| MsgFailedToGetThresholds (device_id sensor_id : string) (e : exn)
| MsgRedBreachDetected (device_id sensor_id : string) (value : float)
| MsgSustainedBreachDetected (level device_id sensor_id : string)
| MsgFailedToQueueBreach (level : string) (e : exn)
| MsgErrorInThresholdCheck (e : exn)
| MsgInsideSendEmail
| MsgSendingEmailTo (recipients : list string)
| MsgUsingTestEmail (address : string)
| MsgEmailSent
| MsgPartialDeliveryFailure
| MsgErrorWhileSending
| MsgQueuedForRetry (attempt max : Z)
| MsgEmailFailedAfter (max : Z) (email_data : EmailData)
| MsgEmailPermanentlyFailed (max : Z) (email_data : EmailData)
| MsgErrorInRetryThread (e : exn)
| MsgInsideProcessBreaches
| MsgProcessingBreaches (n : nat)
| MsgNoBreachesPassedRateLimiting (device_id : string)
| MsgErrorProcessingRecipient (device_id sensor_id : string) (e : exn)
| MsgErrorGettingRecipients (device_id : string) (e : exn)
| MsgNoEmailsToSend
| MsgSendingEmails (n : nat)
| MsgSendingEmailWith (recipient : string) (n : nat).

(** [Logged] is a call on the module logger, [LoggedToFile] a call of
    [log_to_file]. *)
Inductive LogRecord :=
| Logged (lvl : Level) (m : LogMsg)
| LoggedToFile (path : string) (m : LogMsg).

(** ** Configuration (config/settings.py, notification/email_sender.py) *)

Definition QUEUE_SIZE : Z := 100.
Definition THRESHOLD_CACHE_TTL : Z := 3600.
Definition EMAIL_CACHE_TTL : Z := 86400.
Definition MAX_EMAIL_RETRY_ATTEMPTS : Z := 3.

(** The values read from the OS environment. *)
Record Settings := {
  LOGGER_EMAILS : list string;
  RED_EMAIL_TIMEOUT_IN_SECONDS : Z;
  ORANGE_EMAIL_TIMEOUT_IN_SECONDS : Z;
  YELLOW_EMAIL_TIMEOUT_IN_SECONDS : Z;
  YELLOW_SUSTENANCE_PERIOD : Z;
  ORANGE_SUSTENANCE_PERIOD : Z;
  TEST_EMAIL : string;
  USE_TEST_EMAIL : bool;
}.

Definition default_settings : Settings := {|
  LOGGER_EMAILS := ["connect@klvin.ai"];
  RED_EMAIL_TIMEOUT_IN_SECONDS := 300;
  ORANGE_EMAIL_TIMEOUT_IN_SECONDS := 1800;
  YELLOW_EMAIL_TIMEOUT_IN_SECONDS := 3600;
  YELLOW_SUSTENANCE_PERIOD := 10;
  ORANGE_SUSTENANCE_PERIOD := 5;
  TEST_EMAIL := "test@example.com";
  USE_TEST_EMAIL := false;
|}.

Definition BREACH_TIMEOUT_IN_SECONDS (c : Settings) : gmap string Z :=
  <["red" := RED_EMAIL_TIMEOUT_IN_SECONDS c]>
    (<["orange" := ORANGE_EMAIL_TIMEOUT_IN_SECONDS c]>
       (<["yellow" := YELLOW_EMAIL_TIMEOUT_IN_SECONDS c]> ∅)).

(** ** The environment of the process *)

Record Env := {
  cfg : Settings;
  (** the value of the n-th call of [time.time()] *)
  clock : nat -> float;
  (** [float(s)] on a string; [None] when it raises [ValueError] *)
  str_to_float : string -> option float;
  (** the row of table [sensors] for (device_id, sensor_id) *)
  sensors_row : string -> string -> option Thresholds;
  (** the rows the entity-name query returns for a device *)
  entity_rows : string -> list (string * string * string);
  (** what the relay does with the n-th message handed to it *)
  smtp : nat -> SmtpOutcome;
  (** [email_formatter.create_html_content], a pure rendering *)
  create_html_content : list Breach -> string;
}.

(** ** The state of the process *)

Record DeviceStateManager := {
  states : gmap string (gmap string SensorState);
  last_access : gmap string float;
}.

Record Caches := {
  threshold_cache : gmap (string * string) (Thresholds * float);
  email_cache : gmap (string * string) (Recipients * float);
}.

(** The two bounded queues of the queue manager.  An item is a breach or
    the [None] marker the drainers put at the end of a batch. *)
Record QueueManager := {
  red_queue : list (option Breach);
  warning_queue : list (option Breach);
}.

Inductive QueueRef := RedQueue | WarningQueue.

Record World := {
  ticks : nat;
  caches : Caches;
  device_state_manager : DeviceStateManager;
  history : gmap (string * string * string) float;
  queue_manager : QueueManager;
  retry_queue : list EmailData;
  smtp_attempts : list SmtpMessage;
  log : list LogRecord;
}.

Definition set_ticks (n : nat) (w : World) : World :=
  {| ticks := n; caches := caches w;
     device_state_manager := device_state_manager w; history := history w;
     queue_manager := queue_manager w; retry_queue := retry_queue w;
     smtp_attempts := smtp_attempts w; log := log w |}.

Definition set_caches (c : Caches) (w : World) : World :=
  {| ticks := ticks w; caches := c;
     device_state_manager := device_state_manager w; history := history w;
     queue_manager := queue_manager w; retry_queue := retry_queue w;
     smtp_attempts := smtp_attempts w; log := log w |}.

Definition set_device_state_manager (m : DeviceStateManager) (w : World) : World :=
  {| ticks := ticks w; caches := caches w;
     device_state_manager := m; history := history w;
     queue_manager := queue_manager w; retry_queue := retry_queue w;
     smtp_attempts := smtp_attempts w; log := log w |}.

Definition set_history (h : gmap (string * string * string) float) (w : World) : World :=
  {| ticks := ticks w; caches := caches w;
     device_state_manager := device_state_manager w; history := h;
     queue_manager := queue_manager w; retry_queue := retry_queue w;
     smtp_attempts := smtp_attempts w; log := log w |}.

Definition set_queue_manager (q : QueueManager) (w : World) : World :=
  {| ticks := ticks w; caches := caches w;
     device_state_manager := device_state_manager w; history := history w;
     queue_manager := q; retry_queue := retry_queue w;
     smtp_attempts := smtp_attempts w; log := log w |}.

Definition set_retry_queue (q : list EmailData) (w : World) : World :=
  {| ticks := ticks w; caches := caches w;
     device_state_manager := device_state_manager w; history := history w;
     queue_manager := queue_manager w; retry_queue := q;
     smtp_attempts := smtp_attempts w; log := log w |}.

Definition set_smtp_attempts (l : list SmtpMessage) (w : World) : World :=
  {| ticks := ticks w; caches := caches w;
     device_state_manager := device_state_manager w; history := history w;
     queue_manager := queue_manager w; retry_queue := retry_queue w;
     smtp_attempts := l; log := log w |}.

Definition set_log (l : list LogRecord) (w : World) : World :=
  {| ticks := ticks w; caches := caches w;
     device_state_manager := device_state_manager w; history := history w;
     queue_manager := queue_manager w; retry_queue := retry_queue w;
     smtp_attempts := smtp_attempts w; log := l |}.

(** The world of a freshly started process. *)
Definition initial_world : World :=
  {| ticks := 0;
     caches := {| threshold_cache := ∅; email_cache := ∅ |};
     device_state_manager := {| states := ∅; last_access := ∅ |};
     history := ∅;
     queue_manager := {| red_queue := []; warning_queue := [] |};
     retry_queue := []; smtp_attempts := []; log := [] |}.

(** ** The monad: state plus exceptions

    A raised exception keeps the state reached so far: Python does not
    undo the mutations made before the [raise]. *)

Inductive Result (A : Type) :=
| Ok (a : A)
| Raise (e : exn).
Arguments Ok {A} a.
Arguments Raise {A} e.

Definition M (A : Type) : Type := World -> Result A * World.

Definition ret {A} (a : A) : M A := fun w => (Ok a, w).

Definition bind {A B} (m : M A) (k : A -> M B) : M B :=
  fun w =>
    match m w with
    | (Ok a, w') => k a w'
    | (Raise e, w') => (Raise e, w')
    end.

Definition raise {A} (e : exn) : M A := fun w => (Raise e, w).

(** [try: m  except Exception as e: h e] *)
Definition try_except {A} (m : M A) (h : exn -> M A) : M A :=
  fun w =>
    match m w with
    | (Ok a, w') => (Ok a, w')
    | (Raise e, w') => h e w'
    end.

Definition get_world : M World := fun w => (Ok w, w).
Definition modify (f : World -> World) : M unit := fun w => (Ok tt, f w).

Definition exec {A} (m : M A) (w : World) : World := snd (m w).
Definition eval {A} (m : M A) (w : World) : Result A := fst (m w).

Declare Scope py_scope.
Delimit Scope py_scope with py.
Notation "x <- m ;; k" := (bind m (fun x => k))
  (at level 100, m at next level, k at level 200, only parsing) : py_scope.
Notation "m ;; k" := (bind m (fun _ => k))
  (at level 100, k at level 200, only parsing) : py_scope.
Local Open Scope py_scope.

(** [for x in l: body x] *)
Fixpoint for_each {A} (l : list A) (body : A -> M unit) : M unit :=
  match l with
  | [] => ret tt
  | x :: l' => body x ;; for_each l' body
  end.

(** [d[key]] on a dict entry that may be missing *)
Definition subscript {A} (key : string) (o : option A) : M A :=
  match o with
  | Some a => ret a
  | None => raise (KeyError key)
  end.

Definition logger (lvl : Level) (m : LogMsg) : M unit :=
  modify (fun w => set_log (log w ++ [Logged lvl m]) w).

Definition log_to_file (m : LogMsg) (path : string) : M unit :=
  modify (fun w => set_log (log w ++ [LoggedToFile path m]) w).

(** [time.sleep]: the wait shows only in what the clock answers next. *)
Definition time_sleep (seconds : Z) : M unit := ret tt.

(** ** The service *)

Section Service.

Variable E : Env.

(** [time.time()] *)
Definition time_time : M float :=
  fun w => (Ok (clock E (ticks w)), set_ticks (S (ticks w)) w).

(** [float(v)] *)
Definition py_float (v : pyval) : M float :=
  match v with
  | PyNum x => ret x
  | PyStr s =>
      match str_to_float E s with
      | Some x => ret x
      | None => raise (ValueError "could not convert string to float")
      end
  | PyNone => raise TypeError
  end.

(** *** monitoring/device_state.py *)

Definition modify_dsm (f : DeviceStateManager -> DeviceStateManager) : M unit :=
  modify (fun w => set_device_state_manager (f (device_state_manager w)) w).

Definition sensor_lookup (m : DeviceStateManager) (device_id sensor_id : string)
  : option SensorState :=
  match states m !! device_id with
  | Some sensors => sensors !! sensor_id
  | None => None
  end.

(** [sensor_state[threshold_type]] *)
Definition level_of (sensor_state : SensorState) (threshold_type : string)
  : option SubState :=
  if String.eqb threshold_type "yellow" then Some (yellow sensor_state)
  else if String.eqb threshold_type "orange" then Some (orange sensor_state)
  else None.

Definition set_level (threshold_type : string) (state : SubState)
    (sensor_state : SensorState) : SensorState :=
  if String.eqb threshold_type "yellow"
  then {| yellow := state; orange := orange sensor_state |}
  else if String.eqb threshold_type "orange"
  then {| yellow := yellow sensor_state; orange := state |}
  else sensor_state.

(** The dict returned by [get_sensor_state] is the very object stored
    under [states[device_id][sensor_id]]: an assignment to one of its
    per-level dicts is an update of the map in place. *)
Definition write_state (device_id sensor_id threshold_type : string)
    (state : SubState) : M unit :=
  modify_dsm (fun m =>
    {| states := alter (alter (set_level threshold_type state) sensor_id)
                       device_id (states m);
       last_access := last_access m |}).

Definition stored_sensor_state (device_id sensor_id : string) : M SensorState :=
  w <- get_world ;;
  subscript sensor_id (sensor_lookup (device_state_manager w) device_id sensor_id).

Definition get_sensor_state (device_id sensor_id : string) : M SensorState :=
  w <- get_world ;;
  (match states (device_state_manager w) !! device_id with
   | None =>
       modify_dsm (fun m =>
         {| states := <[device_id := ∅]> (states m);
            last_access := last_access m |}) ;;
       now <- time_time ;;
       modify_dsm (fun m =>
         {| states := states m;
            last_access := <[device_id := now]> (last_access m) |})
   | Some _ => ret tt
   end) ;;
  w <- get_world ;;
  (match sensor_lookup (device_state_manager w) device_id sensor_id with
   | None =>
       modify_dsm (fun m =>
         {| states := alter (insert sensor_id fresh_sensor_state)
                            device_id (states m);
            last_access := last_access m |})
   | Some _ => ret tt
   end) ;;
  now <- time_time ;;
  modify_dsm (fun m =>
    {| states := states m;
       last_access := <[device_id := now]> (last_access m) |}) ;;
  stored_sensor_state device_id sensor_id.

Definition update_sensor_state (device_id sensor_id threshold_type : string)
    (is_above_threshold : bool) (breach : option Breach) : M SensorState :=
  let threshold_type := lower threshold_type in
  if negb (String.eqb threshold_type "yellow" || String.eqb threshold_type "orange")
  then raise (ValueError ("Invalid threshold type: " ++ threshold_type))
  else
    sensor_state <- get_sensor_state device_id sensor_id ;;
    current_time <- time_time ;;
    state <- subscript threshold_type (level_of sensor_state threshold_type) ;;
    (if is_above_threshold then
       if negb (above_threshold state) then
         write_state device_id sensor_id threshold_type
           {| above_threshold := true;
              since_timestamp := Some current_time;
              breach := breach |}
       else ret tt
     else
       write_state device_id sensor_id threshold_type null_state) ;;
    stored_sensor_state device_id sensor_id.

Definition check_sustained_breach (device_id sensor_id threshold_type : string)
    (required_duration : Z) : M (bool * option Breach) :=
  let threshold_type := lower threshold_type in
  sensor_state <- get_sensor_state device_id sensor_id ;;
  current_time <- time_time ;;
  state <- subscript threshold_type (level_of sensor_state threshold_type) ;;
  match above_threshold state, since_timestamp state with
  | true, Some since =>
      if py_ge (PrimFloat.sub current_time since) (float_of_int required_duration)
      then
        write_state device_id sensor_id threshold_type null_state ;;
        ret (true, breach state)
      else ret (false, None)
  | _, _ => ret (false, None)
  end.

(** *** utils/rate_limiter.py *)

Definition should_send (device_id sensor_id threshold_type : string) : M bool :=
  let threshold_type := lower threshold_type in
  let key := (device_id, sensor_id, threshold_type) in
  current_time <- time_time ;;
  w <- get_world ;;
  match history w !! key with
  | None =>
      modify (set_history (<[key := current_time]> (history w))) ;;
      ret true
  | Some last_sent =>
      let timeout :=
        default 3600%Z (BREACH_TIMEOUT_IN_SECONDS (cfg E) !! threshold_type) in
      if py_ge (PrimFloat.sub current_time last_sent) (float_of_int timeout)
      then
        modify (set_history (<[key := current_time]> (history w))) ;;
        ret true
      else ret false
  end.

(** *** utils/db.py *)

Definition original_get_emails (device_id threshold_type : string) : Recipients :=
  RecStr "sudhamshusuri.2015@gmail.com".

Definition get_entity_names (device_id : string) : string * string * string :=
  match entity_rows E device_id with
  | row :: _ => row
  | [] => ("Unknown Factory", "Unknown Zone", "Unknown Machine")
  end.

Definition original_get_thresholds (device_id sensor_id : string) : M Thresholds :=
  match sensors_row E device_id sensor_id with
  | Some result => ret result
  | None => raise (DataNotSetError device_id sensor_id)
  end.

(** *** utils/cache.py, utils/db_interface.py

    [get_thresholds] and [get_emails] are the cached wrappers that
    db_interface exports. *)

Definition modify_caches (f : Caches -> Caches) : M unit :=
  modify (fun w => set_caches (f (caches w)) w).

Definition get_thresholds (device_id sensor_id : string) : M Thresholds :=
  let cache_key := (device_id, sensor_id) in
  w <- get_world ;;
  hit <- match threshold_cache (caches w) !! cache_key with
         | Some (value, timestamp) =>
             now <- time_time ;;
             if py_lt (PrimFloat.sub now timestamp) (float_of_int THRESHOLD_CACHE_TTL)
             then ret (Some value) else ret None
         | None => ret None
         end ;;
  match hit with
  | Some value => ret value
  | None =>
      logger DEBUG (MsgCacheMissThresholds device_id sensor_id) ;;
      thresholds <- original_get_thresholds device_id sensor_id ;;
      now <- time_time ;;
      modify_caches (fun c =>
        {| threshold_cache := <[cache_key := (thresholds, now)]> (threshold_cache c);
           email_cache := email_cache c |}) ;;
      ret thresholds
  end.

Definition get_emails (device_id threshold_type : string) : M Recipients :=
  let cache_key := (device_id, threshold_type) in
  w <- get_world ;;
  hit <- match email_cache (caches w) !! cache_key with
         | Some (value, timestamp) =>
             now <- time_time ;;
             if py_lt (PrimFloat.sub now timestamp) (float_of_int EMAIL_CACHE_TTL)
             then ret (Some value) else ret None
         | None => ret None
         end ;;
  match hit with
  | Some value => ret value
  | None =>
      logger DEBUG (MsgCacheMissEmails device_id threshold_type) ;;
      let emails := original_get_emails device_id threshold_type in
      now <- time_time ;;
      modify_caches (fun c =>
        {| threshold_cache := threshold_cache c;
           email_cache := <[cache_key := (emails, now)]> (email_cache c) |}) ;;
      ret emails
  end.

(** *** The bounded queues (queue.Queue(QUEUE_SIZE)) *)

Definition queue_of (q : QueueRef) (m : QueueManager) : list (option Breach) :=
  match q with
  | RedQueue => red_queue m
  | WarningQueue => warning_queue m
  end.

Definition set_queue (q : QueueRef) (items : list (option Breach))
    (m : QueueManager) : QueueManager :=
  match q with
  | RedQueue => {| red_queue := items; warning_queue := warning_queue m |}
  | WarningQueue => {| red_queue := red_queue m; warning_queue := items |}
  end.

Definition is_full (items : list (option Breach)) : bool :=
  ((0 <? QUEUE_SIZE) && (QUEUE_SIZE <=? Z.of_nat (length items)))%Z.

(** [q.put(item, block=False)] *)
Definition put_nowait (q : QueueRef) (item : option Breach) : M unit :=
  w <- get_world ;;
  let items := queue_of q (queue_manager w) in
  if is_full items then raise Full
  else modify (fun w => set_queue_manager (set_queue q (items ++ [item]) (queue_manager w)) w).

(** *** monitoring/threshold_checker.py *)

Definition make_breach_object (device_id : string) (sensor_reading : Reading)
    (timestamp threshold_type : string) (threshold_value : float) : M Breach :=
  let '(factory_name, zone_name, machine_name) := get_entity_names device_id in
  sensor_id <- subscript "sensor_id" (r_sensor_id sensor_reading) ;;
  sensor_type <- subscript "sensor_type" (r_sensor_type sensor_reading) ;;
  value <- subscript "value" (r_value sensor_reading) ;;
  ret {| b_device_id := device_id;
         b_sensor_id := sensor_id;
         b_factory_name := factory_name;
         b_zone_name := zone_name;
         b_machine_name := machine_name;
         b_sensor_name := sensor_type;
         b_sensor_value := value;
         b_timestamp := timestamp;
         b_threshold_type := lower threshold_type;
         b_threshold_value := threshold_value |}.

(** The orange and the yellow branch of the ladder differ in the level,
    the threshold and the dwell only. *)
Definition sustained_branch (device_id : string) (sensor_reading : Reading)
    (sensor_id timestamp level : string) (threshold : float) (dwell : Z)
    (warning_queue : QueueRef) : M unit :=
  breach <- make_breach_object device_id sensor_reading timestamp level threshold ;;
  update_sensor_state device_id sensor_id level true (Some breach) ;;
  sustained <- check_sustained_breach device_id sensor_id level dwell ;;
  let '(is_sustained, breach) := sustained in
  match is_sustained, breach with
  | true, Some b =>
      try_except
        (put_nowait warning_queue (Some b) ;;
         logger INFO (MsgSustainedBreachDetected level device_id sensor_id))
        (fun e => logger ERROR (MsgFailedToQueueBreach level e))
  | _, _ => ret tt
  end.

(** The body of the loop over the readings of one event. *)
Definition check_reading (device_id timestamp : string)
    (critical_queue warning_queue : QueueRef) (sensor_reading : Reading) : M unit :=
  sensor_id <- subscript "sensor_id" (r_sensor_id sensor_reading) ;;
  raw <- subscript "value" (r_value sensor_reading) ;;
  sensor_value <- py_float raw ;;
  found <- try_except
             (t <- get_thresholds device_id sensor_id ;; ret (Some t))
             (fun e =>
                logger ERROR (MsgFailedToGetThresholds device_id sensor_id e) ;;
                ret None) ;;
  match found with
  | None => ret tt
  | Some (threshold_yellow, threshold_orange, threshold_red) =>
      if py_ge sensor_value threshold_red then
        breach <- make_breach_object device_id sensor_reading timestamp
                    "red" threshold_red ;;
        try_except
          (put_nowait critical_queue (Some breach) ;;
           logger INFO (MsgRedBreachDetected device_id sensor_id sensor_value))
          (fun e => logger ERROR (MsgFailedToQueueBreach "red" e))
      else if py_ge sensor_value threshold_orange then
        sustained_branch device_id sensor_reading sensor_id timestamp
          "orange" threshold_orange (ORANGE_SUSTENANCE_PERIOD (cfg E)) warning_queue
      else if py_ge sensor_value threshold_yellow then
        sustained_branch device_id sensor_reading sensor_id timestamp
          "yellow" threshold_yellow (YELLOW_SUSTENANCE_PERIOD (cfg E)) warning_queue
      else
        update_sensor_state device_id sensor_id "yellow" false None ;;
        update_sensor_state device_id sensor_id "orange" false None ;;
        ret tt
  end.

Definition check_thresholds_against_data (device_id : string)
    (device_readings : Readings) (timestamp : string)
    (critical_queue warning_queue : QueueRef) : M unit :=
  let device_readings :=
    match device_readings with
    | OneReading r => [r]
    | ReadingList l => l
    end in
  logger DEBUG (MsgCheckingThresholds device_id (length device_readings)) ;;
  for_each device_readings
    (check_reading device_id timestamp critical_queue warning_queue).

Definition run_threshold_check (data : Event)
    (critical_queue warning_queue : QueueRef) : M unit :=
  try_except
    (check_thresholds_against_data (ev_device_id data) (ev_readings data)
       (ev_time data) critical_queue warning_queue)
    (fun e => logger ERROR (MsgErrorInThresholdCheck e)).

(** *** notification/email_formatter.py *)

Definition create_email_subject (breaches : list Breach) : string :=
  "[Threshold Breach Alert] " ++ pretty (length breaches) ++ " breach(es) detected.".

(** *** notification/email_sender.py *)

Definition self_log_path : string := "logs/email_sender.log".

(** [log_to_file] falls back on "default.log" for an empty or missing path. *)
Definition log_file (m : LogMsg) (log_path : option string) : M unit :=
  match log_path with
  | Some p => if String.eqb p "" then log_to_file m "default.log" else log_to_file m p
  | None => log_to_file m "default.log"
  end.

(** Every call reaches the SMTP block once; the message it builds there is
    appended to [smtp_attempts], and the relay's answer decides the result. *)
Definition send_email (recipients : list string) (subject content : string)
    (log_path : option string) : M bool :=
  let log_path :=
    match log_path with
    | Some p => if String.eqb p "" then Some self_log_path else Some p
    | None => Some self_log_path
    end in
  log_file MsgInsideSendEmail log_path ;;
  logger INFO (MsgSendingEmailTo recipients) ;;
  all_recipients <-
    (if USE_TEST_EMAIL (cfg E) then
       logger INFO (MsgUsingTestEmail (TEST_EMAIL (cfg E))) ;;
       ret [TEST_EMAIL (cfg E)]
     else ret (recipients ++ LOGGER_EMAILS (cfg E))%list) ;;
  let recipient_str := join "," all_recipients in
  w <- get_world ;;
  let sent_before := length (smtp_attempts w) in
  modify (fun w =>
    set_smtp_attempts
      (smtp_attempts w ++
         [{| msg_to := recipient_str; msg_subject := subject;
             msg_content := content |}])%list w) ;;
  match smtp E sent_before with
  | Delivered =>
      log_file MsgEmailSent log_path ;;
      logger INFO MsgEmailSent ;;
      ret true
  | PartialFailure =>
      log_file MsgPartialDeliveryFailure log_path ;;
      logger WARNING MsgPartialDeliveryFailure ;;
      ret false
  | SmtpError =>
      log_file MsgErrorWhileSending log_path ;;
      logger ERROR MsgErrorWhileSending ;;
      ret false
  end.

Definition queue_for_retry (email_data : EmailData) (attempt : Z) : M unit :=
  if (attempt <=? MAX_EMAIL_RETRY_ATTEMPTS)%Z then
    now <- time_time ;;
    let email_data :=
      {| ed_recipients := ed_recipients email_data;
         ed_subject := ed_subject email_data;
         ed_content := ed_content email_data;
         ed_attempt := Some attempt;
         ed_next_try := Some (PrimFloat.add now (float_of_int 30)) |} in
    modify (fun w => set_retry_queue (retry_queue w ++ [email_data]) w) ;;
    logger INFO (MsgQueuedForRetry attempt MAX_EMAIL_RETRY_ATTEMPTS)
  else
    logger ERROR (MsgEmailFailedAfter MAX_EMAIL_RETRY_ATTEMPTS email_data) ;;
    log_file (MsgEmailPermanentlyFailed MAX_EMAIL_RETRY_ATTEMPTS email_data)
      (Some self_log_path).

(** One turn of the [while True] loop of [retry_job].  The inner result
    says whether the turn ended in [continue], which skips the closing
    [time.sleep(1)]. *)
Definition retry_job_turn : M unit :=
  continued <-
    try_except
      (w <- get_world ;;
       match retry_queue w with
       | [] => time_sleep 5 ;; ret true
       | email_data :: rest =>
           modify (set_retry_queue rest) ;;
           next_try <- subscript "next_try" (ed_next_try email_data) ;;
           now <- time_time ;;
           if py_gt next_try now then
             modify (fun w => set_retry_queue (retry_queue w ++ [email_data]) w) ;;
             time_sleep 5 ;;
             ret true
           else
             success <- send_email (ed_recipients email_data)
                          (ed_subject email_data) (ed_content email_data) None ;;
             (if negb success then
                attempt <- subscript "attempt" (ed_attempt email_data) ;;
                queue_for_retry email_data (attempt + 1)
              else ret tt) ;;
             ret false
       end)
      (fun e => logger ERROR (MsgErrorInRetryThread e) ;; ret false) ;;
  if continued then ret tt else time_sleep 1.

(** [n] turns of the retry thread. *)
Fixpoint retry_job (n : nat) : M unit :=
  match n with
  | O => ret tt
  | S n' => retry_job_turn ;; retry_job n'
  end.

(** A dict from strings to lists, in insertion order:
    [if k not in d: d[k] = []] followed by [d[k].append(v)]. *)
Fixpoint dict_append {A} (k : string) (v : A) (d : list (string * list A))
  : list (string * list A) :=
  match d with
  | [] => [(k, [v])]
  | (k', vs) :: d' =>
      if String.eqb k' k then (k', (vs ++ [v])%list) :: d'
      else (k', vs) :: dict_append k v d'
  end.

Definition group_by_device (breaches : list Breach) : list (string * list Breach) :=
  fold_left (fun d b => dict_append (b_device_id b) b d) breaches [].

(** The breaches of one device that pass the rate limiter. *)
Fixpoint rate_limited (device_breach_list : list Breach) : M (list Breach) :=
  match device_breach_list with
  | [] => ret []
  | b :: rest =>
      ok <- should_send (b_device_id b) (b_sensor_id b) (b_threshold_type b) ;;
      filtered <- rate_limited rest ;;
      ret (if ok then b :: filtered else filtered)
  end.

(** [for email in recipients: ...] on the resolved recipients of a breach *)
Definition add_recipients (recipients : Recipients) (b : Breach)
    (emails_to_send : list (string * list Breach)) : list (string * list Breach) :=
  let recipients :=
    match recipients with
    | RecStr s => [s]
    | RecList l => l
    end in
  fold_left
    (fun d email =>
       let email_str := strip email in
       if String.eqb email_str "" then d else dict_append email_str b d)
    recipients emails_to_send.

(** The inner [try] of the recipient loop: only [get_emails] can raise in
    it, and it does so before [emails_to_send] is touched. *)
Definition resolve_breach (device_id : string)
    (emails_to_send : list (string * list Breach)) (b : Breach)
  : M (list (string * list Breach)) :=
  let threshold_type := b_threshold_type b in
  try_except
    (recipients <- get_emails device_id threshold_type ;;
     ret (add_recipients recipients b emails_to_send))
    (fun e =>
       logger ERROR (MsgErrorProcessingRecipient (b_device_id b) (b_sensor_id b) e) ;;
       ret emails_to_send).

Fixpoint resolve_breaches (device_id : string) (filtered_breaches : list Breach)
    (emails_to_send : list (string * list Breach))
  : M (list (string * list Breach)) :=
  match filtered_breaches with
  | [] => ret emails_to_send
  | b :: rest =>
      emails_to_send <- resolve_breach device_id emails_to_send b ;;
      resolve_breaches device_id rest emails_to_send
  end.

(** The body of the loop over [device_breaches.items()]. *)
Definition resolve_device (emails_to_send : list (string * list Breach))
    (entry : string * list Breach) : M (list (string * list Breach)) :=
  let '(device_id, device_breach_list) := entry in
  filtered_breaches <- rate_limited device_breach_list ;;
  match filtered_breaches with
  | [] =>
      logger INFO (MsgNoBreachesPassedRateLimiting device_id) ;;
      ret emails_to_send
  | _ =>
      try_except
        (resolve_breaches device_id filtered_breaches emails_to_send)
        (fun e =>
           logger ERROR (MsgErrorGettingRecipients device_id e) ;;
           ret emails_to_send)
  end.

Fixpoint resolve_devices (device_breaches : list (string * list Breach))
    (emails_to_send : list (string * list Breach))
  : M (list (string * list Breach)) :=
  match device_breaches with
  | [] => ret emails_to_send
  | entry :: rest =>
      emails_to_send <- resolve_device emails_to_send entry ;;
      resolve_devices rest emails_to_send
  end.

(** The body of the loop over [emails_to_send.items()]. *)
Definition send_to_recipient (log_path : option string)
    (entry : string * list Breach) : M unit :=
  let '(recipient_email, recipient_breaches) := entry in
  let subject := create_email_subject recipient_breaches in
  let html_content := create_html_content E recipient_breaches in
  log_file (MsgSendingEmailWith recipient_email (length recipient_breaches)) log_path ;;
  success <- send_email [recipient_email] subject html_content log_path ;;
  if negb success then
    queue_for_retry
      {| ed_recipients := [recipient_email];
         ed_subject := subject;
         ed_content := html_content;
         ed_attempt := None;
         ed_next_try := None |} 1
  else ret tt.

Definition process_breaches (breaches : list Breach) (log_path : option string)
  : M unit :=
  log_file MsgInsideProcessBreaches log_path ;;
  logger INFO (MsgProcessingBreaches (length breaches)) ;;
  let device_breaches := group_by_device breaches in
  emails_to_send <- resolve_devices device_breaches [] ;;
  match emails_to_send with
  | [] => logger WARNING MsgNoEmailsToSend
  | _ =>
      logger INFO (MsgSendingEmails (length emails_to_send)) ;;
      for_each emails_to_send (send_to_recipient log_path)
  end.

End Service.

(** ** A concrete environment

    Thresholds (10, 20, 30) for sensor "s1" of device "d1", a clock that
    advances by [step] seconds per reading, no entity rows, and a relay
    that answers every message with [answer].  No string converts to a
    number: the examples put numbers in as numbers, and the only string
    they use as a value is "n/a". *)

Definition example_settings (test_mode : bool) : Settings := {|
  LOGGER_EMAILS := LOGGER_EMAILS default_settings;
  RED_EMAIL_TIMEOUT_IN_SECONDS := 300;
  ORANGE_EMAIL_TIMEOUT_IN_SECONDS := 1800;
  YELLOW_EMAIL_TIMEOUT_IN_SECONDS := 3600;
  YELLOW_SUSTENANCE_PERIOD := 10;
  ORANGE_SUSTENANCE_PERIOD := 5;
  TEST_EMAIL := "test@example.com";
  USE_TEST_EMAIL := test_mode;
|}.

Definition example_env (test_mode : bool) (step : Z) (answer : SmtpOutcome) : Env := {|
  cfg := example_settings test_mode;
  clock := fun n => float_of_int (step * Z.of_nat n);
  str_to_float := fun _ => None;
  sensors_row := fun d s =>
    if String.eqb d "d1" && String.eqb s "s1"
    then Some (float_of_int 10, float_of_int 20, float_of_int 30)
    else None;
  entity_rows := fun _ => [];
  smtp := fun _ => answer;
  create_html_content := fun _ => "<html>";
|}.

Definition reading (sensor_id : string) (value : pyval) : Reading :=
  {| r_sensor_id := Some sensor_id; r_value := Some value;
     r_sensor_type := Some "temperature" |}.

Definition example_breach (level : string) (threshold : Z) : Breach :=
  {| b_device_id := "d1"; b_sensor_id := "s1";
     b_factory_name := "Unknown Factory"; b_zone_name := "Unknown Zone";
     b_machine_name := "Unknown Machine"; b_sensor_name := "temperature";
     b_sensor_value := PyNum (float_of_int 35); b_timestamp := "t0";
     b_threshold_type := level; b_threshold_value := float_of_int threshold |}.

(** ** Observations used by the properties *)

(** The sub-state stored for (device, sensor, level), if there is one. *)
Definition stored_state (w : World) (device_id sensor_id level : string)
  : option SubState :=
  match sensor_lookup (device_state_manager w) device_id sensor_id with
  | Some sensor_state => level_of sensor_state level
  | None => None
  end.

(** [above and (now - since >= dwell)] on a stored sub-state. *)
Definition is_due (now : float) (dwell : Z) (state : SubState) : bool :=
  above_threshold state &&
  match since_timestamp state with
  | Some since => py_ge (PrimFloat.sub now since) (float_of_int dwell)
  | None => false
  end.

(** The two invariants the data model puts on a sub-state. *)
Definition well_formed (state : SubState) : Prop :=
  (above_threshold state = false ->
     since_timestamp state = None /\ breach state = None) /\
  (above_threshold state = true ->
     since_timestamp state <> None /\ breach state <> None).

Definition dsm_invariant (m : DeviceStateManager) : Prop :=
  forall device_id sensor_id sensor_state,
    sensor_lookup m device_id sensor_id = Some sensor_state ->
    well_formed (yellow sensor_state) /\ well_formed (orange sensor_state).

(** Everything but the device-state manager and the clock is the same. *)
Definition same_outside_dsm (w w' : World) : Prop :=
  caches w' = caches w /\ history w' = history w /\
  queue_manager w' = queue_manager w /\ retry_queue w' = retry_queue w /\
  smtp_attempts w' = smtp_attempts w /\ log w' = log w.

(** A computation preserves a relation between the state before and the
    state after when every run of it, failed or not, is in the relation. *)
Definition preserves (R : relation World) {A} (m : M A) : Prop :=
  forall w, R w (snd (m w)).

(** The device-state manager and the two queues are untouched. *)
Definition same_dsm_and_queues : relation World :=
  fun w w' =>
    device_state_manager w' = device_state_manager w
    /\ queue_manager w' = queue_manager w.

(** A world whose critical queue holds [QUEUE_SIZE] breaches. *)
Definition full_red_queue_world : World :=
  set_queue_manager
    {| red_queue := repeat (Some (example_breach "red" 30)) 100;
       warning_queue := [] |}
    initial_world.

(** The messages given to the relay between two states all satisfy [P]. *)
Definition outbox_extends (P : SmtpMessage -> Prop) : relation World :=
  fun w w' =>
    exists new, smtp_attempts w' = (smtp_attempts w ++ new)%list /\ Forall P new.

(** [send_email] returns [True] exactly when the relay took the message
    for every recipient. *)
Definition delivered (o : SmtpOutcome) : bool :=
  match o with
  | Delivered => true
  | _ => false
  end.

(** The number of sends an entry of the retry queue can still cause: one
    per attempt number from its own up to the maximum. *)
Definition budget (e : EmailData) : nat :=
  match ed_attempt e with
  | Some a => Z.to_nat (Z.max 1 (MAX_EMAIL_RETRY_ATTEMPTS + 1 - a))
  | None => 1
  end.

Definition retry_budget (q : list EmailData) : nat := sum_list_with budget q.

Arguments budget : simpl never.
Arguments retry_budget : simpl never.

(** Sends made plus sends still possible never grow. *)
Definition within_budget : relation World :=
  fun w w' =>
    length (smtp_attempts w') + retry_budget (retry_queue w')
    <= length (smtp_attempts w) + retry_budget (retry_queue w).


(** ** Background sweeps, queue manager and entry point

    The functions below complete the modules above.  Those that only touch
    the state already described stay in [M]; those that also write to the
    loggers of their own modules, or keep the high-water marks of the queue
    manager, run in the wider state [Process]. *)

Section Sweeps.

Variable E : Env.

(** *** monitoring/device_state.py: one pass of the eviction loop

    [for device_id in list(self.last_access.keys())], with the deletion
    of a device that has been idle for more than [max_age_seconds].  The
    keys are visited in the order of the map; each step only removes the
    device it visits. *)

Definition evict_if_idle (current_time : float) (max_age_seconds : Z)
    (m : DeviceStateManager) (device_id : string) : DeviceStateManager :=
  match last_access m !! device_id with
  | Some stamp =>
      if py_gt (PrimFloat.sub current_time stamp) (float_of_int max_age_seconds)
      then {| states := delete device_id (states m);
              last_access := delete device_id (last_access m) |}
      else m
  | None => m
  end.

Definition evict_idle_devices (current_time : float) (max_age_seconds : Z)
    (m : DeviceStateManager) : DeviceStateManager :=
  fold_left (evict_if_idle current_time max_age_seconds)
    (map fst (map_to_list (last_access m))) m.

(** *** utils/rate_limiter.py: [_cleanup_old_entries] *)

Definition forget_if_old (current_time : float)
    (h : gmap (string * string * string) float) (key : string * string * string)
  : gmap (string * string * string) float :=
  let '(_, _, threshold_type) := key in
  let timeout := default 3600%Z (BREACH_TIMEOUT_IN_SECONDS (cfg E) !! threshold_type) in
  match h !! key with
  | Some stamp =>
      if py_gt (PrimFloat.sub current_time stamp) (float_of_int (timeout * 2))
      then delete key h else h
  | None => h
  end.

Definition _cleanup_old_entries : M unit :=
  current_time <- time_time E ;;
  modify (fun w =>
    set_history
      (fold_left (forget_if_old current_time)
         (map fst (map_to_list (history w))) (history w)) w).

(** *** utils/cache.py: [cleanup_expired_cache]

    The expired keys are collected first and deleted afterwards. *)

Definition expired_keys {K V} `{Countable K} (current_time : float) (ttl : Z)
    (cache : gmap K (V * float)) : list K :=
  map fst
    (List.filter
       (fun entry : K * (V * float) =>
          py_gt (PrimFloat.sub current_time (snd (snd entry))) (float_of_int ttl))
       (map_to_list cache)).

Definition delete_keys {K V} `{Countable K} (keys : list K) (cache : gmap K V)
  : gmap K V :=
  fold_left (fun c key => delete key c) keys cache.

End Sweeps.

(** *** Records of the loggers of the other modules *)

Inductive Note :=
| NoteStateCleanupError (e : exn)
| NoteRateLimiterCleanupError (e : exn)
| NoteCacheCleared
| NoteCacheCleaned (thresholds emails : nat)
| NoteQueueFilling (channel : string) (qsize : Z)
| NoteQueueFull (channel : string)
| NoteDraining (n : nat) (channel : string)
| NoteDrainError (channel : string) (e : exn)
| NoteTraceback
| NoteProcessing (n : nat) (breach_type : string)
| NoteBreach (index : nat) (device_id sensor_id threshold_type : string)
| NoteProcessingData (device_id : string)
| NoteThresholdCheckError (e : exn).

Inductive NoteRecord :=
| Noted (lvl : Level) (n : Note)
| NotedToFile (path : string) (n : Note).

(** *** The wider state *)

Record Process := {
  world : World;
  red_queue_high_water_mark : Z;
  warning_queue_high_water_mark : Z;
  notes : list NoteRecord;
}.

Definition set_world (w : World) (p : Process) : Process :=
  {| world := w;
     red_queue_high_water_mark := red_queue_high_water_mark p;
     warning_queue_high_water_mark := warning_queue_high_water_mark p;
     notes := notes p |}.

Definition set_notes (l : list NoteRecord) (p : Process) : Process :=
  {| world := world p;
     red_queue_high_water_mark := red_queue_high_water_mark p;
     warning_queue_high_water_mark := warning_queue_high_water_mark p;
     notes := l |}.

Definition high_water_mark (q : QueueRef) (p : Process) : Z :=
  match q with
  | RedQueue => red_queue_high_water_mark p
  | WarningQueue => warning_queue_high_water_mark p
  end.

Definition set_high_water_mark (q : QueueRef) (n : Z) (p : Process) : Process :=
  match q with
  | RedQueue =>
      {| world := world p;
         red_queue_high_water_mark := n;
         warning_queue_high_water_mark := warning_queue_high_water_mark p;
         notes := notes p |}
  | WarningQueue =>
      {| world := world p;
         red_queue_high_water_mark := red_queue_high_water_mark p;
         warning_queue_high_water_mark := n;
         notes := notes p |}
  end.

Definition initial_process : Process :=
  {| world := initial_world;
     red_queue_high_water_mark := 0;
     warning_queue_high_water_mark := 0;
     notes := [] |}.

Definition Proc (A : Type) : Type := Process -> Result A * Process.

Definition pret {A} (a : A) : Proc A := fun p => (Ok a, p).

Definition pbind {A B} (m : Proc A) (k : A -> Proc B) : Proc B :=
  fun p =>
    match m p with
    | (Ok a, p') => k a p'
    | (Raise e, p') => (Raise e, p')
    end.

(** [try: m  except Exception as e: h e] *)
Definition ptry_except {A} (m : Proc A) (h : exn -> Proc A) : Proc A :=
  fun p =>
    match m p with
    | (Ok a, p') => (Ok a, p')
    | (Raise e, p') => h e p'
    end.

(** [try: m  except queue.Full: h] *)
Definition ptry_except_full {A} (m : Proc A) (h : Proc A) : Proc A :=
  fun p =>
    match m p with
    | (Raise Full, p') => h p'
    | other => other
    end.

(** A computation on the inner state, run inside the wider one. *)
Definition lift {A} (m : M A) : Proc A :=
  fun p => let '(r, w') := m (world p) in (r, set_world w' p).

Definition pget : Proc Process := fun p => (Ok p, p).
Definition pmodify (f : Process -> Process) : Proc unit := fun p => (Ok tt, f p).

Definition note (lvl : Level) (n : Note) : Proc unit :=
  pmodify (fun p => set_notes (notes p ++ [Noted lvl n]) p).

(** [log_to_file] from the entry point; the paths used there are not empty. *)
Definition note_to_file (n : Note) (path : string) : Proc unit :=
  pmodify (fun p => set_notes (notes p ++ [NotedToFile path n]) p).

Definition pexec {A} (m : Proc A) (p : Process) : Process := snd (m p).
Definition peval {A} (m : Proc A) (p : Process) : Result A := fst (m p).

Declare Scope proc_scope.
Delimit Scope proc_scope with proc.
Notation "x <- m ;; k" := (pbind m (fun x => k))
  (at level 100, m at next level, k at level 200, only parsing) : proc_scope.
Notation "m ;; k" := (pbind m (fun _ => k))
  (at level 100, k at level 200, only parsing) : proc_scope.

Fixpoint pfor_each {A} (l : list A) (body : A -> Proc unit) : Proc unit :=
  match l with
  | [] => pret tt
  | x :: l' => pbind (body x) (fun _ => pfor_each l' body)
  end.

(** What a turn of a worker does: it runs to its end, or it waits inside
    a blocking queue operation. *)
Inductive Outcome :=
| Completed
| Blocked.

(** The repeated [get()] of a drainer: the breaches up to the first marker
    and what is left behind it; [None] when the queue runs out before a
    marker is met, where [get()] waits. *)
Fixpoint take_batch (items : list (option Breach))
  : option (list Breach * list (option Breach)) :=
  match items with
  | [] => None
  | None :: rest => Some ([], rest)
  | Some b :: rest =>
      match take_batch rest with
      | Some (breaches, rest') => Some (b :: breaches, rest')
      | None => None
      end
  end.

Definition channel_title (q : QueueRef) : string :=
  match q with
  | RedQueue => "Red"
  | WarningQueue => "Warning"
  end.

Section Background.

Variable E : Env.

Local Open Scope proc_scope.

(** *** monitoring/device_state.py: [cleanup_job] *)

Definition device_state_cleanup_job
    (max_age_seconds cleanup_interval : Z) : Proc unit :=
  ptry_except
    (lift (bind (time_time E) (fun current_time =>
             bind (modify_dsm (evict_idle_devices current_time max_age_seconds))
                  (fun _ => time_sleep cleanup_interval))))
    (fun e => note ERROR (NoteStateCleanupError e)).

(** *** utils/rate_limiter.py: [cleanup_job] *)

Definition rate_limiter_cleanup_job : Proc unit :=
  ptry_except
    (lift (bind (time_sleep 3600) (fun _ => _cleanup_old_entries E)))
    (fun e => note ERROR (NoteRateLimiterCleanupError e)).

(** *** utils/cache.py *)

Definition clear_cache : Proc unit :=
  lift (modify_caches (fun _ => {| threshold_cache := ∅; email_cache := ∅ |})) ;;
  note INFO NoteCacheCleared.

Definition cleanup_expired_cache : Proc unit :=
  current_time <- lift (time_time E) ;;
  p <- pget ;;
  let expired_threshold_keys :=
    expired_keys current_time THRESHOLD_CACHE_TTL (threshold_cache (caches (world p))) in
  lift (modify_caches (fun c =>
    {| threshold_cache := delete_keys expired_threshold_keys (threshold_cache c);
       email_cache := email_cache c |})) ;;
  p <- pget ;;
  let expired_email_keys :=
    expired_keys current_time EMAIL_CACHE_TTL (email_cache (caches (world p))) in
  lift (modify_caches (fun c =>
    {| threshold_cache := threshold_cache c;
       email_cache := delete_keys expired_email_keys (email_cache c) |})) ;;
  note DEBUG (NoteCacheCleaned (length expired_threshold_keys) (length expired_email_keys)).

(** *** notification/queue_manager.py *)

(** [add_red_breach] and [add_warning_breach] differ in the queue, the
    mark and the name in the messages only. *)
Definition add_to_queue (q : QueueRef) (b : Breach) : Proc unit :=
  ptry_except_full
    (lift (put_nowait q (Some b)) ;;
     p <- pget ;;
     let qsize := Z.of_nat (length (queue_of q (queue_manager (world p)))) in
     if (high_water_mark q p <? qsize)%Z then
       pmodify (set_high_water_mark q qsize) ;;
       if py_gt (float_of_int qsize)
            (PrimFloat.mul (float_of_int QUEUE_SIZE) 0x1.999999999999ap-1%float)
       then note WARNING (NoteQueueFilling (channel_title q) qsize)
       else pret tt
     else pret tt)
    (note ERROR (NoteQueueFull (channel_title q))).

Definition add_red_breach (b : Breach) : Proc unit := add_to_queue RedQueue b.
Definition add_warning_breach (b : Breach) : Proc unit := add_to_queue WarningQueue b.

(** One turn of [process_red_breaches] or [process_warning_breaches]: the
    marker is put with a blocking [put], the breaches before it are taken
    out and, if there are any, handed to [process_func]. *)
Definition drain_turn (q : QueueRef) (channel : string) (interval : Z)
    (process_func : list Breach -> string -> Proc unit) : Proc Outcome :=
  ptry_except
    (p <- pget ;;
     let items := queue_of q (queue_manager (world p)) in
     if is_full items then pret Blocked
     else
       let set_items := fun l p =>
         set_world (set_queue_manager (set_queue q l (queue_manager (world p))) (world p)) p in
       match take_batch (items ++ [None]) with
       | None => pmodify (set_items []) ;; pret Blocked
       | Some (breaches, rest) =>
           pmodify (set_items rest) ;;
           match breaches with
           | [] => pret tt
           | _ =>
               note INFO (NoteDraining (length breaches) channel) ;;
               process_func breaches channel
           end ;;
           lift (time_sleep interval) ;;
           pret Completed
       end)
    (fun e =>
       note ERROR (NoteDrainError channel e) ;;
       note ERROR NoteTraceback ;;
       pret Completed).

Definition process_red_breaches (interval : Z)
    (process_func : list Breach -> string -> Proc unit) : Proc Outcome :=
  drain_turn RedQueue "red" interval process_func.

Definition process_warning_breaches (interval : Z)
    (process_func : list Breach -> string -> Proc unit) : Proc Outcome :=
  drain_turn WarningQueue "warning" interval process_func.

(** [get_queue_status]: the two sizes and the two marks *)
Definition get_queue_status (p : Process) : Z * Z * Z * Z :=
  (Z.of_nat (length (red_queue (queue_manager (world p)))),
   Z.of_nat (length (warning_queue (queue_manager (world p)))),
   red_queue_high_water_mark p,
   warning_queue_high_water_mark p).

(** *** main.py *)

Fixpoint enumerate {A} (start : nat) (l : list A) : list (nat * A) :=
  match l with
  | [] => []
  | x :: l' => (start, x) :: enumerate (S start) l'
  end.

(** The [process_breaches] closure of [main]. *)
Definition main_process_breaches (breaches : list Breach) (breach_type : string)
  : Proc unit :=
  let log_path := if String.eqb breach_type "red" then "red.log" else "non_red.log" in
  note INFO (NoteProcessing (length breaches) breach_type) ;;
  note_to_file (NoteProcessing (length breaches) breach_type) log_path ;;
  pfor_each (enumerate 0 breaches)
    (fun '(i, b) =>
       note_to_file
         (NoteBreach (i + 1) (b_device_id b) (b_sensor_id b) (b_threshold_type b))
         log_path) ;;
  lift (process_breaches E breaches (Some log_path)).

Definition threshold_check_wrapper (data : Event) : Proc unit :=
  ptry_except
    (note DEBUG (NoteProcessingData (ev_device_id data)) ;;
     lift (run_threshold_check E data RedQueue WarningQueue))
    (fun e => note ERROR (NoteThresholdCheckError e)).

End Background.

(** ** notification/email_formatter.py: [create_html_content]

    The formatter reads the breach dicts as they were built.  The values
    under "timestamp", "device_id", "sensor_id" and "sensor_name" are those
    of the event payload, passed through unconverted, and the three names
    are what the store returned: each is a string, an integer or [None].
    The notifier above takes the page of a batch from the environment;
    this is the function itself. *)

Inductive raw :=
| RawStr (s : string)
| RawInt (n : Z)
| RawNone.

Global Instance raw_eq_dec : EqDecision raw.
Proof. solve_decision. Defined.

Record BreachDict := {
  bd_device_id : raw;
  bd_sensor_id : raw;
  bd_factory_name : raw;
  bd_zone_name : raw;
  bd_machine_name : raw;
  bd_sensor_name : raw;
  bd_sensor_value : pyval;
  bd_timestamp : raw;
  bd_threshold_type : string;
  bd_threshold_value : float;
}.

(** The dict of a breach of the pipeline modelled above, where these
    values are strings. *)
Definition dict_of_breach (b : Breach) : BreachDict :=
  {| bd_device_id := RawStr (b_device_id b);
     bd_sensor_id := RawStr (b_sensor_id b);
     bd_factory_name := RawStr (b_factory_name b);
     bd_zone_name := RawStr (b_zone_name b);
     bd_machine_name := RawStr (b_machine_name b);
     bd_sensor_name := RawStr (b_sensor_name b);
     bd_sensor_value := b_sensor_value b;
     bd_timestamp := RawStr (b_timestamp b);
     bd_threshold_type := b_threshold_type b;
     bd_threshold_value := b_threshold_value b |}.

(** [a == b]: values of different types are different. *)
Definition raw_eqb (a b : raw) : bool :=
  match a, b with
  | RawStr s1, RawStr s2 => String.eqb s1 s2
  | RawInt n1, RawInt n2 => (n1 =? n2)%Z
  | RawNone, RawNone => true
  | _, _ => false
  end.

(** [a < b]: strings compare by code point, which on their UTF-8 bytes
    is the order of [String.compare]; integers compare by value; any other
    pair raises [TypeError], here [None]. *)
Definition raw_lt (a b : raw) : option bool :=
  match a, b with
  | RawStr s1, RawStr s2 => Some (String.ltb s1 s2)
  | RawInt n1, RawInt n2 => Some (n1 <? n2)%Z
  | _, _ => None
  end.

(** [a < b] on tuples: the first position where the two differ decides,
    with [<] on the two values found there; values that are equal are not
    compared with [<]. *)
Fixpoint tuple_lt (a b : list raw) : option bool :=
  match a, b with
  | x :: a', y :: b' => if raw_eqb x y then tuple_lt a' b' else raw_lt x y
  | [], _ :: _ => Some true
  | _, [] => Some false
  end.

(** [key=lambda x: (x["timestamp"], x["factory_name"], x["zone_name"],
    x["device_id"], x["sensor_id"])] *)
Definition sort_key (b : BreachDict) : list raw :=
  [bd_timestamp b; bd_factory_name b; bd_zone_name b; bd_device_id b; bd_sensor_id b].

Definition key_lt (a b : BreachDict) : option bool :=
  tuple_lt (sort_key a) (sort_key b).

Definition comparable (a b : BreachDict) : bool :=
  match key_lt a b with
  | Some _ => true
  | None => false
  end.

(** No two dicts of the batch have keys whose comparison raises. *)
Fixpoint all_comparable (l : list BreachDict) : bool :=
  match l with
  | [] => true
  | x :: l' => forallb (comparable x) l' && all_comparable l'
  end.

(** [not (key(b) < key(a))], on two dicts with comparable keys *)
Definition key_le (a b : BreachDict) : bool :=
  match key_lt b a with
  | Some true => false
  | _ => true
  end.

(** Insertion in front of the first element that is not smaller: an
    element that came first in the input stays first among its equals. *)
Fixpoint insert_by_key (x : BreachDict) (l : list BreachDict) : list BreachDict :=
  match l with
  | [] => [x]
  | y :: l' => if key_le x y then x :: l else y :: insert_by_key x l'
  end.

(** Python's [sorted] on the batch: a stable sort that uses [<] on the keys
    and lets the [TypeError] of a comparison out.  Which pairs it compares
    is its own business, but if it returned without having compared two keys
    that cannot be compared, it would return the same order whichever way
    those two were to compare, and be wrong for one of the two.  So it raises
    exactly when two keys of the batch cannot be compared; when all can, it
    returns the batch in ascending order, equal keys in batch order. *)
Definition sorted_breaches (breaches : list BreachDict) : Result (list BreachDict) :=
  if all_comparable breaches
  then Ok (fold_right insert_by_key [] breaches)
  else Raise TypeError.

(** [str(v)] on a payload value, as an f-string renders it *)
Definition str_of_raw (v : raw) : string :=
  match v with
  | RawStr s => s
  | RawInt n => pretty n
  | RawNone => "None"
  end.

Section Formatter.

(** [str] on the sensor value and on the threshold, both numbers whose
    rendering is taken as given. *)
Variable str_of_value : pyval -> string.
Variable str_of_number : float -> string.

Definition breach_row (b : BreachDict) : string :=
  "<tr>" ++
  "    <td>" ++ str_of_raw (bd_factory_name b) ++ "</td>" ++
  "    <td>" ++ str_of_raw (bd_zone_name b) ++ "</td>" ++
  "    <td>" ++ str_of_raw (bd_machine_name b) ++ "</td>" ++
  "    <td>" ++ str_of_raw (bd_device_id b) ++ "</td>" ++
  "    <td>" ++ str_of_raw (bd_sensor_name b) ++ "</td>" ++
  "    <td>" ++ str_of_value (bd_sensor_value b) ++ "</td>" ++
  "    <td>" ++ bd_threshold_type b ++ "</td>" ++
  "    <td>" ++ str_of_number (bd_threshold_value b) ++ "</td>" ++
  "    <td>" ++ str_of_raw (bd_timestamp b) ++ "</td>" ++
  "</tr>".

Definition html_head : string := "
    <html>
    <head>
        <style>
            table {
                width: 100%;
                border-collapse: collapse;
            }
            th, td {
                border: 1px solid black;
                padding: 8px;
                text-align: left;
            }
            th {
                background-color: #f2f2f2;
            }
            tr:nth-child(even) {
                background-color: #f9f9f9;
            }
        </style>
    </head>
    <body>
        <p><strong>Attention:</strong></p>
        <p>The following devices have crossed their standard thresholds:</p>

        <table>
            <thead>
                <tr>
                    <th>Factory Name</th>
                    <th>Zone Name</th>
                    <th>Machine Name</th>
                    <th>Device ID</th>
                    <th>Sensor Name</th>
                    <th>Sensor Value</th>
                    <th>Threshold Breached</th>
                    <th>Threshold Value</th>
                    <th>Timestamp</th>
                </tr>
            </thead>
            <tbody>
                ".

Definition html_tail : string := "
            </tbody>
        </table>

        <br><br>
        <p>Regards,<br><strong>Klvin Support Team</strong></p>
    </body>
    </html>
    ".

(** The page of a batch given in the order of its rows. *)
Definition page (rows : list BreachDict) : string :=
  html_head ++ String.concat "" (map breach_row rows) ++ html_tail.

Definition html_content (breaches : list BreachDict) : Result string :=
  match sorted_breaches breaches with
  | Ok rows => Ok (page rows)
  | Raise e => Raise e
  end.

End Formatter.

(** ** Further observations *)

(** The two levels the device-state manager keeps a sub-state for. *)
Definition valid_level (level : string) : Prop := level = "yellow" \/ level = "orange".

(** The sub-state of a level as a reader sees it: all-null when nothing is stored. *)
Definition state_view (w : World) (d s level : string) : SubState :=
  default null_state (stored_state w d s level).

(** Every device with stored sensor states has a last-access stamp, so the
    eviction loop, which walks the stamps, can reach it. *)
Definition tracked (m : DeviceStateManager) : Prop :=
  forall d, is_Some (states m !! d) -> is_Some (last_access m !! d).

(** The test of the eviction loop on the stamp of a device. *)
Definition is_idle (current_time : float) (max_age_seconds : Z) (stamp : float) : bool :=
  py_gt (PrimFloat.sub current_time stamp) (float_of_int max_age_seconds).

(** Both queues only grow, by breaches (never by a marker), and a queue
    within its capacity stays within it. *)
Definition queues_grow : relation World :=
  fun w w' =>
    forall q, exists new,
      queue_of q (queue_manager w') = (queue_of q (queue_manager w) ++ new)%list
      /\ Forall (fun item => is_Some item) new
      /\ ((Z.of_nat (length (queue_of q (queue_manager w))) <= QUEUE_SIZE)%Z ->
          (Z.of_nat (length (queue_of q (queue_manager w'))) <= QUEUE_SIZE)%Z).

(** How many times [get_sensor_state] reads the clock: once for a known
    device, twice when it creates the device first. *)
Definition lookup_clock_reads (w : World) (d : string) : nat :=
  match states (device_state_manager w) !! d with
  | Some _ => 1
  | None => 2
  end.

(** The dict [make_breach_object] builds for a reading with all its keys. *)
Definition breach_snapshot (E : Env) (device_id sensor_id sensor_type : string)
    (value : pyval) (timestamp threshold_type : string) (threshold_value : float)
  : Breach :=
  {| b_device_id := device_id;
     b_sensor_id := sensor_id;
     b_factory_name := fst (fst (get_entity_names E device_id));
     b_zone_name := snd (fst (get_entity_names E device_id));
     b_machine_name := snd (get_entity_names E device_id);
     b_sensor_name := sensor_type;
     b_sensor_value := value;
     b_timestamp := timestamp;
     b_threshold_type := lower threshold_type;
     b_threshold_value := threshold_value |}.

(** The classifier leaves the notifier's state alone: the rate limiter's
    history, the retry queue and the messages handed to the relay. *)
Definition notifier_untouched : relation World :=
  fun w w' =>
    history w' = history w
    /\ retry_queue w' = retry_queue w
    /\ smtp_attempts w' = smtp_attempts w.

(** What the cached lookup serves at [now]: the value of an entry younger
    than the time to live. *)
Definition fresh_entry {V} (now : float) (ttl : Z) (entry : option (V * float))
  : option V :=
  match entry with
  | Some (value, timestamp) =>
      if py_lt (PrimFloat.sub now timestamp) (float_of_int ttl)
      then Some value else None
  | None => None
  end.

(** [d.get(k)] on a dict kept in insertion order *)
Fixpoint dict_get {A} (k : string) (d : list (string * A)) : option A :=
  match d with
  | [] => None
  | (k', v) :: d' => if String.eqb k' k then Some v else dict_get k d'
  end.

(** The breaches of a batch that one device reported, in their order. *)
Definition of_device (device_id : string) (breaches : list Breach) : list Breach :=
  List.filter (fun b => String.eqb (b_device_id b) device_id) breaches.

(** An entry as [queue_for_retry] writes it: both keys set, the attempt
    within 1 .. [MAX_EMAIL_RETRY_ATTEMPTS]. *)
Definition stamped (e : EmailData) : Prop :=
  exists a t,
    ed_attempt e = Some a /\ ed_next_try e = Some t
    /\ (1 <= a <= MAX_EMAIL_RETRY_ATTEMPTS)%Z.

(** A retry queue of stamped entries is still one afterwards. *)
Definition keeps_retry_stamps : relation World :=
  fun w w' => Forall stamped (retry_queue w) -> Forall stamped (retry_queue w').

(** The message of the sending loop for one entry of [emails_to_send],
    outside test mode: the recipient, then the logger addresses. *)
Definition normal_envelope (E : Env) (entry : string * list Breach) : SmtpMessage :=
  {| msg_to := join "," ([fst entry] ++ LOGGER_EMAILS (cfg E))%list;
     msg_subject := create_email_subject (snd entry);
     msg_content := create_html_content E (snd entry) |}.

(** The [emails_to_send] dict that [process_breaches] has built when it
    reaches the sending loop. *)
Definition resolved_recipients (E : Env) (breaches : list Breach)
    (log_path : option string) (w : World) : list (string * list Breach) :=
  match eval (bind (log_file MsgInsideProcessBreaches log_path) (fun _ =>
              bind (logger INFO (MsgProcessingBreaches (length breaches))) (fun _ =>
              resolve_devices E (group_by_device breaches) []))) w with
  | Ok emails_to_send => emails_to_send
  | Raise _ => []
  end.

(** A computation that returns normally from every state. *)
Definition never_raises {A} (m : M A) : Prop :=
  forall w, exists a, fst (m w) = Ok a.

(** The process with the items of one queue replaced. *)
Definition with_queue (q : QueueRef) (items : list (option Breach)) (p : Process)
  : Process :=
  set_world (set_queue_manager (set_queue q items (queue_manager (world p))) (world p)) p.

(** The queue a queue-manager method does not work on. *)
Definition other_queue (q : QueueRef) : QueueRef :=
  match q with
  | RedQueue => WarningQueue
  | WarningQueue => RedQueue
  end.

(** A comparison that decides equality and orders its type. *)
Record ordering {A} (c : A -> A -> comparison) : Prop := {
  ordering_eq : forall a b, c a b = Eq <-> a = b;
  ordering_antisym : forall a b, c b a = CompOpp (c a b);
  ordering_trans : forall a b d, c a b = Lt -> c b d = Lt -> c a d = Lt;
}.

(** An order on all payload values that agrees with [<] wherever [<] is
    defined: integers before strings before [None]. *)
Definition raw_compare (a b : raw) : comparison :=
  match a, b with
  | RawInt n1, RawInt n2 => (n1 ?= n2)%Z
  | RawInt _, _ => Lt
  | RawStr _, RawInt _ => Gt
  | RawStr s1, RawStr s2 => String.compare s1 s2
  | RawStr _, RawNone => Lt
  | RawNone, RawNone => Eq
  | RawNone, _ => Gt
  end.

(** The lexicographic order of tuples over it. *)
Fixpoint lex_compare (a b : list raw) : comparison :=
  match a, b with
  | [], [] => Eq
  | [], _ :: _ => Lt
  | _ :: _, [] => Gt
  | x :: a', y :: b' =>
      match raw_compare x y with
      | Eq => lex_compare a' b'
      | c => c
      end
  end.

(** Ascending in the key: no dict is followed by one whose key is
    smaller, every such comparison being defined. *)
Definition in_order : list BreachDict -> Prop :=
  StronglySorted (fun a b => key_lt b a = Some false).

(** The dicts of a list that have a given key, in list order. *)
Definition with_key (key : list raw) (l : list BreachDict) : list BreachDict :=
  List.filter (fun b => bool_decide (sort_key b = key)) l.

(** * Properties *)

(** ** Reasoning about runs *)

Lemma bind_run {A B} (m : M A) (k : A -> M B) (w : World) :
  bind m k w =
  match m w with
  | (Ok a, w') => k a w'
  | (Raise e, w') => (Raise e, w')
  end.
Proof. reflexivity. Qed.

Lemma bind_ok {A B} (m : M A) (k : A -> M B) (w w' : World) (a : A) :
  m w = (Ok a, w') -> bind m k w = k a w'.
Proof. intros H. unfold bind. now rewrite H. Qed.

Lemma bind_raise {A B} (m : M A) (k : A -> M B) (w w' : World) (e : exn) :
  m w = (Raise e, w') -> bind m k w = (Raise e, w').
Proof. intros H. unfold bind. now rewrite H. Qed.

Lemma eqb_false_of_neq (a b : string) : a <> b -> String.eqb a b = false.
Proof. intros H. now apply String.eqb_neq. Qed.

Lemma snd_bind_readonly {A B} (m : M A) (k : A -> M B) (w : World) :
  (forall a w', snd (k a w') = w') -> snd (bind m k w) = snd (m w).
Proof.
  intros Hk. unfold bind. destruct (m w) as [[a|e] w']; [apply Hk | reflexivity].
Qed.

Lemma subscript_run {A} (key : string) (o : option A) (a : A) (w : World) :
  o = Some a -> subscript key o w = (Ok a, w).
Proof. intros ->. reflexivity. Qed.

(** ** The device-state manager *)

Lemma sensor_lookup_alter (m : DeviceStateManager) (la : gmap string float)
    (f : SensorState -> SensorState) (d s d' s' : string) :
  sensor_lookup {| states := alter (alter f s) d (states m); last_access := la |} d' s'
  = if decide (d' = d /\ s' = s) then f <$> sensor_lookup m d s
    else sensor_lookup m d' s'.
Proof.
  unfold sensor_lookup. cbn.
  destruct (decide (d' = d)) as [->|Hd].
  - rewrite lookup_alter_eq. destruct (states m !! d) as [sensors|]; cbn.
    + destruct (decide (s' = s)) as [->|Hs].
      * rewrite lookup_alter_eq. rewrite decide_True by auto. reflexivity.
      * rewrite lookup_alter_ne by congruence.
        rewrite decide_False by (intros [_ ?]; congruence). reflexivity.
    + destruct (decide (d = d /\ s' = s)); reflexivity.
  - rewrite lookup_alter_ne by congruence.
    rewrite decide_False by (intros [? _]; congruence). reflexivity.
Qed.

Lemma level_of_set_level_eq (lvl : string) (st : SubState) (ss : SensorState) :
  lvl = "yellow" \/ lvl = "orange" -> level_of (set_level lvl st ss) lvl = Some st.
Proof. intros [-> | ->]; reflexivity. Qed.

Lemma level_of_set_level_ne (lvl l' : string) (st : SubState) (ss : SensorState) :
  l' <> lvl -> level_of (set_level lvl st ss) l' = level_of ss l'.
Proof.
  intros Hne. unfold set_level, level_of.
  destruct (String.eqb_spec lvl "yellow") as [->|Hy].
  - rewrite (eqb_false_of_neq _ _ Hne). reflexivity.
  - destruct (String.eqb_spec lvl "orange") as [->|Ho]; [|reflexivity].
    rewrite (eqb_false_of_neq _ _ Hne). reflexivity.
Qed.

Lemma level_of_valid (lvl : string) (ss : SensorState) :
  negb (String.eqb lvl "yellow" || String.eqb lvl "orange") = false ->
  exists st, level_of ss lvl = Some st.
Proof.
  unfold level_of. intros H.
  destruct (String.eqb lvl "yellow"); [eexists; reflexivity|].
  destruct (String.eqb lvl "orange"); [eexists; reflexivity|].
  discriminate.
Qed.

Lemma well_formed_null : well_formed null_state.
Proof. split; cbn; [auto | discriminate]. Qed.

Lemma well_formed_set_level (lvl : string) (st : SubState) (ss : SensorState) :
  well_formed st -> well_formed (yellow ss) /\ well_formed (orange ss) ->
  well_formed (yellow (set_level lvl st ss)) /\ well_formed (orange (set_level lvl st ss)).
Proof.
  intros Hst [Hy Ho]. unfold set_level.
  destruct (String.eqb lvl "yellow"); [split; assumption|].
  destruct (String.eqb lvl "orange"); split; assumption.
Qed.

Lemma invariant_write (m : DeviceStateManager) (la : gmap string float)
    (d s lvl : string) (st : SubState) :
  dsm_invariant m -> well_formed st ->
  dsm_invariant
    {| states := alter (alter (set_level lvl st) s) d (states m); last_access := la |}.
Proof.
  intros Hinv Hst d' s' ss'. rewrite sensor_lookup_alter.
  destruct (decide (d' = d /\ s' = s)) as [[-> ->]|Hn]; [|apply Hinv].
  destruct (sensor_lookup m d s) as [ss|] eqn:Hl; cbn; [|discriminate].
  intros [= <-]. apply well_formed_set_level; [assumption|]. eapply Hinv, Hl.
Qed.

Lemma invariant_initial : dsm_invariant (device_state_manager initial_world).
Proof. intros d s ss H. unfold sensor_lookup in H. cbn in H. discriminate. Qed.

Section DeviceState.

Variable E : Env.

Lemma time_time_run (w : World) :
  time_time E w = (Ok (clock E (ticks w)), set_ticks (S (ticks w)) w).
Proof. reflexivity. Qed.

Lemma stored_sensor_state_readonly (d s : string) (w : World) :
  snd (stored_sensor_state d s w) = w.
Proof.
  unfold stored_sensor_state, bind, get_world, subscript.
  destruct (sensor_lookup _ d s); reflexivity.
Qed.

(** A sensor that is already stored: the lookup only refreshes the
    last-access stamp of the device, with one reading of the clock. *)
Lemma get_sensor_state_stored (d s : string) (w : World) (ss : SensorState) :
  sensor_lookup (device_state_manager w) d s = Some ss ->
  get_sensor_state E d s w =
    (Ok ss,
     set_device_state_manager
       {| states := states (device_state_manager w);
          last_access :=
            <[d := clock E (ticks w)]> (last_access (device_state_manager w)) |}
       (set_ticks (S (ticks w)) w)).
Proof.
  intros H. unfold get_sensor_state, stored_sensor_state.
  unfold sensor_lookup in H.
  destruct (states (device_state_manager w) !! d) as [sensors|] eqn:Hd; [|discriminate].
  rewrite bind_run. unfold get_world at 1. cbn beta iota.
  rewrite Hd.
  unfold bind, ret, get_world, modify_dsm, modify, time_time, subscript, sensor_lookup. cbn.
  rewrite Hd, H. cbn. rewrite Hd, H. reflexivity.
Qed.

(** In general the lookup stores the all-null state for a sensor it does
    not know yet, and never fails. *)
Lemma get_sensor_state_run (d s : string) (w : World) :
  exists w',
    get_sensor_state E d s w
      = (Ok (default fresh_sensor_state (sensor_lookup (device_state_manager w) d s)), w')
    /\ sensor_lookup (device_state_manager w') d s
       = Some (default fresh_sensor_state (sensor_lookup (device_state_manager w) d s))
    /\ (forall d' s', d' <> d \/ s' <> s ->
          sensor_lookup (device_state_manager w') d' s'
          = sensor_lookup (device_state_manager w) d' s')
    /\ same_outside_dsm w w'.
Proof.
  destruct (sensor_lookup (device_state_manager w) d s) as [ss|] eqn:Hl.
  - eexists. split; [apply (get_sensor_state_stored d s w ss Hl)|].
    cbn. unfold sensor_lookup in *. cbn. rewrite Hl. repeat split; auto.
  - unfold sensor_lookup in Hl.
    destruct (states (device_state_manager w) !! d) as [sensors|] eqn:Hd.
    + eexists. split.
      * unfold get_sensor_state, stored_sensor_state.
        rewrite bind_run. unfold get_world at 1. cbn beta iota. rewrite Hd.
        unfold bind, ret, get_world, modify_dsm, modify, time_time, subscript, sensor_lookup.
        cbn. rewrite Hd, Hl. cbn.
        rewrite lookup_alter_eq, Hd. cbn. rewrite lookup_insert_eq. reflexivity.
      * cbn. unfold sensor_lookup. cbn. split.
        { rewrite lookup_alter_eq, Hd. cbn. apply lookup_insert_eq. }
        split; [|repeat split].
        intros d' s' Hne.
        destruct (decide (d' = d)) as [->|Hdd].
        { rewrite lookup_alter_eq, Hd. cbn.
          destruct Hne as [Hne|Hne]; [congruence|].
          rewrite lookup_insert_ne by congruence. reflexivity. }
        { rewrite lookup_alter_ne by congruence. reflexivity. }
    + eexists. split.
      * unfold get_sensor_state, stored_sensor_state.
        rewrite bind_run. unfold get_world at 1. cbn beta iota. rewrite Hd.
        unfold bind, ret, get_world, modify_dsm, modify, time_time, subscript, sensor_lookup.
        cbn. rewrite lookup_insert_eq. cbn. rewrite lookup_empty. cbn.
        rewrite lookup_alter_eq, lookup_insert_eq. cbn. rewrite lookup_insert_eq. reflexivity.
      * cbn. unfold sensor_lookup. cbn. split.
        { rewrite lookup_alter_eq, lookup_insert_eq. cbn. apply lookup_insert_eq. }
        split; [|repeat split].
        intros d' s' Hne.
        destruct (decide (d' = d)) as [->|Hdd].
        { rewrite lookup_alter_eq, lookup_insert_eq, Hd. cbn.
          destruct Hne as [Hne|Hne]; [congruence|].
          rewrite lookup_insert_ne by congruence. apply lookup_empty. }
        { rewrite lookup_alter_ne by congruence.
          rewrite lookup_insert_ne by congruence. reflexivity. }
Qed.

Lemma invariant_get_sensor_state (d s : string) (w : World) :
  dsm_invariant (device_state_manager w) ->
  dsm_invariant (device_state_manager (exec (get_sensor_state E d s) w)).
Proof.
  intros Hinv.
  destruct (get_sensor_state_run d s w) as (w' & Hrun & Hat & Hother & _).
  unfold exec. rewrite Hrun. cbn.
  intros d' s' ss' Hl.
  destruct (decide (d' = d /\ s' = s)) as [[-> ->]|Hn].
  - rewrite Hat in Hl. injection Hl as <-.
    destruct (sensor_lookup (device_state_manager w) d s) as [ss|] eqn:Hold; cbn.
    + eapply Hinv, Hold.
    + split; apply well_formed_null.
  - rewrite Hother in Hl.
    + eapply Hinv, Hl.
    + destruct (decide (d' = d)) as [->|Hd]; [right|left]; [|exact Hd].
      intros ->. apply Hn. auto.
Qed.

Lemma invariant_update_sensor_state (d s tt : string) (a : bool)
    (b : option Breach) (w : World) :
  (a = true -> b <> None) ->
  dsm_invariant (device_state_manager w) ->
  dsm_invariant (device_state_manager (exec (update_sensor_state E d s tt a b) w)).
Proof.
  intros Hb Hinv. unfold exec, update_sensor_state.
  destruct (negb _) eqn:Hv; [exact Hinv|].
  pose proof (invariant_get_sensor_state d s w Hinv) as Hinv1.
  destruct (get_sensor_state_run d s w) as (w1 & Hrun & _).
  unfold exec in Hinv1. rewrite Hrun in Hinv1. cbn in Hinv1.
  rewrite (bind_ok _ _ _ _ _ Hrun).
  destruct (level_of_valid (lower tt)
              (default fresh_sensor_state (sensor_lookup (device_state_manager w) d s)) Hv)
    as (st & Hst).
  rewrite (bind_ok _ _ _ _ _ (time_time_run w1)).
  rewrite (bind_ok _ _ _ _ _ (subscript_run _ _ _ _ Hst)).
  rewrite snd_bind_readonly by (intros; apply stored_sensor_state_readonly).
  destruct a.
  - destruct (above_threshold st); cbn; [exact Hinv1|].
    apply invariant_write; [exact Hinv1|].
    split; cbn; [discriminate | intros _; split; [discriminate | auto]].
  - cbn. apply invariant_write; [exact Hinv1 | apply well_formed_null].
Qed.

Lemma invariant_check_sustained_breach (d s tt : string) (dwell : Z) (w : World) :
  dsm_invariant (device_state_manager w) ->
  dsm_invariant (device_state_manager (exec (check_sustained_breach E d s tt dwell) w)).
Proof.
  intros Hinv. unfold exec, check_sustained_breach.
  pose proof (invariant_get_sensor_state d s w Hinv) as Hinv1.
  destruct (get_sensor_state_run d s w) as (w1 & Hrun & _).
  unfold exec in Hinv1. rewrite Hrun in Hinv1. cbn in Hinv1.
  rewrite (bind_ok _ _ _ _ _ Hrun).
  unfold bind, time_time, subscript, ret.
  destruct (level_of _ _) as [[ab si br]|]; cbn; [|exact Hinv1].
  destruct ab; cbn; [|exact Hinv1].
  destruct si as [since|]; cbn; [|exact Hinv1].
  destruct (PrimFloat.leb _ _); cbn; [|exact Hinv1].
  apply invariant_write; [exact Hinv1 | apply well_formed_null].
Qed.

(** C9.  A threshold type whose lowercase form is neither "yellow" nor
    "orange" makes [update_sensor_state] raise [ValueError] before it
    touches anything: the states map and the last-access map (indeed the
    whole state of the process) are as before the call. *)
Theorem update_sensor_state_rejects_unknown_level
    (device_id sensor_id threshold_type : string) (is_above : bool)
    (b : option Breach) (w : World) :
  lower threshold_type <> "yellow" ->
  lower threshold_type <> "orange" ->
  eval (update_sensor_state E device_id sensor_id threshold_type is_above b) w
    = Raise (ValueError ("Invalid threshold type: " ++ lower threshold_type))
  /\ states (device_state_manager
       (exec (update_sensor_state E device_id sensor_id threshold_type is_above b) w))
     = states (device_state_manager w)
  /\ last_access (device_state_manager
       (exec (update_sensor_state E device_id sensor_id threshold_type is_above b) w))
     = last_access (device_state_manager w)
  /\ exec (update_sensor_state E device_id sensor_id threshold_type is_above b) w = w.
Proof.
  intros Hy Ho.
  unfold eval, exec, update_sensor_state.
  rewrite (eqb_false_of_neq _ _ Hy), (eqb_false_of_neq _ _ Ho).
  simpl. repeat split.
Qed.

(** C2.  [check_sustained_breach] on a level that is "yellow" or "orange"
    (up to case).  [now] is the clock reading the call compares with: when
    the sensor is stored it is the second reading after the call starts, the
    first one being the last-access stamp.
    - If the stored sub-state is above its threshold and
      [now - since >= dwell], the call returns [(True, pending breach)] and
      that sub-state becomes the all-null state; no other sub-state changes.
    - If the stored sub-state is not due, the call returns [(False, None)]
      and the states map is unchanged.
    - If nothing is stored for the sensor, the call returns [(False, None)];
      the lookup has stored the all-null state for that sensor, and no
      other sensor changes. *)
Theorem check_sustained_breach_spec
    (device_id sensor_id threshold_type : string) (dwell : Z) (w : World) :
  lower threshold_type = "yellow" \/ lower threshold_type = "orange" ->
  let level := lower threshold_type in
  let now := clock E (S (ticks w)) in
  let r := check_sustained_breach E device_id sensor_id threshold_type dwell w in
  (forall st, stored_state w device_id sensor_id level = Some st ->
     (is_due now dwell st = true ->
        fst r = Ok (true, breach st)
        /\ stored_state (snd r) device_id sensor_id level = Some null_state
        /\ (forall d' s' l', (d', s', l') <> (device_id, sensor_id, level) ->
              stored_state (snd r) d' s' l' = stored_state w d' s' l'))
     /\ (is_due now dwell st = false ->
           fst r = Ok (false, None)
           /\ states (device_state_manager (snd r)) = states (device_state_manager w)))
  /\ (stored_state w device_id sensor_id level = None ->
        fst r = Ok (false, None)
        /\ sensor_lookup (device_state_manager (snd r)) device_id sensor_id
           = Some fresh_sensor_state
        /\ (forall d' s', d' <> device_id \/ s' <> sensor_id ->
              sensor_lookup (device_state_manager (snd r)) d' s'
              = sensor_lookup (device_state_manager w) d' s')).
Proof.
  intros Hlvl level now r. subst level now r. split.
  - intros st Hst. unfold stored_state in Hst.
    destruct (sensor_lookup (device_state_manager w) device_id sensor_id)
      as [ss|] eqn:Hl; [|discriminate].
    unfold check_sustained_breach.
    rewrite (bind_ok _ _ _ _ _ (get_sensor_state_stored _ _ w ss Hl)).
    unfold bind, time_time, subscript, ret. rewrite Hst.
    unfold is_due. destruct st as [ab si br]. cbn.
    destruct ab; cbn; [|split; [discriminate | intros _; split; reflexivity]].
    destruct si as [since|]; cbn;
      [|split; [discriminate | intros _; split; reflexivity]].
    unfold py_ge.
    destruct (PrimFloat.leb _ _);
      [|split; [discriminate | intros _; split; reflexivity]].
    split; [intros _ | discriminate].
    cbn. split; [reflexivity|].
    unfold stored_state. cbn. split.
    + rewrite sensor_lookup_alter. rewrite decide_True by auto.
      rewrite Hl. cbn. apply level_of_set_level_eq, Hlvl.
    + intros d' s' l' Hne. rewrite sensor_lookup_alter.
      destruct (decide (d' = device_id /\ s' = sensor_id)) as [[-> ->]|Hn];
        [|reflexivity].
      rewrite Hl. cbn. apply level_of_set_level_ne. congruence.
  - intros Hnone. unfold stored_state in Hnone.
    destruct (sensor_lookup (device_state_manager w) device_id sensor_id)
      as [ss|] eqn:Hl.
    { exfalso. destruct Hlvl as [Hl'|Hl']; rewrite Hl' in Hnone; discriminate. }
    destruct (get_sensor_state_run device_id sensor_id w)
      as (w1 & Hrun & Hat & Hother & _).
    rewrite Hl in Hrun, Hat.
    change (default fresh_sensor_state None) with fresh_sensor_state in Hrun, Hat.
    unfold check_sustained_breach.
    rewrite (bind_ok _ _ _ _ _ Hrun).
    unfold bind, time_time, subscript, ret.
    assert (Hlev : level_of fresh_sensor_state (lower threshold_type) = Some null_state)
      by (destruct Hlvl as [Hl'|Hl']; rewrite Hl'; reflexivity).
    rewrite Hlev. cbn. split; [reflexivity|]. split; [exact Hat | exact Hother].
Qed.

(** C3, as amended.  Each public operation of the device-state manager
    keeps the invariant of every stored sub-state, provided that
    [update_sensor_state] is given a breach whenever it is told that the
    value is above the threshold. *)
Theorem dsm_operations_preserve_invariant
    (device_id sensor_id : string) (w : World) :
  dsm_invariant (device_state_manager w) ->
  dsm_invariant (device_state_manager (exec (get_sensor_state E device_id sensor_id) w))
  /\ (forall threshold_type is_above b,
        (is_above = true -> b <> None) ->
        dsm_invariant (device_state_manager
          (exec (update_sensor_state E device_id sensor_id threshold_type is_above b) w)))
  /\ (forall threshold_type dwell,
        dsm_invariant (device_state_manager
          (exec (check_sustained_breach E device_id sensor_id threshold_type dwell) w))).
Proof.
  intros Hinv. split; [|split].
  - apply invariant_get_sensor_state, Hinv.
  - intros tt a b Hb. apply invariant_update_sensor_state; assumption.
  - intros tt dwell. apply invariant_check_sustained_breach, Hinv.
Qed.

End DeviceState.

Lemma update_sensor_state_rejects_unknown_level_witness :
  let E := example_env false 1 Delivered in
  lower "Red" <> "yellow" /\ lower "Red" <> "orange" /\
  exec (update_sensor_state E "d1" "s1" "Red" true None) initial_world
    = initial_world.
Proof.
  assert (Hy : lower "Red" <> "yellow") by (vm_compute; discriminate).
  assert (Ho : lower "Red" <> "orange") by (vm_compute; discriminate).
  intros E. split; [exact Hy | split; [exact Ho |]].
  exact (proj2 (proj2 (proj2
    (update_sensor_state_rejects_unknown_level E "d1" "s1" "Red" true None
       initial_world Hy Ho)))).
Defined.

Lemma check_sustained_breach_spec_witness :
  let E := example_env false 20 Delivered in
  let b := example_breach "yellow" 10 in
  let w := exec (update_sensor_state E "d1" "s1" "yellow" true (Some b)) initial_world in
  (lower "yellow" = "yellow" \/ lower "yellow" = "orange")
  /\ fst (check_sustained_breach E "d1" "s1" "yellow" 10 w) = Ok (true, Some b)
  /\ stored_state (snd (check_sustained_breach E "d1" "s1" "yellow" 10 w))
       "d1" "s1" "yellow" = Some null_state.
Proof.
  intros E b w.
  assert (Hl : lower "yellow" = "yellow" \/ lower "yellow" = "orange")
    by (left; reflexivity).
  split; [exact Hl|].
  pose (st := {| above_threshold := true;
                 since_timestamp := Some (float_of_int 40);
                 breach := Some b |}).
  assert (Hst : stored_state w "d1" "s1" (lower "yellow") = Some st)
    by (vm_compute; reflexivity).
  assert (Hdue : is_due (clock E (S (ticks w))) 10 st = true)
    by (vm_compute; reflexivity).
  destruct (check_sustained_breach_spec E "d1" "s1" "yellow" 10 w Hl) as [Hstored _].
  destruct (Hstored st Hst) as [Hfire _].
  destruct (Hfire Hdue) as (Hres & Hcleared & _).
  split; [exact Hres | exact Hcleared].
Defined.

(** C3 as stated fails: [update_sensor_state] called for a value above the
    threshold without a breach (its default argument) stores a sub-state
    that is above with no pending breach. *)
Lemma dsm_invariant_broken_without_breach :
  let E := example_env false 1 Delivered in
  dsm_invariant (device_state_manager initial_world)
  /\ ~ dsm_invariant (device_state_manager
         (exec (update_sensor_state E "d1" "s1" "yellow" true None) initial_world)).
Proof.
  intros E. split; [apply invariant_initial|].
  intros H.
  assert (Hl : sensor_lookup (device_state_manager
                 (exec (update_sensor_state E "d1" "s1" "yellow" true None) initial_world))
                 "d1" "s1"
               = Some {| yellow := {| above_threshold := true;
                                      since_timestamp := Some (float_of_int 2);
                                      breach := None |};
                         orange := null_state |})
    by (vm_compute; reflexivity).
  destruct (H _ _ _ Hl) as [[_ Hy] _].
  destruct (Hy eq_refl) as [_ Hb]. apply Hb. reflexivity.
Qed.

Lemma dsm_operations_preserve_invariant_witness :
  let E := example_env false 1 Delivered in
  dsm_invariant (device_state_manager initial_world)
  /\ dsm_invariant (device_state_manager
       (exec (update_sensor_state E "d1" "s1" "yellow" true
                (Some (example_breach "yellow" 10))) initial_world)).
Proof.
  intros E. split; [apply invariant_initial|].
  destruct (dsm_operations_preserve_invariant E "d1" "s1" initial_world
              invariant_initial) as (_ & Hupdate & _).
  apply Hupdate. intros _. discriminate.
Defined.

(** ** The rate limiter *)


Lemma timeout_of_known_severity (c : Settings) :
  BREACH_TIMEOUT_IN_SECONDS c !! "red" = Some (RED_EMAIL_TIMEOUT_IN_SECONDS c)
  /\ BREACH_TIMEOUT_IN_SECONDS c !! "orange" = Some (ORANGE_EMAIL_TIMEOUT_IN_SECONDS c)
  /\ BREACH_TIMEOUT_IN_SECONDS c !! "yellow" = Some (YELLOW_EMAIL_TIMEOUT_IN_SECONDS c).
Proof. repeat split. Qed.

Section RateLimiter.

Variable E : Env.

(** What [should_send] does, case by case on the history entry. *)
Lemma should_send_run (d s tt : string) (w : World) :
  let key := (d, s, lower tt) in
  let now := clock E (ticks w) in
  let timeout := default 3600%Z (BREACH_TIMEOUT_IN_SECONDS (cfg E) !! lower tt) in
  let allow :=
    match history w !! key with
    | None => true
    | Some last_sent => py_ge (PrimFloat.sub now last_sent) (float_of_int timeout)
    end in
  should_send E d s tt w =
    (Ok allow,
     if allow then set_history (<[key := now]> (history w)) (set_ticks (S (ticks w)) w)
     else set_ticks (S (ticks w)) w).
Proof.
  cbv zeta. unfold should_send, bind, time_time, get_world, modify, ret, py_ge. cbn.
  destruct (history w !! (d, s, lower tt)) as [last|]; [|reflexivity].
  destruct (PrimFloat.leb _ _); reflexivity.
Qed.

(** C5.  [should_send] allows the notification, and records the current
    time as [last_sent], when the key has no history entry or when
    [now - last_sent >= timeout[severity]]; otherwise it denies it and the
    history, hence the stored [last_sent], is unchanged.  The timeout of
    "red", "orange" and "yellow" is the configured one. *)
Theorem should_send_spec (device_id sensor_id threshold_type : string) (w : World) :
  let key := (device_id, sensor_id, lower threshold_type) in
  let now := clock E (ticks w) in
  let timeout :=
    default 3600%Z (BREACH_TIMEOUT_IN_SECONDS (cfg E) !! lower threshold_type) in
  let r := should_send E device_id sensor_id threshold_type w in
  (history w !! key = None ->
     fst r = Ok true /\ history (snd r) = <[key := now]> (history w))
  /\ (forall last_sent, history w !! key = Some last_sent ->
        py_ge (PrimFloat.sub now last_sent) (float_of_int timeout) = true ->
        fst r = Ok true /\ history (snd r) = <[key := now]> (history w))
  /\ (forall last_sent, history w !! key = Some last_sent ->
        py_ge (PrimFloat.sub now last_sent) (float_of_int timeout) = false ->
        fst r = Ok false /\ history (snd r) = history w
        /\ history (snd r) !! key = Some last_sent)
  /\ (BREACH_TIMEOUT_IN_SECONDS (cfg E) !! "red"
        = Some (RED_EMAIL_TIMEOUT_IN_SECONDS (cfg E))
      /\ BREACH_TIMEOUT_IN_SECONDS (cfg E) !! "orange"
        = Some (ORANGE_EMAIL_TIMEOUT_IN_SECONDS (cfg E))
      /\ BREACH_TIMEOUT_IN_SECONDS (cfg E) !! "yellow"
        = Some (YELLOW_EMAIL_TIMEOUT_IN_SECONDS (cfg E))).
Proof.
  intros key now timeout r. subst r.
  pose proof (should_send_run device_id sensor_id threshold_type w) as Hrun.
  cbv zeta in Hrun. fold key now timeout in Hrun.
  split; [|split; [|split]].
  - intros Hnone. rewrite Hrun, Hnone. split; reflexivity.
  - intros last Hsome Hge. rewrite Hrun, Hsome, Hge. split; reflexivity.
  - intros last Hsome Hlt. rewrite Hrun, Hsome, Hlt. cbn.
    split; [reflexivity | split; [reflexivity | exact Hsome]].
  - apply timeout_of_known_severity.
Qed.


End RateLimiter.

(** Scenario 4 of the specification: "red" at t=0 is allowed, at t=100 it
    is denied and the stored stamp stays 0, at t=400 it is allowed again. *)
Lemma should_send_spec_witness :
  let E := example_env false 100 Delivered in
  let first := should_send E "d" "s" "red" initial_world in
  let second := should_send E "d" "s" "red" (snd first) in
  history initial_world !! ("d", "s", "red") = None
  /\ fst first = Ok true
  /\ history (snd first) !! ("d", "s", "red") = Some (float_of_int 0)
  /\ fst second = Ok false
  /\ history (snd second) !! ("d", "s", "red") = Some (float_of_int 0).
Proof.
  intros E first second.
  assert (Hnone : history initial_world !! ("d", "s", lower "red") = None)
    by reflexivity.
  destruct (should_send_spec E "d" "s" "red" initial_world) as (Hnew & _ & _ & _).
  destruct (Hnew Hnone) as [Hfirst Hhist].
  assert (Hstored : history (snd first) !! ("d", "s", lower "red")
                    = Some (float_of_int 0))
    by (vm_compute; reflexivity).
  destruct (should_send_spec E "d" "s" "red" (snd first)) as (_ & _ & Hdeny & _).
  assert (Hearly :
    py_ge (PrimFloat.sub (clock E (ticks (snd first))) (float_of_int 0))
      (float_of_int
         (default 3600%Z (BREACH_TIMEOUT_IN_SECONDS (cfg E) !! lower "red")))
    = false) by (vm_compute; reflexivity).
  destruct (Hdeny _ Hstored Hearly) as (Hsecond & _ & Hkept).
  exact (conj Hnone (conj Hfirst (conj Hstored (conj Hsecond Hkept)))).
Defined.



(** ** Frame reasoning *)

Section Frames.

Context (R : relation World) `{!PreOrder R}.

Lemma preserves_ret {A} (a : A) : preserves R (ret a).
Proof. intros w. cbn. reflexivity. Qed.

Lemma preserves_raise {A} (e : exn) : preserves R (@raise A e).
Proof. intros w. cbn. reflexivity. Qed.

Lemma preserves_get_world : preserves R get_world.
Proof. intros w. cbn. reflexivity. Qed.

Lemma preserves_subscript {A} (key : string) (o : option A) :
  preserves R (subscript key o).
Proof. intros w. destruct o; cbn; reflexivity. Qed.

Lemma preserves_time_sleep (n : Z) : preserves R (time_sleep n).
Proof. intros w. cbn. reflexivity. Qed.

Lemma preserves_modify (f : World -> World) :
  (forall w, R w (f w)) -> preserves R (modify f).
Proof. intros H w. apply H. Qed.

Lemma preserves_bind {A B} (m : M A) (k : A -> M B) :
  preserves R m -> (forall a, preserves R (k a)) -> preserves R (bind m k).
Proof.
  intros Hm Hk w. unfold bind. specialize (Hm w).
  destruct (m w) as [[a|e] w1]; cbn in *; [|exact Hm].
  etransitivity; [exact Hm | apply Hk].
Qed.

Lemma preserves_try_except {A} (m : M A) (h : exn -> M A) :
  preserves R m -> (forall e, preserves R (h e)) -> preserves R (try_except m h).
Proof.
  intros Hm Hh w. unfold try_except. specialize (Hm w).
  destruct (m w) as [[a|e] w1]; cbn in *; [exact Hm|].
  etransitivity; [exact Hm | apply Hh].
Qed.

Lemma preserves_for_each {A} (l : list A) (body : A -> M unit) :
  (forall x, preserves R (body x)) -> preserves R (for_each l body).
Proof.
  intros Hb. induction l as [|x l IH]; cbn.
  - apply preserves_ret.
  - apply preserves_bind; [apply Hb | intros _; exact IH].
Qed.

End Frames.

(** [frame tac] walks down the monadic structure of the computation;
    [tac] settles the relation on each elementary state change. *)
Ltac frame tac :=
  repeat
    (intros;
     lazymatch goal with
     | |- PreOrder _ => typeclasses eauto
     | |- preserves _ (ret _) => apply preserves_ret
     | |- preserves _ (raise _) => apply preserves_raise
     | |- preserves _ get_world => apply preserves_get_world
     | |- preserves _ (subscript _ _) => apply preserves_subscript
     | |- preserves _ (time_sleep _) => apply preserves_time_sleep
     | |- preserves _ (bind _ _) => apply preserves_bind
     | |- preserves _ (try_except _ _) => apply preserves_try_except
     | |- preserves _ (for_each _ _) => apply preserves_for_each
     | |- preserves _ (modify _) => apply preserves_modify; intros; cbn; tac
     | |- preserves _ (time_time _) => intros ?; cbn; tac
     | |- preserves _ (match ?x with _ => _ end) => destruct x
     | |- preserves _ (logger _ _) => unfold logger
     | |- preserves _ (log_to_file _ _) => unfold log_to_file
     | |- preserves _ (log_file _ _) => unfold log_file
     | |- preserves _ (modify_dsm _) => unfold modify_dsm
     | |- preserves _ (modify_caches _) => unfold modify_caches
     | |- preserves _ _ => solve [auto]
     | _ => fail
     end).

Global Instance same_dsm_and_queues_preorder : PreOrder same_dsm_and_queues.
Proof.
  split.
  - intros w. split; reflexivity.
  - intros a b c [H1 H2] [H3 H4]. split; congruence.
Qed.

(** ** The threshold classifier *)

Section Classifier.

Variable E : Env.

Lemma get_thresholds_frame (d s : string) :
  preserves same_dsm_and_queues (get_thresholds E d s).
Proof.
  unfold get_thresholds, original_get_thresholds.
  frame ltac:(split; reflexivity).
Qed.

Lemma try_except_ok {A} (m : M A) (h : exn -> M A) (w w' : World) (a : A) :
  m w = (Ok a, w') -> try_except m h w = (Ok a, w').
Proof. intros H. unfold try_except. now rewrite H. Qed.

(** C1, as amended.  A well-formed reading whose value converts to a
    number [x >= red], for a sensor whose thresholds are found:
    - the classifier returns normally and leaves the device-state manager
      (states and last-access stamps) exactly as it was;
    - if the critical queue has room, exactly one breach is appended to
      it, of type "red" and with the red threshold as its threshold value,
      and no other queue changes;
    - if the critical queue is full, the breach is dropped: both queues
      are unchanged and the failure is logged as an error. *)
Theorem red_breach_is_immediate
    (device_id timestamp : string) (critical_queue warning_queue : QueueRef)
    (r : Reading) (sensor_id sensor_type : string) (raw : pyval)
    (x yellow_th orange_th red_th : float) (w w1 : World) :
  r_sensor_id r = Some sensor_id ->
  r_value r = Some raw ->
  r_sensor_type r = Some sensor_type ->
  py_float E raw w = (Ok x, w) ->
  get_thresholds E device_id sensor_id w = (Ok (yellow_th, orange_th, red_th), w1) ->
  py_ge x red_th = true ->
  let names := get_entity_names E device_id in
  let b := {| b_device_id := device_id;
              b_sensor_id := sensor_id;
              b_factory_name := fst (fst names);
              b_zone_name := snd (fst names);
              b_machine_name := snd names;
              b_sensor_name := sensor_type;
              b_sensor_value := raw;
              b_timestamp := timestamp;
              b_threshold_type := "red";
              b_threshold_value := red_th |} in
  let run := check_reading E device_id timestamp critical_queue warning_queue r w in
  fst run = Ok tt
  /\ device_state_manager (snd run) = device_state_manager w
  /\ (is_full (queue_of critical_queue (queue_manager w)) = false ->
        queue_of critical_queue (queue_manager (snd run))
          = (queue_of critical_queue (queue_manager w) ++ [Some b])%list
        /\ (forall q, q <> critical_queue ->
              queue_of q (queue_manager (snd run)) = queue_of q (queue_manager w))
        /\ log (snd run)
           = (log w1 ++ [Logged INFO (MsgRedBreachDetected device_id sensor_id x)])%list)
  /\ (is_full (queue_of critical_queue (queue_manager w)) = true ->
        queue_manager (snd run) = queue_manager w
        /\ log (snd run)
           = (log w1 ++ [Logged ERROR (MsgFailedToQueueBreach "red" Full)])%list).
Proof.
  intros Hsid Hval Htype Hfloat Hth Hge names b run.
  destruct (get_thresholds_frame device_id sensor_id w) as [Hdsm Hq].
  rewrite Hth in Hdsm, Hq. cbn in Hdsm, Hq.
  assert (Hrun : run =
    try_except
      (bind (put_nowait critical_queue (Some b))
         (fun _ => logger INFO (MsgRedBreachDetected device_id sensor_id x)))
      (fun e => logger ERROR (MsgFailedToQueueBreach "red" e)) w1).
  { subst run. unfold check_reading.
    rewrite (bind_ok _ _ _ _ _ (subscript_run _ _ _ w Hsid)).
    rewrite (bind_ok _ _ _ _ _ (subscript_run _ _ _ w Hval)).
    rewrite (bind_ok _ _ _ _ _ Hfloat).
    erewrite (bind_ok _ _ w w1);
      [|apply try_except_ok; rewrite (bind_ok _ _ _ _ _ Hth); reflexivity].
    cbv beta iota. rewrite Hge.
    unfold make_breach_object. subst b names.
    destruct (get_entity_names E device_id) as [[factory zone] machine].
    unfold bind, subscript, ret, try_except.
    rewrite Hsid, Htype, Hval. reflexivity. }
  rewrite Hrun. clear Hrun run.
  unfold put_nowait, logger. unfold try_except, bind, get_world, modify, raise.
  cbv beta iota. rewrite Hq.
  destruct (is_full (queue_of critical_queue (queue_manager w))) eqn:Hfull; cbn.
  - split; [reflexivity|]. split; [exact Hdsm|]. split; [discriminate|].
    intros _. split; [exact Hq | reflexivity].
  - split; [reflexivity|]. split; [exact Hdsm|]. split; [|discriminate].
    intros _. rewrite Hq. split; [|split; [|reflexivity]].
    + destruct critical_queue; reflexivity.
    + intros q Hne. destruct q, critical_queue; try reflexivity; congruence.
Qed.

(** A reading whose value does not convert ends the whole event: the
    exception leaves the loop, [run_threshold_check] logs it, and the
    readings after it are never looked at. *)
Lemma unconvertible_value_aborts_event
    (data : Event) (critical_queue warning_queue : QueueRef)
    (bad : Reading) (rest : list Reading) (sensor_id : string) (raw : pyval)
    (e : exn) (w : World) :
  ev_readings data = ReadingList (bad :: rest) ->
  r_sensor_id bad = Some sensor_id ->
  r_value bad = Some raw ->
  (forall w', py_float E raw w' = (Raise e, w')) ->
  exec (run_threshold_check E data critical_queue warning_queue) w
  = set_log
      (log w ++ [Logged DEBUG (MsgCheckingThresholds (ev_device_id data) (S (length rest)));
                 Logged ERROR (MsgErrorInThresholdCheck e)])%list
      w.
Proof.
  intros Hev Hsid Hval Hfloat.
  unfold exec, run_threshold_check, check_thresholds_against_data.
  rewrite Hev. cbn [for_each length].
  unfold check_reading.
  unfold try_except, bind, logger, modify, subscript, ret.
  rewrite Hsid, Hval. cbv beta iota. rewrite Hfloat. cbn.
  rewrite <- app_assoc. reflexivity.
Qed.

End Classifier.

Lemma red_breach_is_immediate_witness :
  let E := example_env false 1 Delivered in
  let r := reading "s1" (PyNum (float_of_int 35)) in
  let run := check_reading E "d1" "t0" RedQueue WarningQueue r initial_world in
  py_ge (float_of_int 35) (float_of_int 30) = true
  /\ is_full (queue_of RedQueue (queue_manager initial_world)) = false
  /\ queue_of RedQueue (queue_manager (snd run)) = [Some (example_breach "red" 30)]
  /\ device_state_manager (snd run) = device_state_manager initial_world.
Proof.
  intros E r run.
  assert (Hge : py_ge (float_of_int 35) (float_of_int 30) = true) by reflexivity.
  assert (Hroom : is_full (queue_of RedQueue (queue_manager initial_world)) = false)
    by reflexivity.
  assert (Hth : get_thresholds E "d1" "s1" initial_world
                = (Ok (float_of_int 10, float_of_int 20, float_of_int 30),
                   snd (get_thresholds E "d1" "s1" initial_world)))
    by (vm_compute; reflexivity).
  destruct (red_breach_is_immediate E "d1" "t0" RedQueue WarningQueue r
              "s1" "temperature" (PyNum (float_of_int 35))
              (float_of_int 35) (float_of_int 10) (float_of_int 20) (float_of_int 30)
              initial_world _ eq_refl eq_refl eq_refl eq_refl Hth Hge)
    as (_ & Hdsm & Hput & _).
  destruct (Hput Hroom) as (Hqueue & _ & _).
  exact (conj Hge (conj Hroom (conj Hqueue Hdsm))).
Defined.

(** C1 as stated fails when the critical queue is full: the reading
    35 >= 30 is classified as red, but the non-blocking put raises [Full],
    the breach is dropped, and the queue holds what it held before. *)
Lemma red_breach_dropped_when_queue_full :
  let E := example_env false 1 Delivered in
  let event := {| ev_device_id := "d1"; ev_time := "t0";
                  ev_readings := OneReading (reading "s1" (PyNum (float_of_int 35))) |} in
  let w' := exec (run_threshold_check E event RedQueue WarningQueue)
              full_red_queue_world in
  py_ge (float_of_int 35) (float_of_int 30) = true
  /\ length (red_queue (queue_manager full_red_queue_world)) = 100
  /\ red_queue (queue_manager w') = red_queue (queue_manager full_red_queue_world)
  /\ log w' = [Logged DEBUG (MsgCheckingThresholds "d1" 1);
               Logged DEBUG (MsgCacheMissThresholds "d1" "s1");
               Logged ERROR (MsgFailedToQueueBreach "red" Full)].
Proof. vm_compute. repeat split. Qed.

(** C4 fails on the code.  With thresholds (10, 20, 30) the reading 35
    alone puts a red breach on the critical queue; preceded in the same
    event by a reading whose value is the string "n/a" it is never
    classified: the conversion error leaves the loop, is logged by
    [run_threshold_check], and the queue stays empty. *)
Theorem conversion_failure_drops_remaining_readings :
  let E := example_env false 1 Delivered in
  let good := reading "s1" (PyNum (float_of_int 35)) in
  let bad := reading "s2" (PyStr "n/a") in
  let event l := {| ev_device_id := "d1"; ev_time := "t0";
                    ev_readings := ReadingList l |} in
  let alone := exec (run_threshold_check E (event [good]) RedQueue WarningQueue)
                 initial_world in
  let after_bad := exec (run_threshold_check E (event [bad; good]) RedQueue WarningQueue)
                     initial_world in
  red_queue (queue_manager alone) = [Some (example_breach "red" 30)]
  /\ red_queue (queue_manager after_bad) = []
  /\ log after_bad
     = [Logged DEBUG (MsgCheckingThresholds "d1" 2);
        Logged ERROR (MsgErrorInThresholdCheck
                        (ValueError "could not convert string to float"))].
Proof. vm_compute. repeat split. Qed.

(** ** Recipient lookup *)

(** C7 fails on the code.  [get_emails] ignores both the device and the
    severity: it returns one fixed address (a single string, not a list
    filtered by tier) and never fails, through the cache as well. *)
Theorem get_emails_is_hardcoded (E : Env) (device_id severity : string) :
  original_get_emails device_id severity = RecStr "sudhamshusuri.2015@gmail.com"
  /\ eval (get_emails E device_id severity) initial_world
     = Ok (RecStr "sudhamshusuri.2015@gmail.com").
Proof. split; reflexivity. Qed.

(** ** The notifier *)

Global Instance outbox_extends_preorder (P : SmtpMessage -> Prop) :
  PreOrder (outbox_extends P).
Proof.
  split.
  - intros w. exists []. split; [symmetry; apply app_nil_r | constructor].
  - intros a b c (n1 & H1 & F1) (n2 & H2 & F2).
    exists (n1 ++ n2)%list. split.
    + rewrite H2, H1. symmetry. apply app_assoc.
    + apply Forall_app. split; assumption.
Qed.

Lemma outbox_same (P : SmtpMessage -> Prop) (w w' : World) :
  smtp_attempts w' = smtp_attempts w -> outbox_extends P w w'.
Proof.
  intros H. exists []. split; [rewrite H; symmetry; apply app_nil_r | constructor].
Qed.

Ltac outbox := apply outbox_same; reflexivity.

Global Instance within_budget_preorder : PreOrder within_budget.
Proof.
  split.
  - intros w. unfold within_budget. lia.
  - intros a b c H1 H2. unfold within_budget in *. lia.
Qed.

Lemma retry_budget_app (q1 q2 : list EmailData) :
  retry_budget (q1 ++ q2) = retry_budget q1 + retry_budget q2.
Proof. apply sum_list_with_app. Qed.

Lemma retry_budget_cons (e : EmailData) (q : list EmailData) :
  retry_budget (e :: q) = budget e + retry_budget q.
Proof. reflexivity. Qed.

Lemma budget_positive (e : EmailData) : 1 <= budget e.
Proof. unfold budget. destruct (ed_attempt e); lia. Qed.

Section Notifier.

Variable E : Env.

(** One call of [send_email]: one more message at the relay, addressed to
    the test address alone in test mode and to the recipients followed by
    the logger addresses otherwise.  The recipients it was called with are
    logged before the envelope is chosen. *)
Lemma send_email_run (recipients : list string) (subject content : string)
    (log_path : option string) (w : World) :
  exists w',
    send_email E recipients subject content log_path w
      = (Ok (delivered (smtp E (length (smtp_attempts w)))), w')
    /\ smtp_attempts w'
       = (smtp_attempts w ++
            [{| msg_to := join ","
                  (if USE_TEST_EMAIL (cfg E) then [TEST_EMAIL (cfg E)]
                   else (recipients ++ LOGGER_EMAILS (cfg E))%list);
                msg_subject := subject; msg_content := content |}])%list
    /\ retry_queue w' = retry_queue w
    /\ ticks w' = ticks w
    /\ In (Logged INFO (MsgSendingEmailTo recipients)) (log w').
Proof.
  unfold send_email, log_file, log_to_file, logger.
  unfold bind, ret, modify, get_world.
  destruct log_path as [p|]; [destruct (String.eqb p "") eqn:Hp|];
    cbn; rewrite ?Hp;
    destruct (USE_TEST_EMAIL (cfg E)); cbn; rewrite ?Hp;
    destruct (smtp E (length (smtp_attempts w))); cbn; rewrite ?Hp;
    (eexists; split; [reflexivity|]; cbn;
     repeat split; rewrite ?in_app_iff; cbn; tauto).
Qed.

Section Outbox.

Variable P : SmtpMessage -> Prop.

Lemma outbox_should_send (d s t : string) :
  preserves (outbox_extends P) (should_send E d s t).
Proof. unfold should_send. frame outbox. Qed.

Lemma outbox_get_emails (d t : string) :
  preserves (outbox_extends P) (get_emails E d t).
Proof. unfold get_emails. frame outbox. Qed.


Lemma outbox_rate_limited (l : list Breach) :
  preserves (outbox_extends P) (rate_limited E l).
Proof.
  induction l as [|b l IH]; cbn [rate_limited].
  - frame outbox.
  - pose proof outbox_should_send. frame outbox.
Qed.

Lemma outbox_resolve_breaches (d : string) (l : list Breach)
    (acc : list (string * list Breach)) :
  preserves (outbox_extends P) (resolve_breaches E d l acc).
Proof.
  revert acc. induction l as [|b l IH]; intros acc; cbn [resolve_breaches].
  - frame outbox.
  - pose proof outbox_get_emails. unfold resolve_breach. frame outbox.
Qed.

Lemma outbox_resolve_devices (l acc : list (string * list Breach)) :
  preserves (outbox_extends P) (resolve_devices E l acc).
Proof.
  revert acc. induction l as [|entry l IH]; intros acc; cbn [resolve_devices].
  - frame outbox.
  - pose proof outbox_rate_limited. pose proof outbox_resolve_breaches.
    unfold resolve_device. frame outbox.
Qed.

Hypothesis every_envelope :
  forall recipients subject content,
    P {| msg_to := join ","
           (if USE_TEST_EMAIL (cfg E) then [TEST_EMAIL (cfg E)]
            else (recipients ++ LOGGER_EMAILS (cfg E))%list);
         msg_subject := subject; msg_content := content |}.






End Outbox.


(** ** The retry scheduler *)

Lemma retry_job_turn_budget (w : World) :
  within_budget w (exec (retry_job_turn E) w).
Proof.
  unfold exec, retry_job_turn.
  rewrite snd_bind_readonly by (intros [] ?; reflexivity).
  unfold try_except. rewrite bind_run. unfold get_world at 1. cbv beta iota.
  destruct (retry_queue w) as [|e rest] eqn:Hq.
  - cbn. unfold within_budget. lia.
  - unfold bind at 1. unfold modify at 1. cbv beta iota.
    unfold bind at 1.
    destruct (ed_next_try e) as [nt|] eqn:Hnt; cbn [subscript ret raise].
    2:{ cbn. unfold within_budget. cbn. rewrite Hq, retry_budget_cons. lia. }
    unfold bind at 1. unfold time_time at 1. cbv beta iota.
    destruct (py_gt nt _).
    { cbn. unfold within_budget. cbn.
      rewrite Hq, retry_budget_app, !retry_budget_cons.
      change (retry_budget []) with 0. lia. }
    match goal with
    | |- context [bind (send_email E ?a ?b ?c ?d) _ ?w0] =>
        destruct (send_email_run a b c d w0) as (w3 & Hrun & Hsent & Hqueue & _)
    end.
    rewrite (bind_ok _ _ _ _ _ Hrun).
    cbn in Hsent, Hqueue.
    pose proof (budget_positive e) as Hpos.
    destruct (delivered _); cbn [negb].
    { cbn. unfold within_budget.
      rewrite Hsent, Hqueue, Hq, length_app, retry_budget_cons. cbn. lia. }
    unfold bind at 1. unfold bind at 1.
    destruct (ed_attempt e) as [a|] eqn:Ha; cbn [subscript ret raise].
    2:{ cbn. unfold within_budget. cbn.
        rewrite Hsent, Hqueue, Hq, length_app, retry_budget_cons. cbn. lia. }
    unfold queue_for_retry.
    destruct (Z.leb_spec (a + 1) MAX_EMAIL_RETRY_ATTEMPTS) as [Hle|Hgt].
    + cbn. unfold within_budget. cbn.
      rewrite Hsent, Hqueue, Hq, length_app, retry_budget_app, !retry_budget_cons.
      change (retry_budget []) with 0.
      unfold budget. cbn. rewrite Ha. unfold MAX_EMAIL_RETRY_ATTEMPTS in *. lia.
    + cbn. unfold within_budget. cbn.
      rewrite Hsent, Hqueue, Hq, length_app, retry_budget_cons. cbn. lia.
Qed.

Lemma retry_job_budget (n : nat) : preserves within_budget (retry_job E n).
Proof.
  induction n as [|n IH]; cbn [retry_job].
  - apply preserves_ret. typeclasses eauto.
  - apply preserves_bind;
      [typeclasses eauto | intros w; apply retry_job_turn_budget | intros _; exact IH].
Qed.

(** The hand-off of [process_breaches]: one send, and on failure one entry
    with attempt 1 at the tail of the retry queue. *)
Lemma send_to_recipient_run (log_path : option string) (recipient : string)
    (breaches : list Breach) (w : World) :
  let w1 := exec (send_to_recipient E log_path (recipient, breaches)) w in
  length (smtp_attempts w1) = S (length (smtp_attempts w))
  /\ (retry_queue w1 = retry_queue w
      \/ exists e, retry_queue w1 = (retry_queue w ++ [e])%list
                   /\ ed_attempt e = Some 1%Z
                   /\ ed_recipients e = [recipient]).
Proof.
  cbv zeta.
  remember (exec (send_to_recipient E log_path (recipient, breaches)) w) as w1 eqn:Hw1.
  unfold exec, send_to_recipient in Hw1.
  unfold bind at 1 in Hw1.
  assert (Hlog : forall m lp w0, exists w0',
            log_file m lp w0 = (Ok tt, w0')
            /\ smtp_attempts w0' = smtp_attempts w0
            /\ retry_queue w0' = retry_queue w0).
  { intros m lp w0. unfold log_file, log_to_file, modify.
    destruct lp as [p|]; [destruct (String.eqb p "")|]; eexists; repeat split. }
  destruct (Hlog (MsgSendingEmailWith recipient (length breaches)) log_path w)
    as (w0 & Hrun0 & Ha0 & Hq0).
  rewrite Hrun0 in Hw1.
  match type of Hw1 with
  | context [bind (send_email E ?a ?b ?c ?d) _ ?w0] =>
      destruct (send_email_run a b c d w0) as (w3 & Hrun & Hsent & Hqueue & _)
  end.
  rewrite (bind_ok _ _ _ _ _ Hrun) in Hw1.
  destruct (delivered _); cbn [negb] in Hw1.
  - cbn in Hw1. subst w1.
    rewrite Hsent, Hqueue, Ha0, Hq0, length_app. cbn. split; [lia | left; reflexivity].
  - unfold queue_for_retry in Hw1. cbn in Hw1. subst w1. cbn.
    rewrite Hsent, Hqueue, Ha0, Hq0, length_app. cbn.
    split; [lia|]. right. eexists. repeat split.
Qed.

(** A turn of the retry thread on a head entry that is due and whose send
    fails. *)
Lemma retry_failure_step (w : World) (e : EmailData) (rest : list EmailData)
    (nt : float) (a : Z) :
  retry_queue w = e :: rest ->
  ed_next_try e = Some nt ->
  ed_attempt e = Some a ->
  py_gt nt (clock E (ticks w)) = false ->
  delivered (smtp E (length (smtp_attempts w))) = false ->
  let w' := exec (retry_job_turn E) w in
  length (smtp_attempts w') = S (length (smtp_attempts w))
  /\ ((a < MAX_EMAIL_RETRY_ATTEMPTS)%Z ->
        retry_queue w'
        = (rest ++
             [{| ed_recipients := ed_recipients e;
                 ed_subject := ed_subject e;
                 ed_content := ed_content e;
                 ed_attempt := Some (a + 1)%Z;
                 ed_next_try :=
                   Some (PrimFloat.add (clock E (S (ticks w))) (float_of_int 30)) |}])%list)
  /\ ((MAX_EMAIL_RETRY_ATTEMPTS <= a)%Z ->
        retry_queue w' = rest
        /\ exists earlier,
             log w'
             = (earlier ++
                  [Logged ERROR (MsgEmailFailedAfter MAX_EMAIL_RETRY_ATTEMPTS e);
                   LoggedToFile self_log_path
                     (MsgEmailPermanentlyFailed MAX_EMAIL_RETRY_ATTEMPTS e)])%list).
Proof.
  intros Hq Hnt Ha Hdue Hfail. cbv zeta.
  remember (exec (retry_job_turn E) w) as w' eqn:Hw'.
  unfold exec, retry_job_turn in Hw'.
  rewrite snd_bind_readonly in Hw' by (intros [] ?; reflexivity).
  unfold try_except in Hw'. rewrite bind_run in Hw'.
  unfold get_world at 1 in Hw'. cbv beta iota in Hw'. rewrite Hq in Hw'.
  unfold bind at 1 in Hw'. unfold modify at 1 in Hw'. cbv beta iota in Hw'.
  unfold bind at 1 in Hw'. rewrite Hnt in Hw'. cbn [subscript ret] in Hw'.
  unfold bind at 1 in Hw'. unfold time_time at 1 in Hw'. cbv beta iota in Hw'.
  cbn [ticks set_retry_queue] in Hw'. rewrite Hdue in Hw'.
  match type of Hw' with
  | context [bind (send_email E ?a ?b ?c ?d) _ ?w0] =>
      destruct (send_email_run a b c d w0)
        as (w3 & Hrun & Hsent & Hqueue & Hticks & _)
  end.
  cbn [smtp_attempts set_ticks set_retry_queue] in Hrun. rewrite Hfail in Hrun.
  rewrite (bind_ok _ _ _ _ _ Hrun) in Hw'.
  cbn in Hsent, Hqueue, Hticks. cbn [negb] in Hw'.
  unfold bind at 1 in Hw'. unfold bind at 1 in Hw'.
  rewrite Ha in Hw'. cbn [subscript ret] in Hw'.
  unfold queue_for_retry in Hw'.
  destruct (Z.leb_spec (a + 1) MAX_EMAIL_RETRY_ATTEMPTS) as [Hle|Hgt].
  - cbn in Hw'. subst w'. cbn. rewrite Hsent, Hqueue, Hticks, length_app. cbn.
    split; [lia|]. split; [intros _; reflexivity | intros Hmax; lia].
  - cbn in Hw'. subst w'. cbn. rewrite Hsent, Hqueue, length_app. cbn.
    split; [lia|]. split; [intros Hlt; lia|]. intros _. split; [reflexivity|].
    exists (log w3). rewrite <- app_assoc. reflexivity.
Qed.

(** C6, as amended.  A message handed to the retry path from an empty
    retry queue is sent once by the notifier and then at most
    [MAX_EMAIL_RETRY_ATTEMPTS] more times by the retry thread, however
    long the thread runs: the bound counts the retries, so the initial
    send included a message reaches the relay at most [MAX + 1] times.
    From any state of the queue, the thread makes at most as many sends
    as the attempt numbers of the queued entries leave open.
    When the send of a due entry fails, an entry with [attempt < MAX] goes
    back to the tail of the queue with [attempt + 1] and
    [next_try = now + 30], and an entry with [attempt >= MAX] is dropped
    with the permanent-failure records in the log. *)
Theorem retries_are_bounded (log_path : option string) (recipient : string)
    (breaches : list Breach) (n : nat) (w : World) :
  retry_queue w = [] ->
  let w1 := exec (send_to_recipient E log_path (recipient, breaches)) w in
  let wn := exec (retry_job E n) w1 in
  length (smtp_attempts w1) = S (length (smtp_attempts w))
  /\ length (smtp_attempts wn)
     <= length (smtp_attempts w1) + Z.to_nat MAX_EMAIL_RETRY_ATTEMPTS
  /\ length (smtp_attempts wn)
     <= length (smtp_attempts w) + S (Z.to_nat MAX_EMAIL_RETRY_ATTEMPTS)
  /\ (forall (v : World) (k : nat),
        length (smtp_attempts (exec (retry_job E k) v))
        <= length (smtp_attempts v) + retry_budget (retry_queue v))
  /\ (forall (v : World) (e : EmailData) (rest : list EmailData) (nt : float) (a : Z),
        retry_queue v = e :: rest ->
        ed_next_try e = Some nt ->
        ed_attempt e = Some a ->
        py_gt nt (clock E (ticks v)) = false ->
        delivered (smtp E (length (smtp_attempts v))) = false ->
        let v' := exec (retry_job_turn E) v in
        length (smtp_attempts v') = S (length (smtp_attempts v))
        /\ ((a < MAX_EMAIL_RETRY_ATTEMPTS)%Z ->
              retry_queue v'
              = (rest ++
                   [{| ed_recipients := ed_recipients e;
                       ed_subject := ed_subject e;
                       ed_content := ed_content e;
                       ed_attempt := Some (a + 1)%Z;
                       ed_next_try :=
                         Some (PrimFloat.add (clock E (S (ticks v)))
                                 (float_of_int 30)) |}])%list)
        /\ ((MAX_EMAIL_RETRY_ATTEMPTS <= a)%Z ->
              retry_queue v' = rest
              /\ exists earlier,
                   log v'
                   = (earlier ++
                        [Logged ERROR
                           (MsgEmailFailedAfter MAX_EMAIL_RETRY_ATTEMPTS e);
                         LoggedToFile self_log_path
                           (MsgEmailPermanentlyFailed MAX_EMAIL_RETRY_ATTEMPTS e)])%list)).
Proof.
  intros Hempty w1 wn.
  destruct (send_to_recipient_run log_path recipient breaches w) as [Hfirst Hqueue].
  fold w1 in Hfirst, Hqueue.
  pose proof (retry_job_budget n w1) as Hbudget.
  fold (exec (retry_job E n) w1) in Hbudget. fold wn in Hbudget.
  unfold within_budget in Hbudget.
  assert (Hb1 : retry_budget (retry_queue w1) <= Z.to_nat MAX_EMAIL_RETRY_ATTEMPTS).
  { rewrite Hempty in Hqueue. destruct Hqueue as [-> | (e & -> & Ha & _)].
    - change (retry_budget []) with 0. lia.
    - cbn [app]. rewrite retry_budget_cons. change (retry_budget []) with 0.
      unfold budget. rewrite Ha. unfold MAX_EMAIL_RETRY_ATTEMPTS. lia. }
  split; [exact Hfirst|]. split; [lia|]. split; [lia|]. split.
  - intros v k. pose proof (retry_job_budget k v) as Hk.
    unfold within_budget in Hk. unfold exec. lia.
  - intros v e rest nt a. apply retry_failure_step.
Qed.

End Notifier.



Lemma retries_are_bounded_witness :
  let E := example_env false 40 SmtpError in
  let w1 := exec (send_to_recipient E (Some "red.log")
                    ("a@x", [example_breach "red" 30])) initial_world in
  let wn := exec (retry_job E 3) w1 in
  retry_queue initial_world = []
  /\ length (smtp_attempts w1) = 1
  /\ length (smtp_attempts wn) <= 1 + Z.to_nat MAX_EMAIL_RETRY_ATTEMPTS.
Proof.
  intros E w1 wn.
  assert (Hempty : retry_queue initial_world = []) by reflexivity.
  destruct (retries_are_bounded E (Some "red.log") "a@x" [example_breach "red" 30]
              3 initial_world Hempty) as (Hfirst & Hretries & _).
  fold w1 in Hfirst, Hretries. fold wn in Hretries.
  split; [exact Hempty|]. split; [exact Hfirst|].
  rewrite Hfirst in Hretries. exact Hretries.
Defined.

(** C6 as stated fails: with a relay that refuses every message, the
    message handed to the retry path reaches the relay four times, once
    from the notifier and three times from the retry thread, which is one
    more than [MAX_EMAIL_RETRY_ATTEMPTS]; only then is it dropped. *)
Lemma failing_message_is_sent_four_times :
  let E := example_env false 40 SmtpError in
  let w1 := exec (send_to_recipient E (Some "red.log")
                    ("a@x", [example_breach "red" 30])) initial_world in
  let wn := exec (retry_job E 3) w1 in
  retry_queue initial_world = []
  /\ smtp_attempts wn
     = repeat {| msg_to := "a@x,connect@klvin.ai";
                 msg_subject := "[Threshold Breach Alert] 1 breach(es) detected.";
                 msg_content := "<html>" |} 4
  /\ (Z.of_nat (length (smtp_attempts wn)) > MAX_EMAIL_RETRY_ATTEMPTS)%Z
  /\ retry_queue wn = [].
Proof. vm_compute. repeat split. Qed.

(** * Further properties of the code *)

(** ** State transitions of the device-state manager *)

Lemma lower_ascii_idempotent (c : ascii) : lower_ascii (lower_ascii c) = lower_ascii c.
Proof. destruct c as [[] [] [] [] [] [] [] []]; reflexivity. Qed.

Lemma lower_idempotent (s : string) : lower (lower s) = lower s.
Proof.
  induction s as [|c s IH]; cbn; [reflexivity|].
  rewrite lower_ascii_idempotent, IH. reflexivity.
Qed.

Lemma valid_level_eqb (level : string) :
  valid_level level ->
  negb (String.eqb level "yellow" || String.eqb level "orange") = false.
Proof. intros [-> | ->]; reflexivity. Qed.

Section StateTransitions.
Variable E : Env.

(* the state after the lookup *)
Lemma after_lookup (d s : string) (w : World) :
  let w1 := exec (get_sensor_state E d s) w in
  get_sensor_state E d s w
    = (Ok (default fresh_sensor_state (sensor_lookup (device_state_manager w) d s)), w1)
  /\ sensor_lookup (device_state_manager w1) d s
     = Some (default fresh_sensor_state (sensor_lookup (device_state_manager w) d s))
  /\ (forall d' s', d' <> d \/ s' <> s ->
        sensor_lookup (device_state_manager w1) d' s'
        = sensor_lookup (device_state_manager w) d' s').
Proof.
  cbv zeta. destruct (get_sensor_state_run E d s w) as (w' & Hrun & Hat & Hother & _).
  unfold exec. rewrite Hrun. cbn [snd]. auto.
Qed.

Lemma update_sensor_state_run (d s tt : string) (a : bool) (b : option Breach) (w : World) :
  valid_level (lower tt) ->
  let w1 := exec (get_sensor_state E d s) w in
  let now := clock E (ticks w1) in
  let w2 := set_ticks (S (ticks w1)) w1 in
  forall st, stored_state w1 d s (lower tt) = Some st ->
  exec (update_sensor_state E d s tt a b) w
  = (if a then
       if above_threshold st then w2
       else snd (write_state d s (lower tt)
                   {| above_threshold := true; since_timestamp := Some now; breach := b |} w2)
     else snd (write_state d s (lower tt) null_state w2)).
Proof.
  intros Hv w1 now w2 st Hst.
  destruct (after_lookup d s w) as (Hrun & Hat & _). fold w1 in Hrun, Hat.
  unfold stored_state in Hst. rewrite Hat in Hst.
  unfold exec, update_sensor_state. rewrite (valid_level_eqb _ Hv).
  rewrite (bind_ok _ _ _ _ _ Hrun).
  rewrite (bind_ok _ _ _ _ _ (time_time_run E w1)).
  rewrite (bind_ok _ _ _ _ _ (subscript_run _ _ _ _ Hst)).
  rewrite snd_bind_readonly by (intros; apply stored_sensor_state_readonly).
  destruct a; [destruct (above_threshold st)|]; reflexivity.
Qed.

Lemma stored_after_lookup (d s level : string) (w : World) :
  valid_level level ->
  stored_state (exec (get_sensor_state E d s) w) d s level = Some (state_view w d s level).
Proof.
  intros Hv. destruct (after_lookup d s w) as (_ & Hat & _).
  unfold stored_state, state_view, stored_state. rewrite Hat.
  destruct (sensor_lookup (device_state_manager w) d s) as [ss|]; cbn.
  - destruct Hv as [-> | ->]; reflexivity.
  - destruct Hv as [-> | ->]; reflexivity.
Qed.

Lemma view_after_lookup (d s d' s' level : string) (w : World) :
  state_view (exec (get_sensor_state E d s) w) d' s' level = state_view w d' s' level.
Proof.
  destruct (after_lookup d s w) as (_ & Hat & Hother).
  unfold state_view, stored_state.
  destruct (decide (d' = d /\ s' = s)) as [[-> ->]|Hn].
  - rewrite Hat.
    destruct (sensor_lookup (device_state_manager w) d s) as [ss|]; cbn; [reflexivity|].
    unfold level_of.
    destruct (String.eqb level "yellow"); [reflexivity|].
    destruct (String.eqb level "orange"); reflexivity.
  - rewrite Hother; [reflexivity|].
    destruct (decide (d' = d)) as [->|Hd]; [right|left; exact Hd].
    intros ->. apply Hn. auto.
Qed.

Lemma view_set_ticks (n : nat) (w : World) (d s level : string) :
  state_view (set_ticks n w) d s level = state_view w d s level.
Proof. reflexivity. Qed.

Lemma stored_after_write (d s level : string) (st : SubState) (w : World) :
  valid_level level ->
  is_Some (sensor_lookup (device_state_manager w) d s) ->
  stored_state (snd (write_state d s level st w)) d s level = Some st.
Proof.
  intros Hv [ss Hss]. unfold stored_state, write_state, modify_dsm, modify. cbn.
  rewrite sensor_lookup_alter, decide_True by auto. rewrite Hss. cbn.
  apply level_of_set_level_eq, Hv.
Qed.

Lemma view_after_write (d s level d' s' l' : string) (st : SubState) (w : World) :
  (d', s', l') <> (d, s, level) ->
  state_view (snd (write_state d s level st w)) d' s' l' = state_view w d' s' l'.
Proof.
  intros Hne. unfold state_view, stored_state, write_state, modify_dsm, modify. cbn.
  rewrite sensor_lookup_alter.
  destruct (decide (d' = d /\ s' = s)) as [[-> ->]|Hn]; [|reflexivity].
  destruct (sensor_lookup (device_state_manager w) d s) as [ss|]; cbn; [|reflexivity].
  rewrite level_of_set_level_ne by congruence. reflexivity.
Qed.

Lemma update_effect (d s tt : string) (a : bool) (b : option Breach) (w : World) :
  valid_level (lower tt) ->
  let st := state_view w d s (lower tt) in
  let now := clock E (ticks (exec (get_sensor_state E d s) w)) in
  let w' := exec (update_sensor_state E d s tt a b) w in
  stored_state w' d s (lower tt)
    = Some (if a then
              if above_threshold st then st
              else {| above_threshold := true; since_timestamp := Some now; breach := b |}
            else null_state)
  /\ (forall d' s' l', (d', s', l') <> (d, s, lower tt) ->
        state_view w' d' s' l' = state_view w d' s' l').
Proof.
  intros Hv st now w'. subst w'.
  pose proof (stored_after_lookup d s (lower tt) w Hv) as Hst. fold st in Hst.
  rewrite (update_sensor_state_run d s tt a b w Hv _ Hst).
  destruct (after_lookup d s w) as (_ & Hat & _).
  assert (Hwrite : forall st',
    stored_state
      (snd (write_state d s (lower tt) st'
              (set_ticks (S (ticks (exec (get_sensor_state E d s) w)))
                 (exec (get_sensor_state E d s) w)))) d s (lower tt) = Some st'
    /\ (forall d' s' l', (d', s', l') <> (d, s, lower tt) ->
          state_view
            (snd (write_state d s (lower tt) st'
                    (set_ticks (S (ticks (exec (get_sensor_state E d s) w)))
                       (exec (get_sensor_state E d s) w)))) d' s' l'
          = state_view w d' s' l')).
  { intros st'. split.
    - apply stored_after_write; [exact Hv|]. cbn. rewrite Hat. eauto.
    - intros d' s' l' Hne. rewrite view_after_write by exact Hne.
      rewrite view_set_ticks. apply view_after_lookup. }
  destruct a; [destruct (above_threshold st)|]; [|apply Hwrite|apply Hwrite].
  split; [exact Hst|].
  intros d' s' l' _. rewrite view_set_ticks. apply view_after_lookup.
Qed.

(** X1.  [update_sensor_state] with [is_above_threshold = True] on a level
    that is already above writes nothing: the states map, and with it the
    first [since_timestamp] and the first breach, stay as they are, whatever
    breach is passed in. *)
Theorem update_above_keeps_first_crossing (d s tt : string) (b : option Breach) (w : World) :
  valid_level (lower tt) ->
  above_threshold (state_view w d s (lower tt)) = true ->
  states (device_state_manager (exec (update_sensor_state E d s tt true b) w))
  = states (device_state_manager w)
  /\ stored_state (exec (update_sensor_state E d s tt true b) w) d s (lower tt)
     = stored_state w d s (lower tt).
Proof.
  intros Hv Habove.
  assert (Hstored : exists ss, sensor_lookup (device_state_manager w) d s = Some ss).
  { unfold state_view, stored_state in Habove.
    destruct (sensor_lookup (device_state_manager w) d s) as [ss|]; [eauto|discriminate]. }
  destruct Hstored as [ss Hss].
  pose proof (stored_after_lookup d s (lower tt) w Hv) as Hst.
  rewrite (update_sensor_state_run d s tt true b w Hv _ Hst), Habove.
  unfold exec. rewrite (get_sensor_state_stored E d s w ss Hss). cbn.
  split; [reflexivity|]. unfold stored_state, sensor_lookup. reflexivity.
Qed.

(** X2.  [update_sensor_state] with [is_above_threshold = True] on a level
    that is not above yet stores [above_threshold = True], the time of the
    call as [since_timestamp] and the breach passed in; the other level of
    the sensor and every other sensor keep their sub-state. *)
Theorem update_first_crossing_records (d s tt : string) (b : option Breach) (w : World) :
  valid_level (lower tt) ->
  above_threshold (state_view w d s (lower tt)) = false ->
  let now := clock E (ticks (exec (get_sensor_state E d s) w)) in
  let w' := exec (update_sensor_state E d s tt true b) w in
  stored_state w' d s (lower tt)
    = Some {| above_threshold := true; since_timestamp := Some now; breach := b |}
  /\ (forall d' s' l', (d', s', l') <> (d, s, lower tt) ->
        state_view w' d' s' l' = state_view w d' s' l').
Proof.
  intros Hv Hbelow now w'.
  destruct (update_effect d s tt true b w Hv) as [Hat Hother].
  rewrite Hbelow in Hat. split; [exact Hat | exact Hother].
Qed.

(** X3.  [update_sensor_state] with [is_above_threshold = False] stores the
    all-null sub-state for the level, whatever was stored and whatever
    breach is passed in, and changes no other sub-state. *)
Theorem update_below_resets (d s tt : string) (b : option Breach) (w : World) :
  valid_level (lower tt) ->
  let w' := exec (update_sensor_state E d s tt false b) w in
  stored_state w' d s (lower tt) = Some null_state
  /\ (forall d' s' l', (d', s', l') <> (d, s, lower tt) ->
        state_view w' d' s' l' = state_view w d' s' l').
Proof. intros Hv. apply (update_effect d s tt false b w Hv). Qed.

Lemma check_sustained_breach_run (d s tt : string) (dwell : Z) (w : World) :
  valid_level (lower tt) ->
  let w1 := exec (get_sensor_state E d s) w in
  let now := clock E (ticks w1) in
  let w2 := set_ticks (S (ticks w1)) w1 in
  let st := state_view w d s (lower tt) in
  check_sustained_breach E d s tt dwell w
  = (if is_due now dwell st
     then (Ok (true, breach st), snd (write_state d s (lower tt) null_state w2))
     else (Ok (false, None), w2)).
Proof.
  intros Hv w1 now w2 st.
  destruct (after_lookup d s w) as (Hrun & Hat & _). fold w1 in Hrun, Hat.
  pose proof (stored_after_lookup d s (lower tt) w Hv) as Hst. fold w1 st in Hst.
  unfold stored_state in Hst. rewrite Hat in Hst.
  unfold check_sustained_breach.
  rewrite (bind_ok _ _ _ _ _ Hrun).
  rewrite (bind_ok _ _ _ _ _ (time_time_run E w1)).
  rewrite (bind_ok _ _ _ _ _ (subscript_run _ _ _ _ Hst)).
  fold now w2. unfold is_due.
  destruct (above_threshold st); [|reflexivity].
  destruct (since_timestamp st) as [since|]; [|reflexivity].
  cbn [andb]. destruct (py_ge _ _); reflexivity.
Qed.

(** X4.  A sustained breach is reported once: when
    [check_sustained_breach] has answered [(True, breach)], the next call
    for the same sensor and level answers [(False, None)], whatever dwell
    it is asked about, until a new crossing is recorded. *)
Theorem no_refire_after_consumption (d s tt : string) (dwell dwell' : Z)
    (pending : option Breach) (w : World) :
  valid_level (lower tt) ->
  eval (check_sustained_breach E d s tt dwell) w = Ok (true, pending) ->
  eval (check_sustained_breach E d s tt dwell')
       (exec (check_sustained_breach E d s tt dwell) w)
  = Ok (false, None).
Proof.
  intros Hv Hfire. unfold eval, exec in *.
  rewrite (check_sustained_breach_run d s tt dwell w Hv) in Hfire |- *.
  destruct (is_due _ dwell _); [|discriminate]. cbn [snd].
  rewrite (check_sustained_breach_run d s tt dwell' _ Hv).
  destruct (after_lookup d s w) as (_ & Hat & _).
  match goal with
  | |- context [state_view ?w0 d s (lower tt)] =>
      assert (Hnull : state_view w0 d s (lower tt) = null_state)
  end.
  { unfold state_view. rewrite stored_after_write; [reflexivity | exact Hv |].
    cbn. rewrite Hat. eauto. }
  rewrite Hnull. reflexivity.
Qed.

(** X5.  The device-state manager and the rate limiter lowercase the
    severity before anything else: a call with any spelling of the severity
    is the call with its lowercase form. *)
Theorem severity_is_case_insensitive (d s tt : string) :
  (forall a b, update_sensor_state E d s tt a b = update_sensor_state E d s (lower tt) a b)
  /\ (forall dwell,
        check_sustained_breach E d s tt dwell = check_sustained_breach E d s (lower tt) dwell)
  /\ should_send E d s tt = should_send E d s (lower tt).
Proof.
  unfold update_sensor_state, check_sustained_breach, should_send.
  rewrite lower_idempotent. repeat split.
Qed.
End StateTransitions.

Lemma update_above_keeps_first_crossing_witness :
  let E := example_env false 20 Delivered in
  let w := exec (update_sensor_state E "d1" "s1" "yellow" true
                   (Some (example_breach "yellow" 10))) initial_world in
  let w' := exec (update_sensor_state E "d1" "s1" "YELLOW" true None) w in
  valid_level (lower "YELLOW")
  /\ above_threshold (state_view w "d1" "s1" (lower "YELLOW")) = true
  /\ stored_state w' "d1" "s1" (lower "YELLOW") = stored_state w "d1" "s1" (lower "YELLOW").
Proof.
  intros E w w'.
  assert (Hv : valid_level (lower "YELLOW")) by (left; reflexivity).
  assert (Ha : above_threshold (state_view w "d1" "s1" (lower "YELLOW")) = true)
    by (vm_compute; reflexivity).
  split; [exact Hv|]. split; [exact Ha|].
  destruct (update_above_keeps_first_crossing E "d1" "s1" "YELLOW" None w Hv Ha) as [_ H].
  exact H.
Defined.

Lemma update_first_crossing_records_witness :
  let E := example_env false 20 Delivered in
  let b := example_breach "orange" 20 in
  let w' := exec (update_sensor_state E "d1" "s1" "orange" true (Some b)) initial_world in
  valid_level (lower "orange")
  /\ above_threshold (state_view initial_world "d1" "s1" (lower "orange")) = false
  /\ stored_state w' "d1" "s1" (lower "orange")
     = Some {| above_threshold := true;
               since_timestamp := Some (float_of_int 40);
               breach := Some b |}.
Proof.
  intros E b w'.
  assert (Hv : valid_level (lower "orange")) by (right; reflexivity).
  assert (Ha : above_threshold (state_view initial_world "d1" "s1" (lower "orange")) = false)
    by reflexivity.
  split; [exact Hv|]. split; [exact Ha|].
  destruct (update_first_crossing_records E "d1" "s1" "orange" (Some b) initial_world Hv Ha)
    as [H _].
  etransitivity; [exact H | vm_compute; reflexivity].
Defined.

Lemma update_below_resets_witness :
  let E := example_env false 20 Delivered in
  let w := exec (update_sensor_state E "d1" "s1" "yellow" true
                   (Some (example_breach "yellow" 10))) initial_world in
  let w' := exec (update_sensor_state E "d1" "s1" "yellow" false None) w in
  valid_level (lower "yellow")
  /\ stored_state w' "d1" "s1" (lower "yellow") = Some null_state.
Proof.
  intros E w w'.
  assert (Hv : valid_level (lower "yellow")) by (left; reflexivity).
  split; [exact Hv|].
  destruct (update_below_resets E "d1" "s1" "yellow" None w Hv) as [H _].
  exact H.
Defined.

Lemma no_refire_after_consumption_witness :
  let E := example_env false 20 Delivered in
  let b := example_breach "yellow" 10 in
  let w := exec (update_sensor_state E "d1" "s1" "yellow" true (Some b)) initial_world in
  valid_level (lower "yellow")
  /\ eval (check_sustained_breach E "d1" "s1" "yellow" 10) w = Ok (true, Some b)
  /\ eval (check_sustained_breach E "d1" "s1" "yellow" 0)
          (exec (check_sustained_breach E "d1" "s1" "yellow" 10) w)
     = Ok (false, None).
Proof.
  intros E b w.
  assert (Hv : valid_level (lower "yellow")) by (left; reflexivity).
  assert (Hf : eval (check_sustained_breach E "d1" "s1" "yellow" 10) w = Ok (true, Some b))
    by (vm_compute; reflexivity).
  split; [exact Hv|]. split; [exact Hf|].
  apply (no_refire_after_consumption E "d1" "s1" "yellow" 10 0 (Some b) w Hv Hf).
Defined.

(** ** The background sweeps *)

Lemma evict_if_idle_at (now : float) (age : Z) (m : DeviceStateManager) (k : string)
    (stamp : float) :
  last_access m !! k = Some stamp -> is_idle now age stamp = true ->
  states (evict_if_idle now age m k) !! k = None
  /\ last_access (evict_if_idle now age m k) !! k = None.
Proof.
  intros Hk Hidle. unfold evict_if_idle. rewrite Hk.
  unfold is_idle in Hidle. rewrite Hidle. cbn. rewrite !lookup_delete_eq. auto.
Qed.

Lemma evict_if_idle_other (now : float) (age : Z) (m : DeviceStateManager) (k d : string) :
  d <> k \/ (forall stamp, last_access m !! k = Some stamp -> is_idle now age stamp = false) ->
  states (evict_if_idle now age m k) !! d = states m !! d
  /\ last_access (evict_if_idle now age m k) !! d = last_access m !! d.
Proof.
  intros H. unfold evict_if_idle.
  destruct (last_access m !! k) as [stamp|] eqn:Hk; [|auto].
  destruct (py_gt _ _) eqn:Hidle; [|auto].
  destruct H as [Hne | Hfresh].
  - cbn. rewrite !lookup_delete_ne by congruence. auto.
  - specialize (Hfresh stamp eq_refl). unfold is_idle in Hfresh. congruence.
Qed.

Lemma evict_fold (now : float) (age : Z) (keys : list string) (m : DeviceStateManager)
    (d : string) :
  let m' := fold_left (evict_if_idle now age) keys m in
  match last_access m !! d with
  | Some stamp =>
      if bool_decide (d ∈ keys) && is_idle now age stamp
      then states m' !! d = None /\ last_access m' !! d = None
      else states m' !! d = states m !! d /\ last_access m' !! d = Some stamp
  | None => states m' !! d = states m !! d /\ last_access m' !! d = None
  end.
Proof.
  cbv zeta. revert m. induction keys as [|k keys IH]; intros m.
  - cbn [fold_left]. destruct (last_access m !! d); [|auto].
    rewrite bool_decide_eq_false_2 by apply not_elem_of_nil. cbn. auto.
  - cbn [fold_left]. specialize (IH (evict_if_idle now age m k)).
    destruct (last_access m !! d) as [stamp|] eqn:Hd.
    + destruct (decide (d = k /\ is_idle now age stamp = true)) as [[-> Hidle]|Hn].
      * destruct (evict_if_idle_at now age m k stamp Hd Hidle) as [Hs Hl].
        rewrite Hl in IH. rewrite Hs in IH.
        rewrite (bool_decide_eq_true_2 (k ∈ k :: keys)) by left.
        rewrite Hidle. exact IH.
      * destruct (evict_if_idle_other now age m k d) as [Hs Hl].
        { destruct (decide (d = k)) as [->|Hne]; [right|left; exact Hne].
          intros stamp' Hk. rewrite Hd in Hk. injection Hk as <-.
          destruct (is_idle now age stamp); [exfalso; apply Hn; auto | reflexivity]. }
        rewrite Hl, Hd, Hs in IH.
        assert (Heq : bool_decide (d ∈ k :: keys) && is_idle now age stamp
                      = bool_decide (d ∈ keys) && is_idle now age stamp).
        { destruct (is_idle now age stamp) eqn:Hidle; [|rewrite !andb_false_r; reflexivity].
          rewrite !andb_true_r. apply bool_decide_ext. rewrite elem_of_cons.
          split; [intros [->|H]; [exfalso; apply Hn; auto | exact H] | auto]. }
        rewrite Heq. exact IH.
    + destruct (evict_if_idle_other now age m k d) as [Hs Hl].
      { destruct (decide (d = k)) as [->|Hne]; [right|left; exact Hne].
        intros stamp' Hk. congruence. }
      rewrite Hl, Hd, Hs in IH. exact IH.
Qed.

Lemma evict_idle_devices_at (now : float) (age : Z) (m : DeviceStateManager) (d : string) :
  let m' := evict_idle_devices now age m in
  match last_access m !! d with
  | Some stamp =>
      if is_idle now age stamp
      then states m' !! d = None /\ last_access m' !! d = None
      else states m' !! d = states m !! d /\ last_access m' !! d = Some stamp
  | None => states m' !! d = states m !! d /\ last_access m' !! d = None
  end.
Proof.
  cbv zeta. unfold evict_idle_devices.
  pose proof (evict_fold now age (map fst (map_to_list (last_access m))) m d) as H.
  cbv zeta in H.
  destruct (last_access m !! d) as [stamp|] eqn:Hd; [|exact H].
  rewrite bool_decide_eq_true_2 in H; [exact H|].
  apply list_elem_of_In, in_map_iff. exists (d, stamp). split; [reflexivity|].
  apply list_elem_of_In, elem_of_map_to_list, Hd.
Qed.

Lemma tracked_write (m : DeviceStateManager) (f : gmap string SensorState -> gmap string SensorState)
    (d : string) :
  tracked m ->
  tracked {| states := alter f d (states m); last_access := last_access m |}.
Proof.
  intros Ht d' Hs. cbn in *. apply Ht.
  apply lookup_alter_is_Some in Hs. exact Hs.
Qed.

Lemma fold_forget (cond : string * string * string -> float -> bool)
    (step : gmap (string * string * string) float -> string * string * string ->
            gmap (string * string * string) float)
    (keys : list (string * string * string))
    (h : gmap (string * string * string) float) (k : string * string * string) :
  (forall acc key,
     step acc key = match acc !! key with
                    | Some stamp => if cond key stamp then delete key acc else acc
                    | None => acc
                    end) ->
  fold_left step keys h !! k
  = match h !! k with
    | Some stamp => if bool_decide (k ∈ keys) && cond k stamp then None else Some stamp
    | None => None
    end.
Proof.
  intros Hstep. revert h. induction keys as [|key keys IH]; intros h.
  - cbn [fold_left]. destruct (h !! k); [|reflexivity].
    rewrite bool_decide_eq_false_2 by apply not_elem_of_nil. reflexivity.
  - cbn [fold_left]. rewrite IH, Hstep.
    destruct (decide (k = key)) as [->|Hne].
    + rewrite (bool_decide_eq_true_2 (key ∈ key :: keys)) by left.
      destruct (h !! key) as [stamp|] eqn:Hk; [|rewrite Hk; reflexivity].
      destruct (cond key stamp) eqn:Hc.
      * rewrite lookup_delete_eq. reflexivity.
      * rewrite Hk, Hc, andb_false_r. reflexivity.
    + assert (Hmem : bool_decide (k ∈ key :: keys) = bool_decide (k ∈ keys)).
      { apply bool_decide_ext. rewrite elem_of_cons. tauto. }
      rewrite Hmem.
      destruct (h !! key) as [stampk|]; [|reflexivity].
      destruct (cond key stampk); [|reflexivity].
      rewrite lookup_delete_ne by congruence. reflexivity.
Qed.

Lemma delete_keys_lookup {K V} `{Countable K} (keys : list K) (c : gmap K V) (k : K) :
  delete_keys keys c !! k = if bool_decide (k ∈ keys) then None else c !! k.
Proof.
  unfold delete_keys. revert c. induction keys as [|key keys IH]; intros c.
  - cbn. rewrite bool_decide_eq_false_2 by apply not_elem_of_nil. reflexivity.
  - cbn [fold_left]. rewrite IH.
    destruct (decide (k = key)) as [->|Hne].
    + rewrite (bool_decide_eq_true_2 (key ∈ key :: keys)) by left.
      destruct (bool_decide (key ∈ keys)); [reflexivity | apply lookup_delete_eq].
    + assert (Hmem : bool_decide (k ∈ key :: keys) = bool_decide (k ∈ keys)).
      { apply bool_decide_ext. rewrite elem_of_cons. tauto. }
      rewrite Hmem. destruct (bool_decide (k ∈ keys)); [reflexivity|].
      apply lookup_delete_ne. congruence.
Qed.

Lemma expired_keys_elem {K V} `{Countable K} (now : float) (ttl : Z)
    (c : gmap K (V * float)) (k : K) :
  k ∈ expired_keys now ttl c
  <-> exists v stamp, c !! k = Some (v, stamp)
        /\ py_gt (PrimFloat.sub now stamp) (float_of_int ttl) = true.
Proof.
  unfold expired_keys. rewrite list_elem_of_In, in_map_iff. split.
  - intros ([k' [v stamp]] & Hk & Hin). cbn in Hk. subst k'.
    apply filter_In in Hin. destruct Hin as [Hin Hexp]. cbn in Hexp.
    exists v, stamp. split; [|exact Hexp].
    apply elem_of_map_to_list, list_elem_of_In, Hin.
  - intros (v & stamp & Hk & Hexp). exists (k, (v, stamp)). split; [reflexivity|].
    apply filter_In. split; [|exact Hexp].
    apply list_elem_of_In, elem_of_map_to_list, Hk.
Qed.

Lemma sweep_cache_lookup {K V} `{Countable K} (now : float) (ttl : Z)
    (c : gmap K (V * float)) (k : K) :
  delete_keys (expired_keys now ttl c) c !! k
  = match c !! k with
    | Some (v, stamp) =>
        if py_gt (PrimFloat.sub now stamp) (float_of_int ttl) then None
        else Some (v, stamp)
    | None => None
    end.
Proof.
  rewrite delete_keys_lookup.
  destruct (c !! k) as [[v stamp]|] eqn:Hk.
  - destruct (py_gt _ _) eqn:Hexp.
    + rewrite bool_decide_eq_true_2; [reflexivity|].
      apply expired_keys_elem. eauto.
    + rewrite bool_decide_eq_false_2; [reflexivity|].
      rewrite expired_keys_elem. intros (v' & stamp' & Hk' & Hexp').
      rewrite Hk in Hk'. injection Hk' as <- <-. congruence.
  - destruct (bool_decide _); reflexivity.
Qed.

Section SweepProperties.
Variable E : Env.

(** X6.  One pass of the eviction thread of the device-state manager never
    fails and logs nothing.  A device whose last access is more than
    [max_age_seconds] before the time read by the pass loses its states and
    its stamp; every other device keeps both. *)
Theorem cleanup_job_evicts_idle_devices (max_age_seconds cleanup_interval : Z)
    (p : Process) (d : string) :
  let now := clock E (ticks (world p)) in
  let p' := pexec (device_state_cleanup_job E max_age_seconds cleanup_interval) p in
  let m := device_state_manager (world p) in
  let m' := device_state_manager (world p') in
  peval (device_state_cleanup_job E max_age_seconds cleanup_interval) p = Ok tt
  /\ notes p' = notes p
  /\ match last_access m !! d with
     | Some stamp =>
         if is_idle now max_age_seconds stamp
         then states m' !! d = None /\ last_access m' !! d = None
         else states m' !! d = states m !! d /\ last_access m' !! d = Some stamp
     | None => states m' !! d = states m !! d /\ last_access m' !! d = None
     end.
Proof.
  cbv zeta. split; [reflexivity|]. split; [reflexivity|].
  apply (evict_idle_devices_at (clock E (ticks (world p))) max_age_seconds
           (device_state_manager (world p)) d).
Qed.

(** X7.  [_cleanup_old_entries] never fails; it forgets exactly the history
    entries older than twice the timeout of their severity, 3600 s standing
    in for an unknown severity, and keeps every other entry. *)
Theorem cleanup_old_entries_spec (w : World) (key : string * string * string) :
  let now := clock E (ticks w) in
  let timeout := default 3600%Z (BREACH_TIMEOUT_IN_SECONDS (cfg E) !! snd key) in
  let w' := exec (_cleanup_old_entries E) w in
  eval (_cleanup_old_entries E) w = Ok tt
  /\ history w' !! key
     = match history w !! key with
       | Some stamp =>
           if py_gt (PrimFloat.sub now stamp) (float_of_int (timeout * 2)) then None
           else Some stamp
       | None => None
       end.
Proof.
  cbv zeta. split; [reflexivity|].
  unfold exec, _cleanup_old_entries, bind, time_time, modify. cbn.
  rewrite (fold_forget
             (fun key stamp =>
                py_gt (PrimFloat.sub (clock E (ticks w)) stamp)
                  (float_of_int
                     (default 3600%Z (BREACH_TIMEOUT_IN_SECONDS (cfg E) !! snd key) * 2)))).
  - destruct (history w !! key) as [stamp|] eqn:Hk; [|reflexivity].
    rewrite bool_decide_eq_true_2; [reflexivity|].
    apply list_elem_of_In, in_map_iff. exists (key, stamp). split; [reflexivity|].
    apply list_elem_of_In, elem_of_map_to_list, Hk.
  - intros acc [[d s] t]. reflexivity.
Qed.

(** X8.  [cleanup_expired_cache] never fails; it removes from each cache
    exactly the entries older than the cache's time to live at the time it
    reads, and keeps every other entry with its value and timestamp. *)
Theorem cleanup_expired_cache_spec (p : Process) :
  let now := clock E (ticks (world p)) in
  let p' := pexec (cleanup_expired_cache E) p in
  peval (cleanup_expired_cache E) p = Ok tt
  /\ (forall key,
        threshold_cache (caches (world p')) !! key
        = match threshold_cache (caches (world p)) !! key with
          | Some (value, stamp) =>
              if py_gt (PrimFloat.sub now stamp) (float_of_int THRESHOLD_CACHE_TTL)
              then None else Some (value, stamp)
          | None => None
          end)
  /\ (forall key,
        email_cache (caches (world p')) !! key
        = match email_cache (caches (world p)) !! key with
          | Some (value, stamp) =>
              if py_gt (PrimFloat.sub now stamp) (float_of_int EMAIL_CACHE_TTL)
              then None else Some (value, stamp)
          | None => None
          end).
Proof.
  cbv zeta. split; [reflexivity|]. split; intros key; cbn; apply sweep_cache_lookup.
Qed.
End SweepProperties.

(** ** Last-access stamps *)

Section Tracking.
Variable E : Env.

Lemma get_sensor_state_stamps (d s : string) (w : World) :
  let w1 := exec (get_sensor_state E d s) w in
  last_access (device_state_manager w1)
    = <[d := clock E (pred (ticks w1))]> (last_access (device_state_manager w))
  /\ ticks w < ticks w1
  /\ is_Some (states (device_state_manager w1) !! d)
  /\ (forall d', d' <> d ->
        states (device_state_manager w1) !! d' = states (device_state_manager w) !! d').
Proof.
  cbv zeta.
  assert (H : exists w1,
    snd (get_sensor_state E d s w) = w1
    /\ last_access (device_state_manager w1)
       = <[d := clock E (pred (ticks w1))]> (last_access (device_state_manager w))
    /\ ticks w < ticks w1
    /\ is_Some (states (device_state_manager w1) !! d)
    /\ (forall d', d' <> d ->
          states (device_state_manager w1) !! d' = states (device_state_manager w) !! d')).
  { destruct (sensor_lookup (device_state_manager w) d s) as [ss|] eqn:Hl.
    - eexists. split; [rewrite (get_sensor_state_stored E d s w ss Hl); reflexivity|].
      cbn. unfold sensor_lookup in Hl.
      destruct (states (device_state_manager w) !! d) eqn:Hd; [|discriminate].
      split; [reflexivity|]. split; [lia|]. split; [eauto | reflexivity].
    - unfold sensor_lookup in Hl.
      destruct (states (device_state_manager w) !! d) as [sensors|] eqn:Hd.
      + eexists. split.
        * unfold get_sensor_state, stored_sensor_state.
          rewrite bind_run. unfold get_world at 1. cbn beta iota. rewrite Hd.
          unfold bind, ret, get_world, modify_dsm, modify, time_time, subscript, sensor_lookup.
          cbn. rewrite Hd, Hl. cbn.
          rewrite lookup_alter_eq, Hd. cbn. rewrite lookup_insert_eq. reflexivity.
        * cbn. split; [reflexivity|]. split; [lia|].
          split; [rewrite lookup_alter_eq, Hd; cbn; eauto|].
          intros d' Hne. rewrite lookup_alter_ne by congruence. reflexivity.
      + eexists. split.
        * unfold get_sensor_state, stored_sensor_state.
          rewrite bind_run. unfold get_world at 1. cbn beta iota. rewrite Hd.
          unfold bind, ret, get_world, modify_dsm, modify, time_time, subscript, sensor_lookup.
          cbn. rewrite lookup_insert_eq. cbn. rewrite lookup_empty. cbn.
          rewrite lookup_alter_eq, lookup_insert_eq. cbn. rewrite lookup_insert_eq.
          reflexivity.
        * cbn. split; [apply insert_insert_eq|]. split; [lia|].
          split; [rewrite lookup_alter_eq, lookup_insert_eq; cbn; eauto|].
          intros d' Hne. rewrite lookup_alter_ne by congruence.
          rewrite lookup_insert_ne by congruence. reflexivity. }
  destruct H as (w1 & <- & H). exact H.
Qed.

Lemma tracked_get_sensor_state (d s : string) (w : World) :
  tracked (device_state_manager w) ->
  tracked (device_state_manager (exec (get_sensor_state E d s) w)).
Proof.
  intros Ht d' Hs.
  destruct (get_sensor_state_stamps d s w) as (Hla & _ & _ & Hother).
  rewrite Hla. destruct (decide (d' = d)) as [->|Hne].
  - rewrite lookup_insert_eq. eauto.
  - rewrite lookup_insert_ne by congruence. apply Ht.
    rewrite <- Hother by exact Hne. exact Hs.
Qed.

Lemma tracked_update_sensor_state (d s tt : string) (a : bool) (b : option Breach) (w : World) :
  tracked (device_state_manager w) ->
  tracked (device_state_manager (exec (update_sensor_state E d s tt a b) w)).
Proof.
  intros Ht. unfold exec, update_sensor_state.
  destruct (negb _) eqn:Hv; [exact Ht|].
  pose proof (tracked_get_sensor_state d s w Ht) as Ht1.
  destruct (get_sensor_state_run E d s w) as (w1 & Hrun & _).
  unfold exec in Ht1. rewrite Hrun in Ht1. cbn in Ht1.
  rewrite (bind_ok _ _ _ _ _ Hrun).
  destruct (level_of_valid (lower tt)
              (default fresh_sensor_state (sensor_lookup (device_state_manager w) d s)) Hv)
    as (st & Hst).
  rewrite (bind_ok _ _ _ _ _ (time_time_run E w1)).
  rewrite (bind_ok _ _ _ _ _ (subscript_run _ _ _ _ Hst)).
  rewrite snd_bind_readonly by (intros; apply stored_sensor_state_readonly).
  destruct a.
  - destruct (above_threshold st); cbn; [exact Ht1|]. apply tracked_write, Ht1.
  - cbn. apply tracked_write, Ht1.
Qed.

Lemma tracked_check_sustained_breach (d s tt : string) (dwell : Z) (w : World) :
  tracked (device_state_manager w) ->
  tracked (device_state_manager (exec (check_sustained_breach E d s tt dwell) w)).
Proof.
  intros Ht. unfold exec, check_sustained_breach.
  pose proof (tracked_get_sensor_state d s w Ht) as Ht1.
  destruct (get_sensor_state_run E d s w) as (w1 & Hrun & _).
  unfold exec in Ht1. rewrite Hrun in Ht1. cbn in Ht1.
  rewrite (bind_ok _ _ _ _ _ Hrun).
  unfold bind, time_time, subscript, ret.
  destruct (level_of _ _) as [[ab si br]|]; cbn; [|exact Ht1].
  destruct ab; cbn; [|exact Ht1].
  destruct si as [since|]; cbn; [|exact Ht1].
  destruct (PrimFloat.leb _ _); cbn; [|exact Ht1].
  apply tracked_write, Ht1.
Qed.

Lemma tracked_cleanup (age interval : Z) (p : Process) :
  tracked (device_state_manager (world p)) ->
  tracked (device_state_manager (world (pexec (device_state_cleanup_job E age interval) p))).
Proof.
  intros Ht d Hs.
  pose proof (evict_idle_devices_at (clock E (ticks (world p))) age
                (device_state_manager (world p)) d) as H.
  cbv zeta in H.
  change (device_state_manager (world (pexec (device_state_cleanup_job E age interval) p)))
    with (evict_idle_devices (clock E (ticks (world p))) age
            (device_state_manager (world p))) in Hs |- *.
  destruct (last_access (device_state_manager (world p)) !! d) as [stamp|] eqn:Hd.
  - destruct (is_idle _ _ _).
    + destruct H as [H _]. rewrite H in Hs. destruct Hs; discriminate.
    + destruct H as [_ H]. rewrite H. eauto.
  - destruct H as [H _]. rewrite H in Hs. apply Ht in Hs. rewrite Hd in Hs.
    destruct Hs; discriminate.
Qed.

(** X9.  Every device that has states also has a last-access stamp, so the
    eviction thread can reach it: the lookup, the update, the
    sustained-breach check and the eviction pass all keep this. *)
Theorem stored_devices_stay_tracked (d s : string) (w : World) :
  tracked (device_state_manager w) ->
  tracked (device_state_manager (exec (get_sensor_state E d s) w))
  /\ (forall tt a b,
        tracked (device_state_manager (exec (update_sensor_state E d s tt a b) w)))
  /\ (forall tt dwell,
        tracked (device_state_manager (exec (check_sustained_breach E d s tt dwell) w)))
  /\ (forall age interval p, world p = w ->
        tracked (device_state_manager
                   (world (pexec (device_state_cleanup_job E age interval) p)))).
Proof.
  intros Ht. split; [|split; [|split]].
  - apply tracked_get_sensor_state, Ht.
  - intros. apply tracked_update_sensor_state, Ht.
  - intros. apply tracked_check_sustained_breach, Ht.
  - intros age interval p <-. apply tracked_cleanup, Ht.
Qed.

(** X10.  [get_sensor_state] never fails.  It returns the stored state of the
    sensor, or the all-null state when nothing is stored, and leaves exactly
    that state stored for the sensor; no other sensor's state changes.  The
    device's last-access stamp is set to the time read by the call, and the
    clock has been read. *)
Theorem get_sensor_state_spec (d s : string) (w : World) :
  let r := get_sensor_state E d s w in
  let known := sensor_lookup (device_state_manager w) d s in
  fst r = Ok (default fresh_sensor_state known)
  /\ sensor_lookup (device_state_manager (snd r)) d s
     = Some (default fresh_sensor_state known)
  /\ (forall d' s', d' <> d \/ s' <> s ->
        sensor_lookup (device_state_manager (snd r)) d' s'
        = sensor_lookup (device_state_manager w) d' s')
  /\ last_access (device_state_manager (snd r))
     = <[d := clock E (pred (ticks (snd r)))]> (last_access (device_state_manager w))
  /\ ticks w < ticks (snd r).
Proof.
  cbv zeta.
  destruct (after_lookup E d s w) as (Hrun & Hat & Hother).
  destruct (get_sensor_state_stamps d s w) as (Hla & Hticks & _).
  unfold exec in *. rewrite Hrun in *. cbn [fst snd] in *.
  split; [reflexivity|]. split; [exact Hat|]. split; [exact Hother|].
  split; [exact Hla | exact Hticks].
Qed.
End Tracking.

Lemma stored_devices_stay_tracked_witness :
  let E := example_env false 20 Delivered in
  tracked (device_state_manager initial_world)
  /\ tracked (device_state_manager (exec (get_sensor_state E "d1" "s1") initial_world)).
Proof.
  intros E.
  assert (Ht : tracked (device_state_manager initial_world)).
  { intros d [x Hx]. cbn in Hx. rewrite lookup_empty in Hx. discriminate. }
  split; [exact Ht|].
  destruct (stored_devices_stay_tracked E "d1" "s1" initial_world Ht) as [H _].
  exact H.
Defined.

(** ** The classifier below the red threshold *)

Global Instance same_outside_dsm_preorder : PreOrder same_outside_dsm.
Proof.
  split.
  - intros w. repeat split.
  - intros a b c (H1 & H2 & H3 & H4 & H5 & H6) (G1 & G2 & G3 & G4 & G5 & G6).
    unfold same_outside_dsm. repeat split; congruence.
Qed.

Ltac same_outside := unfold same_outside_dsm; cbn; tauto.

Global Instance queues_grow_preorder : PreOrder queues_grow.
Proof.
  split.
  - intros w q. exists []. split; [symmetry; apply app_nil_r|]. split; [constructor | auto].
  - intros a b c H1 H2 q.
    destruct (H1 q) as (n1 & E1 & F1 & B1). destruct (H2 q) as (n2 & E2 & F2 & B2).
    exists (n1 ++ n2)%list. split; [rewrite E2, E1; symmetry; apply app_assoc|].
    split; [apply Forall_app; auto | auto].
Qed.

Lemma queues_grow_same (w w' : World) :
  queue_manager w' = queue_manager w -> queues_grow w w'.
Proof.
  intros H q. exists []. rewrite H. split; [symmetry; apply app_nil_r|].
  split; [constructor | auto].
Qed.

Ltac queues_same := apply queues_grow_same; reflexivity.

Lemma state_view_same_dsm (w w' : World) (d s l : string) :
  device_state_manager w' = device_state_manager w ->
  state_view w' d s l = state_view w d s l.
Proof. intros H. unfold state_view, stored_state. rewrite H. reflexivity. Qed.

Section Ladder.
Variable E : Env.

Lemma frame_get_sensor_state (d s : string) :
  preserves same_outside_dsm (get_sensor_state E d s).
Proof.
  intros w. destruct (get_sensor_state_run E d s w) as (w' & Hrun & _ & _ & H).
  rewrite Hrun. exact H.
Qed.

Lemma frame_update_sensor_state (d s tt : string) (a : bool) (b : option Breach) :
  preserves same_outside_dsm (update_sensor_state E d s tt a b).
Proof.
  pose proof frame_get_sensor_state.
  unfold update_sensor_state, write_state, stored_sensor_state. cbv zeta.
  frame same_outside.
Qed.

Lemma frame_check_sustained_breach (d s tt : string) (dwell : Z) :
  preserves same_outside_dsm (check_sustained_breach E d s tt dwell).
Proof.
  pose proof frame_get_sensor_state.
  unfold check_sustained_breach, write_state. cbv zeta.
  frame same_outside.
Qed.

(** A valid level never makes [update_sensor_state] fail. *)
Lemma update_sensor_state_ok (d s tt : string) (a : bool) (b : option Breach) (w : World) :
  valid_level (lower tt) ->
  exists ss, fst (update_sensor_state E d s tt a b w) = Ok ss.
Proof.
  intros Hv.
  destruct (after_lookup E d s w) as (Hrun & Hat & _).
  pose proof (stored_after_lookup E d s (lower tt) w Hv) as Hst.
  unfold stored_state in Hst. rewrite Hat in Hst.
  unfold update_sensor_state. rewrite (valid_level_eqb _ Hv).
  rewrite (bind_ok _ _ _ _ _ Hrun).
  rewrite (bind_ok _ _ _ _ _ (time_time_run E _)).
  rewrite (bind_ok _ _ _ _ _ (subscript_run _ _ _ _ Hst)).
  set (w2 := set_ticks _ _).
  assert (Hlook : forall st, exists ss,
            sensor_lookup (device_state_manager (snd (write_state d s (lower tt) st w2))) d s
            = Some ss).
  { intros st. unfold write_state, modify_dsm, modify. cbn.
    rewrite sensor_lookup_alter, decide_True by auto. rewrite Hat. cbn. eauto. }
  assert (Hfin : forall w3, (exists ss, sensor_lookup (device_state_manager w3) d s = Some ss) ->
            exists ss, fst (stored_sensor_state d s w3) = Ok ss).
  { intros w3 [ss Hss]. exists ss. unfold stored_sensor_state, bind, get_world, subscript.
    rewrite Hss. reflexivity. }
  destruct a; [destruct (above_threshold _); cbn [negb]|].
  - unfold bind at 1. cbn [ret]. apply Hfin. subst w2. cbn. rewrite Hat. eauto.
  - unfold bind at 1.
    destruct (write_state d s (lower tt) _ w2) as [r w3] eqn:Hw.
    assert (r = Ok ()) by (unfold write_state, modify_dsm, modify in Hw; congruence).
    subst r. apply Hfin. specialize (Hlook {| above_threshold := true;
      since_timestamp := Some (clock E (ticks (exec (get_sensor_state E d s) w)));
      breach := b |}). rewrite Hw in Hlook. exact Hlook.
  - unfold bind at 1.
    destruct (write_state d s (lower tt) _ w2) as [r w3] eqn:Hw.
    assert (r = Ok ()) by (unfold write_state, modify_dsm, modify in Hw; congruence).
    subst r. apply Hfin. specialize (Hlook null_state). rewrite Hw in Hlook. exact Hlook.
Qed.

(** The ladder a well-formed reading reaches once its thresholds are known. *)
Lemma check_reading_ladder (d ts : string) (cq wq : QueueRef) (r : Reading)
    (sid : string) (raw : pyval) (x y o red : float) (w w1 : World) :
  r_sensor_id r = Some sid ->
  r_value r = Some raw ->
  py_float E raw w = (Ok x, w) ->
  get_thresholds E d sid w = (Ok (y, o, red), w1) ->
  check_reading E d ts cq wq r w
  = (if py_ge x red then
       bind (make_breach_object E d r ts "red" red) (fun b =>
         try_except
           (bind (put_nowait cq (Some b))
              (fun _ => logger INFO (MsgRedBreachDetected d sid x)))
           (fun e => logger ERROR (MsgFailedToQueueBreach "red" e)))
     else if py_ge x o then
       sustained_branch E d r sid ts "orange" o (ORANGE_SUSTENANCE_PERIOD (cfg E)) wq
     else if py_ge x y then
       sustained_branch E d r sid ts "yellow" y (YELLOW_SUSTENANCE_PERIOD (cfg E)) wq
     else
       bind (update_sensor_state E d sid "yellow" false None) (fun _ =>
         bind (update_sensor_state E d sid "orange" false None) (fun _ => ret ()))) w1.
Proof.
  intros Hsid Hval Hfloat Hth. unfold check_reading.
  rewrite (bind_ok _ _ _ _ _ (subscript_run _ _ _ w Hsid)).
  rewrite (bind_ok _ _ _ _ _ (subscript_run _ _ _ w Hval)).
  rewrite (bind_ok _ _ _ _ _ Hfloat).
  erewrite (bind_ok _ _ w w1);
    [|apply try_except_ok; rewrite (bind_ok _ _ _ _ _ Hth); reflexivity].
  reflexivity.
Qed.

Lemma update_then (d s tt : string) (a : bool) (b : option Breach) {B} (k : SensorState -> M B)
    (w : World) :
  valid_level (lower tt) ->
  exists ss, bind (update_sensor_state E d s tt a b) k w
             = k ss (exec (update_sensor_state E d s tt a b) w).
Proof.
  intros Hv. destruct (update_sensor_state_ok d s tt a b w Hv) as [ss Hss].
  exists ss. unfold bind, exec.
  destruct (update_sensor_state E d s tt a b w) as [r w']. cbn in Hss. subst r. reflexivity.
Qed.

(** X11.  A reading below the yellow, the orange and the red threshold
    resets both levels of its sensor to the all-null sub-state, changes the
    state of no other sensor and puts nothing on either queue. *)
Theorem below_thresholds_resets_both (d ts : string) (cq wq : QueueRef) (r : Reading)
    (sid : string) (raw : pyval) (x y o red : float) (w w1 : World) :
  r_sensor_id r = Some sid ->
  r_value r = Some raw ->
  py_float E raw w = (Ok x, w) ->
  get_thresholds E d sid w = (Ok (y, o, red), w1) ->
  py_ge x red = false -> py_ge x o = false -> py_ge x y = false ->
  let run := check_reading E d ts cq wq r w in
  fst run = Ok ()
  /\ stored_state (snd run) d sid "yellow" = Some null_state
  /\ stored_state (snd run) d sid "orange" = Some null_state
  /\ (forall d' s' l', (d', s') <> (d, sid) ->
        state_view (snd run) d' s' l' = state_view w d' s' l')
  /\ queue_manager (snd run) = queue_manager w.
Proof.
  intros Hsid Hval Hfloat Hth Hr Ho Hy run. subst run.
  rewrite (check_reading_ladder d ts cq wq r sid raw x y o red w w1 Hsid Hval Hfloat Hth).
  rewrite Hr, Ho, Hy.
  assert (Hvy : valid_level (lower "yellow")) by (left; reflexivity).
  assert (Hvo : valid_level (lower "orange")) by (right; reflexivity).
  destruct (update_then d sid "yellow" false None
              (fun _ => bind (update_sensor_state E d sid "orange" false None)
                          (fun _ => ret ())) w1 Hvy) as [ss1 ->].
  set (w2 := exec (update_sensor_state E d sid "yellow" false None) w1).
  destruct (update_then d sid "orange" false None (fun _ => ret ()) w2 Hvo) as [ss2 ->].
  set (w3 := exec (update_sensor_state E d sid "orange" false None) w2).
  cbn [ret fst snd].
  destruct (update_effect E d sid "yellow" false None w1 Hvy) as [Hy2 Hoth2].
  destruct (update_effect E d sid "orange" false None w2 Hvo) as [Ho3 Hoth3].
  fold w2 in Hy2, Hoth2. fold w3 in Ho3, Hoth3.
  destruct (get_thresholds_frame E d sid w) as [Hdsm Hq]. rewrite Hth in Hdsm, Hq.
  cbn [snd] in Hdsm, Hq.
  split; [reflexivity|]. split; [|split; [exact Ho3|split]].
  - specialize (Hoth3 d sid "yellow").
    unfold state_view in Hoth3. change (lower "yellow") with "yellow" in Hy2.
    rewrite Hy2 in Hoth3. cbn in Hoth3.
    assert (Hs : exists st, stored_state w3 d sid "yellow" = Some st).
    { unfold stored_state in Ho3 |- *.
      destruct (sensor_lookup (device_state_manager w3) d sid); [eauto|discriminate]. }
    destruct Hs as [st Hs]. rewrite Hs in Hoth3 |- *. cbn in Hoth3.
    rewrite Hoth3; [reflexivity|]. intros [= ].
  - intros d' s' l' Hne.
    rewrite Hoth3 by congruence. rewrite Hoth2 by congruence.
    apply state_view_same_dsm, Hdsm.
  - pose proof (frame_update_sensor_state d sid "orange" false None w2) as (_ & _ & H3 & _).
    pose proof (frame_update_sensor_state d sid "yellow" false None w1) as (_ & _ & H2 & _).
    fold (exec (update_sensor_state E d sid "orange" false None) w2) in H3.
    fold (exec (update_sensor_state E d sid "yellow" false None) w1) in H2.
    fold w2 in H2. fold w3 in H3. congruence.
Qed.

Lemma make_breach_object_run (d ts level : string) (th : float) (r : Reading)
    (sid stype : string) (raw : pyval) (w : World) :
  r_sensor_id r = Some sid ->
  r_sensor_type r = Some stype ->
  r_value r = Some raw ->
  make_breach_object E d r ts level th w
  = (Ok (breach_snapshot E d sid stype raw ts level th), w).
Proof.
  intros Hsid Htype Hval. unfold make_breach_object, breach_snapshot.
  destruct (get_entity_names E d) as [[factory zone] machine].
  unfold bind, subscript, ret. rewrite Hsid, Htype, Hval. reflexivity.
Qed.

Lemma put_with_log (q : QueueRef) (item : option Breach) (ok_msg : LogMsg)
    (err : exn -> LogMsg) (w : World) :
  let run := try_except
               (bind (put_nowait q item) (fun _ => logger INFO ok_msg))
               (fun e => logger ERROR (err e)) w in
  fst run = Ok ()
  /\ device_state_manager (snd run) = device_state_manager w
  /\ (forall q', q' <> q ->
        queue_of q' (queue_manager (snd run)) = queue_of q' (queue_manager w))
  /\ (if is_full (queue_of q (queue_manager w))
      then queue_of q (queue_manager (snd run)) = queue_of q (queue_manager w)
           /\ log (snd run) = (log w ++ [Logged ERROR (err Full)])%list
      else queue_of q (queue_manager (snd run))
           = (queue_of q (queue_manager w) ++ [item])%list
           /\ log (snd run) = (log w ++ [Logged INFO ok_msg])%list).
Proof.
  cbv zeta. unfold put_nowait, logger. unfold try_except, bind, get_world, modify, raise.
  cbv beta iota.
  destruct (is_full (queue_of q (queue_manager w))) eqn:Hfull; cbn.
  - repeat split.
  - split; [reflexivity|]. split; [reflexivity|]. split.
    + intros q' Hne. destruct q', q; try reflexivity; congruence.
    + destruct q; split; reflexivity.
Qed.

(** The clock is read once by a lookup of a known device and twice by
    the lookup that creates the device. *)
Lemma ticks_after_lookup (d s : string) (w : World) :
  ticks (exec (get_sensor_state E d s) w) = ticks w + lookup_clock_reads w d.
Proof.
  unfold lookup_clock_reads.
  destruct (sensor_lookup (device_state_manager w) d s) as [ss|] eqn:Hl.
  - unfold exec. rewrite (get_sensor_state_stored E d s w ss Hl). cbn.
    unfold sensor_lookup in Hl.
    destruct (states (device_state_manager w) !! d); [lia | discriminate].
  - unfold sensor_lookup in Hl.
    destruct (states (device_state_manager w) !! d) as [sensors|] eqn:Hd.
    + assert (H : exists w1, snd (get_sensor_state E d s w) = w1 /\ ticks w1 = ticks w + 1).
      { eexists. split.
        - unfold get_sensor_state, stored_sensor_state.
          rewrite bind_run. unfold get_world at 1. cbn beta iota. rewrite Hd.
          unfold bind, ret, get_world, modify_dsm, modify, time_time, subscript, sensor_lookup.
          cbn. rewrite Hd, Hl. cbn.
          rewrite lookup_alter_eq, Hd. cbn. rewrite lookup_insert_eq. reflexivity.
        - cbn. lia. }
      destruct H as (w1 & <- & H). exact H.
    + assert (H : exists w1, snd (get_sensor_state E d s w) = w1 /\ ticks w1 = ticks w + 2).
      { eexists. split.
        - unfold get_sensor_state, stored_sensor_state.
          rewrite bind_run. unfold get_world at 1. cbn beta iota. rewrite Hd.
          unfold bind, ret, get_world, modify_dsm, modify, time_time, subscript, sensor_lookup.
          cbn. rewrite lookup_insert_eq. cbn. rewrite lookup_empty. cbn.
          rewrite lookup_alter_eq, lookup_insert_eq. cbn. rewrite lookup_insert_eq.
          reflexivity.
        - cbn. lia. }
      destruct H as (w1 & <- & H). exact H.
Qed.

Lemma after_update_sensor_state (d s tt : string) (a : bool) (b : option Breach)
    (w : World) :
  valid_level (lower tt) ->
  let w' := exec (update_sensor_state E d s tt a b) w in
  ticks w' = ticks w + lookup_clock_reads w d + 1
  /\ lookup_clock_reads w' d = 1.
Proof.
  intros Hv w'. subst w'.
  pose proof (stored_after_lookup E d s (lower tt) w Hv) as Hst.
  rewrite (update_sensor_state_run E d s tt a b w Hv _ Hst).
  pose proof (ticks_after_lookup d s w) as Ht.
  destruct (get_sensor_state_stamps E d s w) as (_ & _ & [sensors Hknown] & _).
  assert (Hwrite : forall st w0,
            ticks (snd (write_state d s (lower tt) st w0)) = ticks w0
            /\ (is_Some (states (device_state_manager w0) !! d) ->
                is_Some (states (device_state_manager (snd (write_state d s (lower tt) st w0)))
                           !! d))).
  { intros st w0. split; [reflexivity|]. intros [x Hx].
    unfold write_state, modify_dsm, modify. cbn. rewrite lookup_alter_eq, Hx. cbn. eauto. }
  unfold lookup_clock_reads at 2.
  destruct a; [destruct (above_threshold _)|].
  - cbn [ticks set_ticks device_state_manager]. rewrite Hknown. split; [lia | reflexivity].
  - destruct (Hwrite {| above_threshold := true;
                        since_timestamp :=
                          Some (clock E (ticks (exec (get_sensor_state E d s) w)));
                        breach := b |}
                     (set_ticks (S (ticks (exec (get_sensor_state E d s) w)))
                        (exec (get_sensor_state E d s) w))) as [Hticks Hsome].
    rewrite Hticks. destruct Hsome as [x ->]; [cbn; eauto|]. cbn. split; [lia | reflexivity].
  - destruct (Hwrite null_state
                     (set_ticks (S (ticks (exec (get_sensor_state E d s) w)))
                        (exec (get_sensor_state E d s) w))) as [Hticks Hsome].
    rewrite Hticks. destruct Hsome as [x ->]; [cbn; eauto|]. cbn. split; [lia | reflexivity].
Qed.

(** The orange and the yellow branch, from the state in which the
    thresholds are known.  The level is observed at the first clock read
    after the lookup; the dwell is checked against the second read after
    that. *)
Lemma sustained_branch_effect (d ts level : string) (th : float) (dwell : Z)
    (wq : QueueRef) (r : Reading) (sid stype : string) (raw : pyval) (w : World) :
  r_sensor_id r = Some sid ->
  r_sensor_type r = Some stype ->
  r_value r = Some raw ->
  valid_level (lower level) ->
  let b := breach_snapshot E d sid stype raw ts level th in
  let before := state_view w d sid (lower level) in
  let t := ticks w + lookup_clock_reads w d in
  let observed :=
    if above_threshold before then before
    else {| above_threshold := true; since_timestamp := Some (clock E t);
            breach := Some b |} in
  let run := sustained_branch E d r sid ts level th dwell wq w in
  let queue_before := queue_of wq (queue_manager w) in
  let queue_after := queue_of wq (queue_manager (snd run)) in
  fst run = Ok ()
  /\ (forall d' s' l', (d', s', l') <> (d, sid, lower level) ->
        state_view (snd run) d' s' l' = state_view w d' s' l')
  /\ (forall q, q <> wq ->
        queue_of q (queue_manager (snd run)) = queue_of q (queue_manager w))
  /\ (if is_due (clock E (t + 2)) dwell observed then
        stored_state (snd run) d sid (lower level) = Some null_state
        /\ match breach observed with
           | Some pending =>
               if is_full queue_before then
                 queue_after = queue_before
                 /\ log (snd run)
                    = (log w ++ [Logged ERROR (MsgFailedToQueueBreach level Full)])%list
               else
                 queue_after = (queue_before ++ [Some pending])%list
                 /\ log (snd run)
                    = (log w ++ [Logged INFO (MsgSustainedBreachDetected level d sid)])%list
           | None => queue_after = queue_before /\ log (snd run) = log w
           end
      else
        stored_state (snd run) d sid (lower level) = Some observed
        /\ queue_after = queue_before
        /\ log (snd run) = log w).
Proof.
  intros Hsid Htype Hval Hv b before t observed run queue_before queue_after.
  subst queue_after queue_before.
  set (w2 := exec (update_sensor_state E d sid level true (Some b)) w).
  destruct (update_effect E d sid level true (Some b) w Hv) as [Hat2 Hoth2].
  fold w2 before in Hat2, Hoth2.
  rewrite (ticks_after_lookup d sid w) in Hat2. fold t observed in Hat2.
  pose proof (frame_update_sensor_state d sid level true (Some b) w)
    as (_ & _ & Hq2 & _ & _ & Hl2).
  fold (exec (update_sensor_state E d sid level true (Some b)) w) in Hq2, Hl2.
  fold w2 in Hq2, Hl2.
  assert (Hview2 : state_view w2 d sid (lower level) = observed)
    by (unfold state_view; rewrite Hat2; reflexivity).
  destruct (after_update_sensor_state d sid level true (Some b) w Hv) as [Ht2 Hr2].
  fold w2 t in Ht2, Hr2.
  assert (Hcheck : ticks (exec (get_sensor_state E d sid) w2) = t + 2)
    by (rewrite (ticks_after_lookup d sid w2), Ht2, Hr2; lia).
  set (w3 := set_ticks (S (ticks (exec (get_sensor_state E d sid) w2)))
                       (exec (get_sensor_state E d sid) w2)).
  assert (Hat3 : stored_state w3 d sid (lower level) = Some observed).
  { subst w3. unfold stored_state. cbn [device_state_manager set_ticks].
    fold (stored_state (exec (get_sensor_state E d sid) w2) d sid (lower level)).
    rewrite (stored_after_lookup E d sid (lower level) w2 Hv), Hview2. reflexivity. }
  assert (Hoth3 : forall d' s' l', state_view w3 d' s' l' = state_view w2 d' s' l').
  { intros. subst w3. rewrite view_set_ticks. apply view_after_lookup. }
  assert (Hq3 : queue_manager w3 = queue_manager w2 /\ log w3 = log w2).
  { subst w3. cbn [queue_manager log set_ticks].
    pose proof (frame_get_sensor_state d sid w2) as (_ & _ & H & _ & _ & H'). auto. }
  destruct Hq3 as [Hq3 Hl3].
  set (w4 := snd (write_state d sid (lower level) null_state w3)).
  assert (Hat4 : stored_state w4 d sid (lower level) = Some null_state).
  { subst w4. apply stored_after_write; [exact Hv|].
    unfold stored_state in Hat3.
    destruct (sensor_lookup (device_state_manager w3) d sid); [eauto|discriminate]. }
  assert (Hoth4 : forall d' s' l', (d', s', l') <> (d, sid, lower level) ->
            state_view w4 d' s' l' = state_view w d' s' l').
  { intros d' s' l' Hne. subst w4. rewrite view_after_write by exact Hne.
    rewrite Hoth3. apply Hoth2, Hne. }
  assert (Hq4 : queue_manager w4 = queue_manager w).
  { transitivity (queue_manager w3); [reflexivity|]. rewrite Hq3. exact Hq2. }
  assert (Hl4 : log w4 = log w).
  { transitivity (log w3); [reflexivity|]. rewrite Hl3. exact Hl2. }
  assert (Hrun : run
    = if is_due (clock E (t + 2)) dwell observed
      then match breach observed with
           | Some pb =>
               try_except
                 (bind (put_nowait wq (Some pb))
                    (fun _ => logger INFO (MsgSustainedBreachDetected level d sid)))
                 (fun e => logger ERROR (MsgFailedToQueueBreach level e)) w4
           | None => (Ok (), w4)
           end
      else (Ok (), w3)).
  { subst run. unfold sustained_branch.
    rewrite (bind_ok _ _ _ _ _ (make_breach_object_run d ts level th r sid stype raw w
                                  Hsid Htype Hval)).
    fold b.
    match goal with
    | |- context [bind (update_sensor_state E d sid level true (Some b)) ?k w] =>
        destruct (update_then d sid level true (Some b) k w Hv) as [ss ->]
    end.
    fold w2. unfold bind at 1.
    rewrite (check_sustained_breach_run E d sid level dwell w2 Hv). rewrite Hview2.
    fold w3. fold w4. rewrite Hcheck.
    destruct (is_due _ dwell observed); [|reflexivity].
    destruct (breach observed); reflexivity. }
  clearbody run. subst run.
  destruct (is_due _ dwell observed).
  - (* the dwell is reached *)
    destruct (breach observed) as [pb|].
    + destruct (put_with_log wq (Some pb)
                  (MsgSustainedBreachDetected level d sid)
                  (fun e => MsgFailedToQueueBreach level e) w4)
        as (Hres & Hdsm & Hqo & Hqw).
      split; [exact Hres|]. split; [|split; [|split]].
      * intros d' s' l' Hne.
        etransitivity; [exact (state_view_same_dsm _ _ _ _ _ Hdsm) | apply Hoth4, Hne].
      * intros q Hne.
        etransitivity; [exact (Hqo q Hne) | rewrite Hq4; reflexivity].
      * etransitivity; [|exact Hat4].
        unfold stored_state. rewrite Hdsm. reflexivity.
      * rewrite Hq4, Hl4 in Hqw. exact Hqw.
    + cbn [fst snd]. split; [reflexivity|]. split; [exact Hoth4|]. split.
      * intros q _. rewrite Hq4. reflexivity.
      * split; [exact Hat4|]. split; [rewrite Hq4; reflexivity | exact Hl4].
  - (* not yet *)
    cbn [fst snd]. split; [reflexivity|]. split; [|split].
    + intros d' s' l' Hne. rewrite Hoth3. apply Hoth2, Hne.
    + intros q _. rewrite Hq3, Hq2. reflexivity.
    + split; [exact Hat3|]. split; [rewrite Hq3, Hq2; reflexivity|].
      rewrite Hl3. exact Hl2.
Qed.

(** X12.  A reading in the orange band ([orange <= value < red]) or in the
    yellow band ([yellow <= value < orange]) touches the sub-state of its own
    level only, and no queue but the warning queue.  The level is observed
    as it was if it was above already, and otherwise as above since the
    first clock read after the lookup, with the breach of this reading
    pending.  The dwell of the level is checked at the second clock read after
    that.  If it has passed, the level is cleared, and the pending breach of
    the observed state goes to the tail of the warning queue, with the
    detection logged, when the queue has room; it is dropped, with the
    failure logged, when the queue is full; and nothing is queued or logged
    when the observed state holds no breach.  If the dwell has not passed,
    the observed state is what is stored, and queue and log are as before. *)
Theorem warning_band_touches_one_level (d ts : string) (cq wq : QueueRef) (r : Reading)
    (sid stype : string) (raw : pyval) (x y o red : float) (w w1 : World)
    (level : string) (th : float) (dwell : Z) :
  r_sensor_id r = Some sid ->
  r_sensor_type r = Some stype ->
  r_value r = Some raw ->
  py_float E raw w = (Ok x, w) ->
  get_thresholds E d sid w = (Ok (y, o, red), w1) ->
  py_ge x red = false ->
  (level = "orange" /\ th = o /\ dwell = ORANGE_SUSTENANCE_PERIOD (cfg E)
   /\ py_ge x o = true)
  \/ (level = "yellow" /\ th = y /\ dwell = YELLOW_SUSTENANCE_PERIOD (cfg E)
      /\ py_ge x o = false /\ py_ge x y = true) ->
  let b := breach_snapshot E d sid stype raw ts level th in
  let before := state_view w d sid level in
  let t := ticks w1 + lookup_clock_reads w d in
  let observed :=
    if above_threshold before then before
    else {| above_threshold := true; since_timestamp := Some (clock E t);
            breach := Some b |} in
  let run := check_reading E d ts cq wq r w in
  let queue_before := queue_of wq (queue_manager w) in
  let queue_after := queue_of wq (queue_manager (snd run)) in
  fst run = Ok ()
  /\ (forall d' s' l', (d', s', l') <> (d, sid, level) ->
        state_view (snd run) d' s' l' = state_view w d' s' l')
  /\ (forall q, q <> wq ->
        queue_of q (queue_manager (snd run)) = queue_of q (queue_manager w))
  /\ (if is_due (clock E (t + 2)) dwell observed then
        stored_state (snd run) d sid level = Some null_state
        /\ match breach observed with
           | Some pending =>
               if is_full queue_before then
                 queue_after = queue_before
                 /\ log (snd run)
                    = (log w1 ++ [Logged ERROR (MsgFailedToQueueBreach level Full)])%list
               else
                 queue_after = (queue_before ++ [Some pending])%list
                 /\ log (snd run)
                    = (log w1 ++ [Logged INFO (MsgSustainedBreachDetected level d sid)])%list
           | None => queue_after = queue_before /\ log (snd run) = log w1
           end
      else
        stored_state (snd run) d sid level = Some observed
        /\ queue_after = queue_before
        /\ log (snd run) = log w1).
Proof.
  intros Hsid Htype Hval Hfloat Hth Hr Hband b before t observed run
         queue_before queue_after.
  subst queue_after queue_before.
  pose proof (get_thresholds_frame E d sid w) as [Hdsm Hq].
  rewrite Hth in Hdsm, Hq. cbn [snd] in Hdsm, Hq.
  assert (Hview : forall d' s' l', state_view w1 d' s' l' = state_view w d' s' l')
    by (intros; apply state_view_same_dsm, Hdsm).
  assert (Hreads : lookup_clock_reads w1 d = lookup_clock_reads w d)
    by (unfold lookup_clock_reads; rewrite Hdsm; reflexivity).
  assert (Hrun : run = sustained_branch E d r sid ts level th dwell wq w1
                 /\ valid_level (lower level) /\ lower level = level).
  { subst run.
    rewrite (check_reading_ladder d ts cq wq r sid raw x y o red w w1 Hsid Hval Hfloat Hth).
    rewrite Hr.
    destruct Hband as [(-> & -> & -> & Ho) | (-> & -> & -> & Ho & Hy)].
    - rewrite Ho. split; [reflexivity|]. split; [right|]; reflexivity.
    - rewrite Ho, Hy. split; [reflexivity|]. split; [left|]; reflexivity. }
  destruct Hrun as (Hrun & Hv & Hlow). clearbody run. subst run.
  pose proof (sustained_branch_effect d ts level th dwell wq r sid stype raw w1
                Hsid Htype Hval Hv) as H.
  cbv zeta in H. rewrite Hlow, Hq, Hreads, !Hview in H.
  fold b before t observed in H.
  destruct H as (Hres & Hoth & Hqo & Hcases).
  split; [exact Hres|]. split; [|split; [exact Hqo | exact Hcases]].
  intros d' s' l' Hne. rewrite Hoth by exact Hne. apply Hview.
Qed.
End Ladder.

Lemma below_thresholds_resets_both_witness :
  let E := example_env false 20 Delivered in
  let r := reading "s1" (PyNum (float_of_int 5)) in
  let run := check_reading E "d1" "t0" RedQueue WarningQueue r initial_world in
  fst run = Ok ()
  /\ stored_state (snd run) "d1" "s1" "yellow" = Some null_state
  /\ stored_state (snd run) "d1" "s1" "orange" = Some null_state
  /\ queue_manager (snd run) = queue_manager initial_world.
Proof.
  intros E r run.
  destruct (below_thresholds_resets_both E "d1" "t0" RedQueue WarningQueue r
              "s1" (PyNum (float_of_int 5)) (float_of_int 5)
              (float_of_int 10) (float_of_int 20) (float_of_int 30)
              initial_world (snd (get_thresholds E "d1" "s1" initial_world))
              eq_refl eq_refl eq_refl
              ltac:(vm_compute; reflexivity) ltac:(vm_compute; reflexivity)
              ltac:(vm_compute; reflexivity) ltac:(vm_compute; reflexivity))
    as (H1 & H2 & H3 & _ & H5).
  exact (conj H1 (conj H2 (conj H3 H5))).
Defined.

Lemma warning_band_touches_one_level_witness :
  let r := reading "s1" (PyNum (float_of_int 25)) in
  let b := breach_snapshot (example_env false 20 Delivered) "d1" "s1" "temperature"
             (PyNum (float_of_int 25)) "t0" "orange" (float_of_int 20) in
  let slow := check_reading (example_env false 20 Delivered) "d1" "t0"
                RedQueue WarningQueue r initial_world in
  let fast := check_reading (example_env false 1 Delivered) "d1" "t0"
                RedQueue WarningQueue r initial_world in
  (* the two clock reads are 40 s apart, the dwell is 5 s: reported at once *)
  (stored_state (snd slow) "d1" "s1" "orange" = Some null_state
   /\ queue_of WarningQueue (queue_manager (snd slow)) = [Some b]
   /\ state_view (snd slow) "d1" "s1" "yellow" = null_state
   /\ queue_of RedQueue (queue_manager (snd slow)) = [])
  (* the two clock reads are 2 s apart: the episode is recorded and waits *)
  /\ (stored_state (snd fast) "d1" "s1" "orange"
      = Some {| above_threshold := true; since_timestamp := Some (float_of_int 3);
                breach := Some b |}
      /\ queue_of WarningQueue (queue_manager (snd fast)) = []).
Proof.
  intros r b slow fast.
  assert (Hred : py_ge (float_of_int 25) (float_of_int 30) = false)
    by (vm_compute; reflexivity).
  assert (Horange : py_ge (float_of_int 25) (float_of_int 20) = true)
    by (vm_compute; reflexivity).
  split.
  - set (E := example_env false 20 Delivered).
    assert (Hth : get_thresholds E "d1" "s1" initial_world
                  = (Ok (float_of_int 10, float_of_int 20, float_of_int 30),
                     snd (get_thresholds E "d1" "s1" initial_world)))
      by (vm_compute; reflexivity).
    pose proof (warning_band_touches_one_level E "d1" "t0" RedQueue WarningQueue r
                  "s1" "temperature" (PyNum (float_of_int 25)) (float_of_int 25)
                  (float_of_int 10) (float_of_int 20) (float_of_int 30)
                  initial_world (snd (get_thresholds E "d1" "s1" initial_world))
                  "orange" (float_of_int 20) (ORANGE_SUSTENANCE_PERIOD (cfg E))
                  eq_refl eq_refl eq_refl eq_refl Hth Hred
                  (or_introl (conj eq_refl (conj eq_refl (conj eq_refl Horange))))) as H.
    cbv zeta in H. destruct H as (_ & Hothers & Hqueues & Hcases).
    match type of Hcases with
    | if ?c then _ else _ => assert (Hdue : c = true) by (vm_compute; reflexivity)
    end.
    rewrite Hdue in Hcases. destruct Hcases as [Hcleared Hput].
    cbn [state_view stored_state above_threshold breach] in Hput.
    change (above_threshold (state_view initial_world "d1" "s1" "orange")) with false in Hput.
    cbv iota in Hput. cbn [breach] in Hput.
    assert (Hroom : is_full (queue_of WarningQueue (queue_manager initial_world)) = false)
      by reflexivity.
    rewrite Hroom in Hput. destruct Hput as [Hput _].
    split; [exact Hcleared|]. split; [exact Hput|]. split.
    + etransitivity; [apply Hothers; discriminate | reflexivity].
    + apply (Hqueues RedQueue). discriminate.
  - set (E := example_env false 1 Delivered).
    assert (Hth : get_thresholds E "d1" "s1" initial_world
                  = (Ok (float_of_int 10, float_of_int 20, float_of_int 30),
                     snd (get_thresholds E "d1" "s1" initial_world)))
      by (vm_compute; reflexivity).
    pose proof (warning_band_touches_one_level E "d1" "t0" RedQueue WarningQueue r
                  "s1" "temperature" (PyNum (float_of_int 25)) (float_of_int 25)
                  (float_of_int 10) (float_of_int 20) (float_of_int 30)
                  initial_world (snd (get_thresholds E "d1" "s1" initial_world))
                  "orange" (float_of_int 20) (ORANGE_SUSTENANCE_PERIOD (cfg E))
                  eq_refl eq_refl eq_refl eq_refl Hth Hred
                  (or_introl (conj eq_refl (conj eq_refl (conj eq_refl Horange))))) as H.
    cbv zeta in H. destruct H as (_ & _ & _ & Hcases).
    match type of Hcases with
    | if ?c then _ else _ => assert (Hdue : c = false) by (vm_compute; reflexivity)
    end.
    rewrite Hdue in Hcases. destruct Hcases as (Hstored & Hqueue & _).
    split; [|exact Hqueue].
    etransitivity; [exact Hstored | vm_compute; reflexivity].
Defined.

(** ** What the classifier may change *)

Lemma preserves_weaken (R R' : relation World) {A} (m : M A) :
  (forall w w', R w w' -> R' w w') -> preserves R m -> preserves R' m.
Proof. intros Hsub H w. apply Hsub, H. Qed.

Lemma same_outside_dsm_grow (w w' : World) : same_outside_dsm w w' -> queues_grow w w'.
Proof. intros (_ & _ & H & _). apply queues_grow_same, H. Qed.

Lemma same_dsm_and_queues_grow (w w' : World) :
  same_dsm_and_queues w w' -> queues_grow w w'.
Proof. intros [_ H]. apply queues_grow_same, H. Qed.

Lemma is_full_false (items : list (option Breach)) :
  is_full items = false -> (Z.of_nat (length items) < QUEUE_SIZE)%Z.
Proof.
  unfold is_full, QUEUE_SIZE. intros H.
  apply andb_false_iff in H as [H|H]; [discriminate|].
  apply Z.leb_gt in H. exact H.
Qed.

Lemma put_nowait_grows (q : QueueRef) (b : Breach) :
  preserves queues_grow (put_nowait q (Some b)).
Proof.
  intros w. unfold put_nowait, bind, get_world, raise, modify. cbv beta iota zeta.
  destruct (is_full (queue_of q (queue_manager w))) eqn:Hfull; cbn [snd].
  - reflexivity.
  - apply is_full_false in Hfull. intros q'.
    assert (Hcases : queue_of q' (set_queue q (queue_of q (queue_manager w) ++ [Some b])
                                    (queue_manager w))
                     = (queue_of q' (queue_manager w) ++ [Some b])%list
                       /\ q' = q
                     \/ queue_of q' (set_queue q (queue_of q (queue_manager w) ++ [Some b])
                                       (queue_manager w))
                        = queue_of q' (queue_manager w)).
    { destruct q, q'; (left; split; reflexivity) || (right; reflexivity). }
    cbn [queue_manager set_queue_manager].
    destruct Hcases as [[Heq ->] | Heq]; rewrite Heq.
    + exists [Some b]. split; [reflexivity|]. split.
      * repeat constructor. eauto.
      * intros _. rewrite length_app. cbn [length]. lia.
    + exists []. split; [symmetry; apply app_nil_r|]. split; [constructor | auto].
Qed.

Global Instance notifier_untouched_preorder : PreOrder notifier_untouched.
Proof.
  split.
  - intros w. repeat split.
  - intros a b c (H1 & H2 & H3) (G1 & G2 & G3).
    unfold notifier_untouched. repeat split; congruence.
Qed.

Lemma same_outside_dsm_notifier (w w' : World) :
  same_outside_dsm w w' -> notifier_untouched w w'.
Proof. intros (_ & H1 & _ & H2 & H3 & _). exact (conj H1 (conj H2 H3)). Qed.

Ltac notifier_same := unfold notifier_untouched; cbn; tauto.

Section ClassifierFrame.
Variable E : Env.

Lemma py_float_readonly (R : relation World) `{!PreOrder R} (v : pyval) :
  preserves R (py_float E v).
Proof.
  unfold py_float. destruct v as [x|s|]; [| destruct (str_to_float E s) |];
    frame idtac.
Qed.

Lemma make_breach_object_readonly (R : relation World) `{!PreOrder R}
    (d ts l : string) (th : float) (r : Reading) :
  preserves R (make_breach_object E d r ts l th).
Proof.
  unfold make_breach_object. destruct (get_entity_names E d) as [[? ?] ?].
  frame idtac.
Qed.

Lemma check_reading_grows (d ts : string) (cq wq : QueueRef) (r : Reading) :
  preserves queues_grow (check_reading E d ts cq wq r).
Proof.
  pose proof (py_float_readonly queues_grow).
  pose proof (make_breach_object_readonly queues_grow).
  pose proof put_nowait_grows.
  assert (forall d s, preserves queues_grow (get_thresholds E d s))
    by (intros; eapply preserves_weaken;
        [apply same_dsm_and_queues_grow | apply get_thresholds_frame]).
  assert (forall d s l a b, preserves queues_grow (update_sensor_state E d s l a b))
    by (intros; eapply preserves_weaken;
        [apply same_outside_dsm_grow | apply frame_update_sensor_state]).
  assert (forall d s l t, preserves queues_grow (check_sustained_breach E d s l t))
    by (intros; eapply preserves_weaken;
        [apply same_outside_dsm_grow | apply frame_check_sustained_breach]).
  unfold check_reading, sustained_branch.
  frame queues_same.
Qed.

Lemma try_except_logged (m : M unit) (l : Level) (f : exn -> LogMsg) (w : World) :
  fst (try_except m (fun e => logger l (f e)) w) = Ok ().
Proof.
  unfold try_except. destruct (m w) as [[[]|e] w']; reflexivity.
Qed.

Lemma get_thresholds_notifier (d s : string) :
  preserves notifier_untouched (get_thresholds E d s).
Proof.
  unfold get_thresholds, original_get_thresholds.
  frame notifier_same.
Qed.

Lemma put_nowait_notifier (q : QueueRef) (item : option Breach) :
  preserves notifier_untouched (put_nowait q item).
Proof.
  intros w. unfold put_nowait, bind, get_world, raise, modify. cbv beta iota zeta.
  destruct (is_full _); cbn [snd]; notifier_same.
Qed.

Lemma check_reading_notifier (d ts : string) (cq wq : QueueRef) (r : Reading) :
  preserves notifier_untouched (check_reading E d ts cq wq r).
Proof.
  pose proof (py_float_readonly notifier_untouched).
  pose proof (make_breach_object_readonly notifier_untouched).
  pose proof put_nowait_notifier.
  pose proof get_thresholds_notifier.
  assert (forall d s l a b, preserves notifier_untouched (update_sensor_state E d s l a b))
    by (intros; eapply preserves_weaken;
        [apply same_outside_dsm_notifier | apply frame_update_sensor_state]).
  assert (forall d s l t, preserves notifier_untouched (check_sustained_breach E d s l t))
    by (intros; eapply preserves_weaken;
        [apply same_outside_dsm_notifier | apply frame_check_sustained_breach]).
  unfold check_reading, sustained_branch.
  frame notifier_same.
Qed.

(** X13.  [run_threshold_check] never lets an exception out.  It only ever
    appends breaches, never a batch marker, to the two queues, and a queue
    within [QUEUE_SIZE] stays within it; the rate limiter's history, the
    retry queue and the relay are not touched. *)
Theorem run_threshold_check_is_safe (data : Event) (cq wq : QueueRef) (w : World) :
  let run := run_threshold_check E data cq wq w in
  fst run = Ok ()
  /\ queues_grow w (snd run)
  /\ notifier_untouched w (snd run).
Proof.
  cbv zeta. split; [apply try_except_logged|]. split.
  - revert w. change (preserves queues_grow (run_threshold_check E data cq wq)).
    pose proof check_reading_grows.
    unfold run_threshold_check, check_thresholds_against_data. cbv zeta.
    frame queues_same.
  - revert w. change (preserves notifier_untouched (run_threshold_check E data cq wq)).
    pose proof check_reading_notifier.
    unfold run_threshold_check, check_thresholds_against_data. cbv zeta.
    frame notifier_same.
Qed.

(** X14.  When the threshold lookup of a reading fails, the reading is
    skipped: the failure is logged, the device-state manager and the queues
    are as before, and the loop goes on with the remaining readings. *)
Theorem missing_thresholds_skip_one_reading (d ts : string) (cq wq : QueueRef)
    (r : Reading) (rest : list Reading) (sid : string) (raw : pyval) (x : float)
    (e : exn) (w w1 : World) :
  r_sensor_id r = Some sid ->
  r_value r = Some raw ->
  py_float E raw w = (Ok x, w) ->
  get_thresholds E d sid w = (Raise e, w1) ->
  let skipped := set_log (log w1 ++ [Logged ERROR (MsgFailedToGetThresholds d sid e)]) w1 in
  check_reading E d ts cq wq r w = (Ok (), skipped)
  /\ device_state_manager skipped = device_state_manager w
  /\ queue_manager skipped = queue_manager w
  /\ for_each (r :: rest) (check_reading E d ts cq wq) w
     = for_each rest (check_reading E d ts cq wq) skipped.
Proof.
  intros Hsid Hval Hfloat Hth skipped.
  assert (Hrun : check_reading E d ts cq wq r w = (Ok (), skipped)).
  { unfold check_reading.
    rewrite (bind_ok _ _ _ _ _ (subscript_run _ _ _ w Hsid)).
    rewrite (bind_ok _ _ _ _ _ (subscript_run _ _ _ w Hval)).
    rewrite (bind_ok _ _ _ _ _ Hfloat).
    unfold bind at 1. unfold try_except at 1.
    rewrite (bind_raise _ _ _ _ _ Hth). reflexivity. }
  pose proof (get_thresholds_frame E d sid w) as [Hdsm Hq].
  rewrite Hth in Hdsm, Hq. cbn [snd] in Hdsm, Hq.
  split; [exact Hrun|]. split; [exact Hdsm|]. split; [exact Hq|].
  cbn [for_each]. rewrite (bind_ok _ _ _ _ _ Hrun). reflexivity.
Qed.
End ClassifierFrame.

Lemma missing_thresholds_skip_one_reading_witness :
  let E := example_env false 20 Delivered in
  let skipped := reading "s9" (PyNum (float_of_int 35)) in
  let kept := reading "s1" (PyNum (float_of_int 35)) in
  let body := check_reading E "d1" "t0" RedQueue WarningQueue in
  for_each [skipped; kept] body initial_world
  = for_each [kept] body (snd (body skipped initial_world))
  /\ length (red_queue (queue_manager
                          (snd (for_each [skipped; kept] body initial_world)))) = 1.
Proof.
  intros E skipped kept body.
  pose proof (missing_thresholds_skip_one_reading E "d1" "t0" RedQueue WarningQueue
                skipped [kept] "s9" (PyNum (float_of_int 35)) (float_of_int 35)
                (DataNotSetError "d1" "s9")
                initial_world (snd (get_thresholds E "d1" "s9" initial_world))
                eq_refl eq_refl eq_refl ltac:(vm_compute; reflexivity)) as H.
  cbv zeta in H. destruct H as (Hrun & _ & _ & Hloop).
  split.
  - subst body. etransitivity; [exact Hloop|]. rewrite Hrun. reflexivity.
  - vm_compute. reflexivity.
Defined.

(** ** The cache and the rate limiter *)

Section CacheProperties.
Variable E : Env.

Lemma get_thresholds_run (d s : string) (w : World) :
  let entry := threshold_cache (caches w) !! (d, s) in
  get_thresholds E d s w =
  match entry with
  | Some (_, ts) =>
      match fresh_entry (clock E (ticks w)) THRESHOLD_CACHE_TTL entry with
      | Some value => (Ok value, set_ticks (S (ticks w)) w)
      | None =>
          let w1 := set_log (log w ++ [Logged DEBUG (MsgCacheMissThresholds d s)])
                      (set_ticks (S (ticks w)) w) in
          match sensors_row E d s with
          | Some row =>
              (Ok row,
               set_caches
                 {| threshold_cache :=
                      <[(d, s) := (row, clock E (S (ticks w)))]> (threshold_cache (caches w));
                    email_cache := email_cache (caches w) |}
                 (set_ticks (S (S (ticks w))) w1))
          | None => (Raise (DataNotSetError d s), w1)
          end
      end
  | None =>
      let w1 := set_log (log w ++ [Logged DEBUG (MsgCacheMissThresholds d s)]) w in
      match sensors_row E d s with
      | Some row =>
          (Ok row,
           set_caches
             {| threshold_cache :=
                  <[(d, s) := (row, clock E (ticks w))]> (threshold_cache (caches w));
                email_cache := email_cache (caches w) |}
             (set_ticks (S (ticks w)) w1))
      | None => (Raise (DataNotSetError d s), w1)
      end
  end.
Proof.
  cbv zeta. unfold get_thresholds, original_get_thresholds, fresh_entry.
  unfold bind at 1. unfold get_world at 1. cbv beta iota.
  destruct (threshold_cache (caches w) !! (d, s)) as [[v ts]|] eqn:Hc.
  - unfold bind at 1. unfold bind at 1. rewrite time_time_run. cbv beta iota.
    destruct (py_lt _ _); [reflexivity|]. cbv beta iota. unfold ret at 1. cbv beta iota.
    destruct (sensors_row E d s); reflexivity.
  - unfold bind at 1. unfold ret at 1. cbv beta iota.
    destruct (sensors_row E d s); reflexivity.
Qed.

(** X15.  The cached [get_thresholds].  An entry younger than
    [THRESHOLD_CACHE_TTL] is served as it is, with no store access, no log
    line and no change to the caches.  Otherwise the store is asked: a row is
    returned and cached under the key with the time read after the query,
    the e-mail cache untouched; a failure is raised as it is and nothing is
    cached, a stale entry staying in place. *)
Theorem get_thresholds_cache_spec (d s : string) (w : World) :
  let entry := threshold_cache (caches w) !! (d, s) in
  let run := get_thresholds E d s w in
  match fresh_entry (clock E (ticks w)) THRESHOLD_CACHE_TTL entry with
  | Some value =>
      (* served from the cache, whatever the store holds *)
      fst run = Ok value /\ caches (snd run) = caches w /\ log (snd run) = log w
  | None =>
      match sensors_row E d s with
      | Some row =>
          fst run = Ok row
          /\ (exists stamp,
                threshold_cache (caches (snd run))
                = <[(d, s) := (row, stamp)]> (threshold_cache (caches w))
                /\ stamp = clock E (pred (ticks (snd run))))
          /\ email_cache (caches (snd run)) = email_cache (caches w)
      | None =>
          fst run = Raise (DataNotSetError d s)
          /\ caches (snd run) = caches w
      end
  end.
Proof.
  cbv zeta. rewrite get_thresholds_run. cbv zeta.
  destruct (threshold_cache (caches w) !! (d, s)) as [[v ts]|] eqn:Hc.
  - destruct (fresh_entry _ _ _) as [value|].
    + repeat split.
    + destruct (sensors_row E d s) as [row|].
      * split; [reflexivity|]. split; [|reflexivity]. eexists. split; reflexivity.
      * split; reflexivity.
  - cbn [fresh_entry]. destruct (sensors_row E d s) as [row|].
    + split; [reflexivity|]. split; [|reflexivity]. eexists. split; reflexivity.
    + split; reflexivity.
Qed.

(** X16.  Thresholds fetched on a miss are served again, without the store,
    in any later state with the same caches whose clock is within
    [THRESHOLD_CACHE_TTL] of the fetch. *)
Theorem fetched_thresholds_are_reused (d s : string) (row : Thresholds) (w w1 : World) :
  fresh_entry (clock E (ticks w)) THRESHOLD_CACHE_TTL
    (threshold_cache (caches w) !! (d, s)) = None ->
  get_thresholds E d s w = (Ok row, w1) ->
  forall w2,
    caches w2 = caches w1 ->
    py_lt (PrimFloat.sub (clock E (ticks w2)) (clock E (pred (ticks w1))))
          (float_of_int THRESHOLD_CACHE_TTL) = true ->
    fst (get_thresholds E d s w2) = Ok row
    /\ caches (snd (get_thresholds E d s w2)) = caches w2.
Proof.
  intros Hmiss Hrun w2 Hsame Hfresh.
  assert (Hcache : threshold_cache (caches w1) !! (d, s)
                   = Some (row, clock E (pred (ticks w1)))).
  { rewrite get_thresholds_run in Hrun. cbv zeta in Hrun.
    destruct (threshold_cache (caches w) !! (d, s)) as [[v ts]|].
    - rewrite Hmiss in Hrun.
      destruct (sensors_row E d s); [|discriminate].
      injection Hrun as <- <-. cbn. apply lookup_insert_eq.
    - destruct (sensors_row E d s); [|discriminate].
      injection Hrun as <- <-. cbn. apply lookup_insert_eq. }
  rewrite get_thresholds_run. cbv zeta. rewrite Hsame, Hcache.
  cbn [fresh_entry]. rewrite Hfresh. split; [reflexivity | exact Hsame].
Qed.

(** X17.  [clear_cache] empties both caches: the next [get_thresholds]
    answers what the store holds, or fails as the store does, and the next
    [get_emails] answers what the uncached [get_emails] does. *)
Theorem clear_cache_forces_store_lookup (d s : string) (p : Process) :
  let p' := pexec clear_cache p in
  peval clear_cache p = Ok ()
  /\ threshold_cache (caches (world p')) = ∅
  /\ email_cache (caches (world p')) = ∅
  /\ fst (get_thresholds E d s (world p'))
     = match sensors_row E d s with
       | Some row => Ok row
       | None => Raise (DataNotSetError d s)
       end
  /\ fst (get_emails E d s (world p')) = Ok (original_get_emails d s).
Proof.
  cbv zeta. split; [reflexivity|]. split; [reflexivity|]. split; [reflexivity|]. split.
  - rewrite get_thresholds_run. cbv zeta.
    change (threshold_cache (caches (world (pexec clear_cache p)))) with
      (∅ : gmap (string * string) (Thresholds * float)).
    rewrite lookup_empty. destruct (sensors_row E d s); reflexivity.
  - unfold get_emails. unfold bind at 1. unfold get_world at 1. cbv beta iota.
    change (email_cache (caches (world (pexec clear_cache p)))) with
      (∅ : gmap (string * string) (Recipients * float)).
    rewrite lookup_empty. reflexivity.
Qed.

(** X18.  [should_send] writes at most the history entry of its own key and
    nothing outside the history.  The stamp it writes is the time of the
    send it allowed: the next request for the same key, in any letter case,
    is allowed exactly when the timeout has passed since then. *)
Theorem should_send_stamps_own_key (d s tt tt' : string) (w : World) :
  let key := (d, s, lower tt) in
  let run := should_send E d s tt w in
  (forall k, k <> key -> history (snd run) !! k = history w !! k)
  /\ caches (snd run) = caches w
  /\ device_state_manager (snd run) = device_state_manager w
  /\ queue_manager (snd run) = queue_manager w
  /\ retry_queue (snd run) = retry_queue w
  /\ smtp_attempts (snd run) = smtp_attempts w
  /\ (fst run = Ok true ->
      lower tt' = lower tt ->
      fst (should_send E d s tt' (snd run))
      = Ok (py_ge (PrimFloat.sub (clock E (S (ticks w))) (clock E (ticks w)))
              (float_of_int
                 (default 3600%Z (BREACH_TIMEOUT_IN_SECONDS (cfg E) !! lower tt))))).
Proof.
  cbv zeta. rewrite (should_send_run E d s tt w). cbv zeta.
  set (allow := match history w !! (d, s, lower tt) with
                | Some last_sent => _
                | None => true
                end).
  destruct allow; cbn [fst snd].
  - split; [intros k Hne; cbn; apply lookup_insert_ne; congruence|].
    do 5 (split; [reflexivity|]).
    intros _ Hlow. rewrite (should_send_run E d s tt'). cbv zeta. rewrite Hlow.
    cbn [fst history set_history ticks set_ticks].
    rewrite lookup_insert_eq. reflexivity.
  - split; [reflexivity|]. do 5 (split; [reflexivity|]). discriminate.
Qed.

(** X19.  The cached [get_emails].  An entry younger than [EMAIL_CACHE_TTL]
    is served as it is, with no change to the caches and no log line.
    Otherwise the uncached [get_emails] is asked and its answer is returned
    and cached under the key with the time read after the call, the
    threshold cache untouched.  The lookup never fails. *)
Theorem get_emails_cache_spec (d tt : string) (w : World) :
  let entry := email_cache (caches w) !! (d, tt) in
  let run := get_emails E d tt w in
  match fresh_entry (clock E (ticks w)) EMAIL_CACHE_TTL entry with
  | Some value =>
      fst run = Ok value /\ caches (snd run) = caches w /\ log (snd run) = log w
  | None =>
      fst run = Ok (original_get_emails d tt)
      /\ (exists stamp,
            email_cache (caches (snd run))
            = <[(d, tt) := (original_get_emails d tt, stamp)]> (email_cache (caches w))
            /\ stamp = clock E (pred (ticks (snd run))))
      /\ threshold_cache (caches (snd run)) = threshold_cache (caches w)
  end.
Proof.
  cbv zeta. remember (get_emails E d tt w) as run eqn:Hrun.
  unfold get_emails in Hrun. cbv zeta in Hrun.
  unfold bind at 1 in Hrun. unfold get_world at 1 in Hrun. cbv beta iota in Hrun.
  unfold fresh_entry.
  destruct (email_cache (caches w) !! (d, tt)) as [[v ts]|] eqn:Hc.
  - unfold bind at 1 in Hrun. unfold bind at 1 in Hrun.
    rewrite time_time_run in Hrun. cbv beta iota in Hrun.
    destruct (py_lt _ _).
    + subst run. repeat split.
    + subst run. cbn. split; [reflexivity|]. split; [|reflexivity].
      eexists. split; reflexivity.
  - subst run. cbn. split; [reflexivity|]. split; [|reflexivity].
    eexists. split; reflexivity.
Qed.
End CacheProperties.

Lemma fetched_thresholds_are_reused_witness :
  let E := example_env false 20 Delivered in
  let row := (float_of_int 10, float_of_int 20, float_of_int 30) in
  let w1 := snd (get_thresholds E "d1" "s1" initial_world) in
  get_thresholds E "d1" "s1" initial_world = (Ok row, w1)
  /\ fst (get_thresholds E "d1" "s1" w1) = Ok row
  /\ caches (snd (get_thresholds E "d1" "s1" w1)) = caches w1.
Proof.
  intros E row w1.
  assert (Hrun : get_thresholds E "d1" "s1" initial_world = (Ok row, w1))
    by (vm_compute; reflexivity).
  split; [exact Hrun|].
  apply (fetched_thresholds_are_reused E "d1" "s1" row initial_world w1
           eq_refl Hrun w1 eq_refl).
  vm_compute. reflexivity.
Defined.

(** ** Grouping, retry entries and envelopes *)

Lemma dict_get_append {A} (k k' : string) (v : A) (d : list (string * list A)) :
  dict_get k (dict_append k' v d)
  = if String.eqb k' k then Some (default [] (dict_get k d) ++ [v])%list
    else dict_get k d.
Proof.
  induction d as [|[k0 vs] d IH]; cbn [dict_append dict_get].
  - destruct (String.eqb k' k); reflexivity.
  - destruct (String.eqb k0 k') eqn:H0; cbn [dict_get].
    + apply String.eqb_eq in H0. subst k0.
      destruct (String.eqb k' k); reflexivity.
    + rewrite IH. destruct (String.eqb k0 k) eqn:H1; [|reflexivity].
      apply String.eqb_eq in H1. subst k0. rewrite (String.eqb_sym k' k), H0. reflexivity.
Qed.

Lemma dict_append_keys {A} (k : string) (v : A) (d : list (string * list A)) :
  map fst (dict_append k v d)
  = if bool_decide (k ∈ map fst d) then map fst d else (map fst d ++ [k])%list.
Proof.
  induction d as [|[k0 vs] d IH]; cbn [dict_append map fst].
  - rewrite bool_decide_eq_false_2 by apply not_elem_of_nil. reflexivity.
  - destruct (String.eqb k0 k) eqn:H0; cbn [map fst].
    + apply String.eqb_eq in H0. subst k0.
      rewrite bool_decide_eq_true_2 by apply list_elem_of_here. reflexivity.
    + apply String.eqb_neq in H0. rewrite IH.
      destruct (bool_decide (k ∈ map fst d)) eqn:Hd.
      * apply bool_decide_eq_true_1 in Hd.
        rewrite bool_decide_eq_true_2 by (apply list_elem_of_further, Hd). reflexivity.
      * apply bool_decide_eq_false_1 in Hd.
        rewrite bool_decide_eq_false_2; [reflexivity|].
        intros Hin. apply elem_of_cons in Hin as [->|Hin]; [congruence | tauto].
Qed.

Lemma dict_append_nodup {A} (k : string) (v : A) (d : list (string * list A)) :
  NoDup (map fst d) -> NoDup (map fst (dict_append k v d)).
Proof.
  intros Hd. rewrite dict_append_keys.
  destruct (bool_decide (k ∈ map fst d)) eqn:Hk; [exact Hd|].
  apply bool_decide_eq_false_1 in Hk.
  apply NoDup_app. split; [exact Hd|]. split.
  - intros x Hx Hx'. apply list_elem_of_singleton in Hx'. subst x. tauto.
  - apply NoDup_singleton.
Qed.

Lemma group_fold (k : string) (bs : list Breach) (d : list (string * list Breach)) :
  let d' := fold_left (fun d b => dict_append (b_device_id b) b d) bs d in
  (NoDup (map fst d) -> NoDup (map fst d'))
  /\ dict_get k d'
     = match of_device k bs with
       | [] => dict_get k d
       | l => Some (default [] (dict_get k d) ++ l)%list
       end.
Proof.
  cbv zeta. revert d. induction bs as [|b bs IH]; intros d; cbn [fold_left of_device List.filter].
  - split; [auto | reflexivity].
  - destruct (IH (dict_append (b_device_id b) b d)) as [Hnd Hget].
    split; [intros H; apply Hnd, dict_append_nodup, H|].
    rewrite Hget, dict_get_append. fold (of_device k bs).
    destruct (String.eqb (b_device_id b) k); [|reflexivity].
    destruct (of_device k bs) as [|b' l]; [reflexivity|].
    change (default [] (Some ?x)) with x.
    rewrite <- app_assoc. reflexivity.
Qed.

(** X20.  The grouping step of [process_breaches]: one entry per device that
    occurs in the batch, no device twice, each entry holding the breaches of
    its device in batch order and never empty. *)
Theorem group_by_device_spec (breaches : list Breach) (device_id : string) :
  NoDup (map fst (group_by_device breaches))
  /\ dict_get device_id (group_by_device breaches)
     = match of_device device_id breaches with
       | [] => None
       | l => Some l
       end
  /\ (forall entry, In entry (group_by_device breaches) ->
        snd entry = of_device (fst entry) breaches /\ snd entry <> []).
Proof.
  unfold group_by_device.
  destruct (group_fold device_id breaches []) as [Hnd Hget]. cbv zeta in *.
  split; [apply Hnd; constructor|]. split; [exact Hget|].
  intros [k vs] Hin. cbn [fst snd].
  assert (Hk : dict_get k (fold_left (fun d b => dict_append (b_device_id b) b d)
                             breaches []) = Some vs).
  { specialize (Hnd (NoDup_nil_2)).
    revert Hnd Hin. generalize (fold_left (fun d b => dict_append (b_device_id b) b d)
                                  breaches []).
    intros d. induction d as [|[k0 v0] d IH]; intros Hnd Hin; [destruct Hin|].
    cbn [dict_get]. cbn [map fst] in Hnd. apply NoDup_cons in Hnd as [Hnot Hnd].
    destruct Hin as [Heq|Hin].
    - injection Heq as -> ->. rewrite String.eqb_refl. reflexivity.
    - destruct (String.eqb k0 k) eqn:H0; [|apply IH; auto].
      apply String.eqb_eq in H0. subst k0. exfalso. apply Hnot.
      apply list_elem_of_In. apply (in_map fst) in Hin. exact Hin. }
  destruct (group_fold k breaches []) as [_ Hget']. cbv zeta in Hget'.
  rewrite Hk in Hget'. cbn [dict_get default] in Hget'.
  destruct (of_device k breaches) as [|b l]; [discriminate|].
  injection Hget' as ->. split; [reflexivity | discriminate].
Qed.

Global Instance keeps_retry_stamps_preorder : PreOrder keeps_retry_stamps.
Proof.
  split.
  - intros w H. exact H.
  - intros a b c H1 H2 H. apply H2, H1, H.
Qed.

Lemma keeps_retry_stamps_same (w w' : World) :
  retry_queue w' = retry_queue w -> keeps_retry_stamps w w'.
Proof. intros H Hs. rewrite H. exact Hs. Qed.

Ltac stamps_same := apply keeps_retry_stamps_same; reflexivity.

Section NotifierProperties.
Variable E : Env.

Lemma stamps_send_email (rs : list string) (subj c : string) (lp : option string) :
  preserves keeps_retry_stamps (send_email E rs subj c lp).
Proof.
  intros w. destruct (send_email_run E rs subj c lp w) as (w' & Hrun & _ & Hq & _).
  rewrite Hrun. apply keeps_retry_stamps_same, Hq.
Qed.

Lemma stamps_queue_for_retry (e : EmailData) (a : Z) :
  (1 <= a)%Z -> preserves keeps_retry_stamps (queue_for_retry E e a).
Proof.
  intros Ha w Hs. unfold queue_for_retry.
  destruct (Z.leb_spec a MAX_EMAIL_RETRY_ATTEMPTS) as [Hle|Hgt]; cbn.
  - apply Forall_app. split; [exact Hs|]. constructor; [|constructor].
    eexists _, _. cbn. split; [reflexivity|]. split; [reflexivity | lia].
  - exact Hs.
Qed.

Lemma stamps_rate_limited (l : list Breach) :
  preserves keeps_retry_stamps (rate_limited E l).
Proof.
  induction l as [|b l IH]; cbn [rate_limited].
  - frame stamps_same.
  - unfold should_send. frame stamps_same.
Qed.

Lemma stamps_resolve_breaches (d : string) (l : list Breach)
    (acc : list (string * list Breach)) :
  preserves keeps_retry_stamps (resolve_breaches E d l acc).
Proof.
  revert acc. induction l as [|b l IH]; intros acc; cbn [resolve_breaches].
  - frame stamps_same.
  - unfold resolve_breach, get_emails. frame stamps_same.
Qed.

Lemma stamps_resolve_devices (l acc : list (string * list Breach)) :
  preserves keeps_retry_stamps (resolve_devices E l acc).
Proof.
  revert acc. induction l as [|entry l IH]; intros acc; cbn [resolve_devices].
  - frame stamps_same.
  - pose proof stamps_rate_limited. pose proof stamps_resolve_breaches.
    unfold resolve_device. frame stamps_same.
Qed.

Lemma stamps_process_breaches (bs : list Breach) (lp : option string) :
  preserves keeps_retry_stamps (process_breaches E bs lp).
Proof.
  pose proof stamps_resolve_devices. pose proof stamps_send_email.
  assert (forall e, preserves keeps_retry_stamps (queue_for_retry E e 1))
    by (intros; apply stamps_queue_for_retry; lia).
  unfold process_breaches, send_to_recipient. frame stamps_same.
Qed.

(** One turn of the retry thread, case by case on the head of the queue. *)
Lemma retry_job_turn_cases (w : World) :
  let run := retry_job_turn E w in
  fst run = Ok ()
  /\ match retry_queue w with
     | [] => snd run = w
     | e :: rest =>
         match ed_next_try e with
         | None =>
             retry_queue (snd run) = rest
             /\ smtp_attempts (snd run) = smtp_attempts w
             /\ log (snd run)
                = (log w ++ [Logged ERROR (MsgErrorInRetryThread (KeyError "next_try"))])%list
         | Some next_try =>
             if py_gt next_try (clock E (ticks w)) then
               retry_queue (snd run) = (rest ++ [e])%list
               /\ smtp_attempts (snd run) = smtp_attempts w
               /\ log (snd run) = log w
             else
               smtp_attempts (snd run)
               = (smtp_attempts w ++
                    [{| msg_to := join ","
                          (if USE_TEST_EMAIL (cfg E) then [TEST_EMAIL (cfg E)]
                           else (ed_recipients e ++ LOGGER_EMAILS (cfg E))%list);
                        msg_subject := ed_subject e;
                        msg_content := ed_content e |}])%list
               /\ (delivered (smtp E (length (smtp_attempts w))) = true ->
                   retry_queue (snd run) = rest)
               /\ (stamped e -> Forall stamped rest ->
                   Forall stamped (retry_queue (snd run)))
         end
     end.
Proof.
  cbv zeta. remember (retry_job_turn E w) as run eqn:Hrun.
  unfold retry_job_turn in Hrun.
  unfold bind at 1 in Hrun. unfold try_except at 1 in Hrun. rewrite bind_run in Hrun.
  unfold get_world at 1 in Hrun. cbv beta iota in Hrun.
  destruct (retry_queue w) as [|e rest] eqn:Hq.
  - cbn in Hrun. subst run. split; reflexivity.
  - unfold bind at 1 in Hrun. unfold modify at 1 in Hrun. cbv beta iota in Hrun.
    unfold bind at 1 in Hrun.
    destruct (ed_next_try e) as [nt|] eqn:Hnt; cbn [subscript ret raise] in Hrun.
    2:{ cbn in Hrun. subst run. repeat split. }
    unfold bind at 1 in Hrun. unfold time_time at 1 in Hrun. cbv beta iota in Hrun.
    cbn [ticks set_retry_queue] in Hrun.
    destruct (py_gt nt _).
    { cbn in Hrun. subst run. repeat split. }
    match type of Hrun with
    | context [bind (send_email E ?a ?b ?c ?d) _ ?w0] =>
        destruct (send_email_run E a b c d w0) as (w3 & Hsend & Hsent & Hqueue & _)
    end.
    rewrite (bind_ok _ _ _ _ _ Hsend) in Hrun.
    cbn in Hsent, Hqueue.
    pose proof Hsent as Hlen.
    destruct (delivered _) eqn:Hd; cbn [negb] in Hrun.
    { cbn in Hrun. subst run. unfold time_sleep, ret. cbn [fst snd].
      split; [reflexivity|]. split; [exact Hlen|].
      split; [intros _; exact Hqueue|]. intros _ Hrest. rewrite Hqueue. exact Hrest. }
    unfold bind at 1 in Hrun. unfold bind at 1 in Hrun.
    destruct (ed_attempt e) as [a|] eqn:Ha; cbn [subscript ret raise] in Hrun.
    2:{ cbn in Hrun. subst run. unfold time_sleep, ret.
        cbn [fst snd smtp_attempts retry_queue set_log].
        split; [reflexivity|]. split; [exact Hlen|].
        split; [discriminate|]. intros _ Hrest. rewrite Hqueue. exact Hrest. }
    unfold queue_for_retry in Hrun.
    destruct (Z.leb_spec (a + 1) MAX_EMAIL_RETRY_ATTEMPTS) as [Hle|Hgt].
    + cbn in Hrun. subst run. unfold time_sleep, ret.
      cbn [fst snd smtp_attempts retry_queue set_log set_retry_queue set_ticks].
      split; [reflexivity|]. split; [exact Hlen|].
      split; [discriminate|]. intros (a' & t' & Ha' & _ & Hb) Hrest.
      rewrite Hqueue. apply Forall_app. split; [exact Hrest|].
      constructor; [|constructor]. eexists _, _. cbn.
      split; [reflexivity|]. split; [reflexivity|].
      rewrite Ha in Ha'. injection Ha' as <-. lia.
    + cbn in Hrun. subst run. unfold time_sleep, ret.
      cbn [fst snd smtp_attempts retry_queue set_log set_retry_queue set_ticks].
      split; [reflexivity|]. split; [exact Hlen|].
      split; [discriminate|]. intros _ Hrest. rewrite Hqueue. exact Hrest.
Qed.

Lemma stamps_retry_job_turn : preserves keeps_retry_stamps (retry_job_turn E).
Proof.
  intros w Hs. destruct (retry_job_turn_cases w) as [_ H]. cbv zeta in H.
  destruct (retry_queue w) as [|e rest] eqn:Hq; [rewrite H, Hq; constructor|].
  apply Forall_cons in Hs as [He Hrest].
  destruct He as (a & t & Ha & Ht & Hb). rewrite Ht in H.
  destruct (py_gt t _).
  - destruct H as (-> & _). apply Forall_app. split; [exact Hrest|].
    constructor; [|constructor]. exists a, t. auto.
  - destruct H as (_ & _ & H). apply H; [|exact Hrest]. exists a, t. auto.
Qed.

Lemma stamps_retry_job (n : nat) : preserves keeps_retry_stamps (retry_job E n).
Proof.
  induction n as [|n IH]; cbn [retry_job].
  - frame stamps_same.
  - pose proof stamps_retry_job_turn. frame stamps_same.
Qed.

Lemma retry_job_returns (n : nat) (w : World) : fst (retry_job E n w) = Ok ().
Proof.
  revert w. induction n as [|n IH]; intros w; cbn [retry_job]; [reflexivity|].
  rewrite bind_run. destruct (retry_job_turn_cases w) as [H _]. cbv zeta in H.
  destruct (retry_job_turn E w) as [[[]|e] w']; [apply IH | discriminate].
Qed.

(** X21.  Every entry the service itself puts on the retry queue carries
    ["attempt"] within 1 .. [MAX_EMAIL_RETRY_ATTEMPTS] and ["next_try"]:
    [process_breaches] and the retry thread keep a queue of such entries a
    queue of such entries. *)
Theorem retry_entries_stay_stamped (breaches : list Breach) (log_path : option string)
    (n : nat) (w : World) :
  Forall stamped (retry_queue w) ->
  Forall stamped (retry_queue (exec (process_breaches E breaches log_path) w))
  /\ Forall stamped (retry_queue (exec (retry_job E n) w))
  /\ fst (retry_job E n w) = Ok ().
Proof.
  intros Hs. split; [apply (stamps_process_breaches breaches log_path w), Hs|].
  split; [apply (stamps_retry_job n w), Hs | apply retry_job_returns].
Qed.

(** X22.  One turn of the retry thread never fails.  On an empty queue it
    changes nothing.  A head entry that is not due yet goes to the tail of
    the queue without a send.  A due head entry that the relay takes is sent
    once and dropped.  A head entry without ["next_try"] is lost: it has
    been taken off the queue when the [KeyError] is raised, and the error is
    logged. *)
Theorem retry_turn_outcomes (w : World) :
  let run := retry_job_turn E w in
  fst run = Ok ()
  /\ (retry_queue w = [] -> snd run = w)
  /\ (forall e rest,
        retry_queue w = e :: rest -> ed_next_try e = None ->
        retry_queue (snd run) = rest
        /\ smtp_attempts (snd run) = smtp_attempts w
        /\ log (snd run)
           = (log w ++ [Logged ERROR (MsgErrorInRetryThread (KeyError "next_try"))])%list)
  /\ (forall e rest next_try,
        retry_queue w = e :: rest -> ed_next_try e = Some next_try ->
        py_gt next_try (clock E (ticks w)) = true ->
        retry_queue (snd run) = (rest ++ [e])%list
        /\ smtp_attempts (snd run) = smtp_attempts w)
  /\ (forall e rest next_try,
        retry_queue w = e :: rest -> ed_next_try e = Some next_try ->
        py_gt next_try (clock E (ticks w)) = false ->
        delivered (smtp E (length (smtp_attempts w))) = true ->
        retry_queue (snd run) = rest
        /\ length (smtp_attempts (snd run)) = S (length (smtp_attempts w))).
Proof.
  cbv zeta. destruct (retry_job_turn_cases w) as [Hres H]. cbv zeta in H.
  split; [exact Hres|]. split; [|split; [|split]].
  - intros Hq. rewrite Hq in H. exact H.
  - intros e rest Hq Hnt. rewrite Hq, Hnt in H. exact H.
  - intros e rest nt Hq Hnt Hdue. rewrite Hq, Hnt, Hdue in H.
    destruct H as (H1 & H2 & _). split; assumption.
  - intros e rest nt Hq Hnt Hdue Hd. rewrite Hq, Hnt, Hdue in H.
    destruct H as (H1 & H2 & _). split; [apply H2, Hd|].
    rewrite H1, length_app. cbn. lia.
Qed.

End NotifierProperties.

Lemma retry_entries_stay_stamped_witness :
  let E := example_env false 20 SmtpError in
  let w := exec (process_breaches E [example_breach "red" 30] None) initial_world in
  Forall stamped (retry_queue initial_world)
  /\ Forall stamped (retry_queue w)
  /\ length (retry_queue w) = 1.
Proof.
  intros E w.
  assert (H0 : Forall stamped (retry_queue initial_world)) by constructor.
  split; [exact H0|]. split.
  - destruct (retry_entries_stay_stamped E [example_breach "red" 30] None 0
                initial_world H0) as [H _].
    exact H.
  - vm_compute. reflexivity.
Defined.

(** ** The notifier returns *)

Lemma never_raises_ret {A} (a : A) : never_raises (ret a).
Proof. intros w. exists a. reflexivity. Qed.

Lemma never_raises_get_world : never_raises get_world.
Proof. intros w. exists w. reflexivity. Qed.

Lemma never_raises_modify (f : World -> World) : never_raises (modify f).
Proof. intros w. exists tt. reflexivity. Qed.

Lemma never_raises_bind {A B} (m : M A) (k : A -> M B) :
  never_raises m -> (forall a, never_raises (k a)) -> never_raises (bind m k).
Proof.
  intros Hm Hk w. rewrite bind_run. destruct (Hm w) as [a Ha].
  destruct (m w) as [[a'|e] w']; [apply Hk | discriminate].
Qed.

Lemma never_raises_try_except {A} (m : M A) (h : exn -> M A) :
  (forall e, never_raises (h e)) -> never_raises (try_except m h).
Proof.
  intros Hh w. unfold try_except.
  destruct (m w) as [[a|e] w']; [exists a; reflexivity | apply Hh].
Qed.

Lemma never_raises_for_each {A} (l : list A) (body : A -> M unit) :
  (forall x, never_raises (body x)) -> never_raises (for_each l body).
Proof.
  intros Hb. induction l as [|x l IH]; cbn [for_each].
  - apply never_raises_ret.
  - apply never_raises_bind; [apply Hb | intros _; exact IH].
Qed.

Ltac total :=
  repeat
    (intros;
     lazymatch goal with
     | |- never_raises (ret _) => apply never_raises_ret
     | |- never_raises get_world => apply never_raises_get_world
     | |- never_raises (time_sleep _) => apply never_raises_ret
     | |- never_raises (modify _) => apply never_raises_modify
     | |- never_raises (bind _ _) => apply never_raises_bind
     | |- never_raises (try_except _ _) => apply never_raises_try_except
     | |- never_raises (for_each _ _) => apply never_raises_for_each
     | |- never_raises (time_time _) => intros ?; eexists; reflexivity
     | |- never_raises (match ?x with _ => _ end) => destruct x
     | |- never_raises (logger _ _) => unfold logger
     | |- never_raises (log_to_file _ _) => unfold log_to_file
     | |- never_raises (log_file _ _) => unfold log_file
     | |- never_raises (modify_caches _) => unfold modify_caches
     | |- never_raises _ => solve [auto]
     | _ => fail
     end).

Section Totality.
Variable E : Env.

Lemma never_raises_should_send (d s t : string) : never_raises (should_send E d s t).
Proof. unfold should_send. cbv zeta. total. Qed.

Lemma never_raises_get_emails (d t : string) : never_raises (get_emails E d t).
Proof. unfold get_emails. cbv zeta. total. Qed.

Lemma never_raises_send_email (rs : list string) (subj c : string) (lp : option string) :
  never_raises (send_email E rs subj c lp).
Proof.
  intros w. destruct (send_email_run E rs subj c lp w) as (w' & Hrun & _).
  rewrite Hrun. eexists. reflexivity.
Qed.

Lemma never_raises_queue_for_retry (e : EmailData) (a : Z) :
  never_raises (queue_for_retry E e a).
Proof. unfold queue_for_retry. total. Qed.

Lemma never_raises_rate_limited (l : list Breach) : never_raises (rate_limited E l).
Proof.
  induction l as [|b l IH]; cbn [rate_limited].
  - total.
  - pose proof never_raises_should_send. total.
Qed.

Lemma never_raises_resolve_breaches (d : string) (l : list Breach)
    (acc : list (string * list Breach)) :
  never_raises (resolve_breaches E d l acc).
Proof.
  revert acc. induction l as [|b l IH]; intros acc; cbn [resolve_breaches].
  - total.
  - unfold resolve_breach. total.
Qed.

Lemma never_raises_resolve_devices (l acc : list (string * list Breach)) :
  never_raises (resolve_devices E l acc).
Proof.
  revert acc. induction l as [|entry l IH]; intros acc; cbn [resolve_devices].
  - total.
  - pose proof never_raises_rate_limited.
    unfold resolve_device. total.
Qed.

Lemma never_raises_process_breaches (bs : list Breach) (lp : option string) :
  never_raises (process_breaches E bs lp).
Proof.
  pose proof never_raises_resolve_devices. pose proof never_raises_send_email.
  pose proof never_raises_queue_for_retry.
  unfold process_breaches, send_to_recipient. cbv zeta. total.
Qed.

(** The message of one pass of the sending loop of [process_breaches]. *)
Lemma send_to_recipient_message (log_path : option string)
    (entry : string * list Breach) (w : World) :
  smtp_attempts (exec (send_to_recipient E log_path entry) w)
  = (smtp_attempts w ++
       [{| msg_to := join ","
             (if USE_TEST_EMAIL (cfg E) then [TEST_EMAIL (cfg E)]
              else ([fst entry] ++ LOGGER_EMAILS (cfg E))%list);
           msg_subject := create_email_subject (snd entry);
           msg_content := create_html_content E (snd entry) |}])%list.
Proof.
  destruct entry as [recipient breaches]. cbn [fst snd].
  remember (exec (send_to_recipient E log_path (recipient, breaches)) w) as w1 eqn:Hw1.
  unfold exec, send_to_recipient in Hw1.
  unfold bind at 1 in Hw1.
  assert (Hlog : forall m lp w0, exists w0',
            log_file m lp w0 = (Ok tt, w0')
            /\ smtp_attempts w0' = smtp_attempts w0).
  { intros m lp w0. unfold log_file, log_to_file, modify.
    destruct lp as [p|]; [destruct (String.eqb p "")|]; eexists; repeat split. }
  destruct (Hlog (MsgSendingEmailWith recipient (length breaches)) log_path w)
    as (w0 & Hrun0 & Ha0).
  rewrite Hrun0 in Hw1.
  match type of Hw1 with
  | context [bind (send_email E ?a ?b ?c ?d) _ ?w0] =>
      destruct (send_email_run E a b c d w0) as (w3 & Hrun & Hsent & _)
  end.
  rewrite (bind_ok _ _ _ _ _ Hrun) in Hw1.
  destruct (delivered _); cbn [negb] in Hw1.
  - cbn in Hw1. subst w1. rewrite Hsent, Ha0. reflexivity.
  - unfold queue_for_retry in Hw1. cbn in Hw1. subst w1. cbn.
    rewrite Hsent, Ha0. reflexivity.
Qed.

Lemma sending_loop_envelopes (log_path : option string)
    (emails_to_send : list (string * list Breach)) (w : World) :
  USE_TEST_EMAIL (cfg E) = false ->
  outbox_extends
    (fun m => exists entry, In entry emails_to_send /\ m = normal_envelope E entry)
    w (exec (for_each emails_to_send (send_to_recipient E log_path)) w).
Proof.
  intros Hmode. revert w.
  induction emails_to_send as [|entry l IH]; intros w; cbn [for_each].
  - apply outbox_same. reflexivity.
  - unfold exec. rewrite bind_run.
    pose proof (send_to_recipient_message log_path entry w) as Hsent.
    unfold exec in Hsent. rewrite Hmode in Hsent.
    destruct (send_to_recipient E log_path entry w) as [[[]|e] w1]; cbn [snd] in *.
    + destruct (IH w1) as (new & Hnew & Hall).
      exists ({| msg_to := join "," ([fst entry] ++ LOGGER_EMAILS (cfg E))%list;
                 msg_subject := create_email_subject (snd entry);
                 msg_content := create_html_content E (snd entry) |} :: new).
      split.
      * unfold exec in Hnew. rewrite Hnew, Hsent, <- app_assoc. reflexivity.
      * constructor.
        { exists entry. split; [left; reflexivity | reflexivity]. }
        eapply Forall_impl; [exact Hall|].
        intros m (entry' & Hin & ->). exists entry'. split; [right; exact Hin | reflexivity].
    + eexists. split; [exact Hsent|]. constructor; [|constructor].
      exists entry. split; [left; reflexivity | reflexivity].
Qed.

(** X23.  Outside test mode the envelope is the recipients followed by the
    logger addresses.  [send_email] hands the relay exactly one message,
    whose To header is the recipients it was given, in their order, followed
    by [LOGGER_EMAILS], with the subject and the content it was given.  Every
    message that [process_breaches] hands to the relay is the message of one
    entry of the [emails_to_send] dict it resolved: that recipient, then the
    logger addresses, with the subject and the page of that recipient's
    breaches; this holds of whatever the loop has sent when it ends.  A
    turn of the retry thread on a due head entry hands the relay exactly one
    message: the entry's recipients followed by the logger addresses, with
    the entry's subject and content. *)
Theorem normal_mode_copies_loggers :
  USE_TEST_EMAIL (cfg E) = false ->
  (forall recipients subject content log_path w,
     smtp_attempts (exec (send_email E recipients subject content log_path) w)
     = (smtp_attempts w ++
          [{| msg_to := join "," (recipients ++ LOGGER_EMAILS (cfg E))%list;
              msg_subject := subject; msg_content := content |}])%list)
  /\ (forall breaches log_path w,
        outbox_extends
          (fun m => exists entry,
             In entry (resolved_recipients E breaches log_path w)
             /\ m = normal_envelope E entry)
          w (exec (process_breaches E breaches log_path) w))
  /\ (forall w e rest next_try,
        retry_queue w = e :: rest ->
        ed_next_try e = Some next_try ->
        py_gt next_try (clock E (ticks w)) = false ->
        smtp_attempts (exec (retry_job_turn E) w)
        = (smtp_attempts w ++
             [{| msg_to := join "," (ed_recipients e ++ LOGGER_EMAILS (cfg E))%list;
                 msg_subject := ed_subject e;
                 msg_content := ed_content e |}])%list).
Proof.
  intros Hmode. split; [|split].
  - intros recipients subject content log_path w.
    destruct (send_email_run E recipients subject content log_path w)
      as (w' & Hrun & Hsent & _).
    unfold exec. rewrite Hrun. cbn [snd]. rewrite Hmode in Hsent. exact Hsent.
  - intros breaches log_path w.
    unfold resolved_recipients, process_breaches. unfold exec, eval.
    assert (Hlog : exists wa, log_file MsgInsideProcessBreaches log_path w = (Ok (), wa)
                              /\ smtp_attempts wa = smtp_attempts w).
    { unfold log_file, log_to_file, modify.
      destruct log_path as [p|]; [destruct (String.eqb p "")|]; eexists; split; reflexivity. }
    destruct Hlog as (wa & Hlog & Hsame_a).
    rewrite !(bind_ok _ _ _ _ _ Hlog).
    set (w0 := set_log (log wa ++ [Logged INFO (MsgProcessingBreaches (length breaches))]) wa).
    assert (Hinfo : logger INFO (MsgProcessingBreaches (length breaches)) wa = (Ok (), w0))
      by reflexivity.
    rewrite !(bind_ok _ _ _ _ _ Hinfo). cbv zeta.
    destruct (never_raises_resolve_devices (group_by_device breaches) [] w0)
      as [emails Hres].
    destruct (outbox_resolve_devices E (fun _ => False) (group_by_device breaches) [] w0)
      as (none & Hsame1 & Hnone).
    unfold exec in Hsame1.
    destruct (resolve_devices E (group_by_device breaches) [] w0) as [r w1] eqn:Hrun.
    cbn [fst snd] in Hres, Hsame1 |- *. subst r.
    destruct none as [|m none]; [|inversion Hnone as [|? ? []]].
    rewrite app_nil_r in Hsame1.
    assert (Hsame : smtp_attempts w1 = smtp_attempts w)
      by (rewrite Hsame1; exact Hsame_a).
    rewrite (bind_ok _ _ _ _ _ Hrun).
    destruct emails as [|entry emails].
    + apply outbox_same. cbn. exact Hsame.
    + set (l := entry :: emails).
      set (w2 := set_log (log w1 ++ [Logged INFO (MsgSendingEmails (length l))]) w1).
      assert (Hinfo2 : logger INFO (MsgSendingEmails (length l)) w1 = (Ok (), w2))
        by reflexivity.
      rewrite (bind_ok _ _ _ _ _ Hinfo2).
      destruct (sending_loop_envelopes log_path l w2 Hmode) as (new & Hnew & Hall).
      exists new. split; [|exact Hall].
      unfold exec in Hnew. rewrite Hnew. cbn [smtp_attempts w2 set_log].
      subst w2. cbn [smtp_attempts set_log]. rewrite Hsame. reflexivity.
  - intros w e rest next_try Hq Hnt Hdue.
    destruct (retry_job_turn_cases E w) as [_ H]. cbv zeta in H.
    rewrite Hq, Hnt, Hdue, Hmode in H. destruct H as [H _]. exact H.
Qed.


End Totality.

Lemma normal_mode_copies_loggers_witness :
  let E := example_env false 20 Delivered in
  let b := example_breach "red" 30 in
  USE_TEST_EMAIL (cfg E) = false
  /\ smtp_attempts (exec (send_email E ["ops@example.com"] "subject" "content" None)
                      initial_world)
     = [{| msg_to := join "," (["ops@example.com"] ++ LOGGER_EMAILS (cfg E))%list;
           msg_subject := "subject"; msg_content := "content" |}]
  /\ resolved_recipients E [b] None initial_world
     = [("sudhamshusuri.2015@gmail.com", [b])]
  /\ outbox_extends
       (fun m => m = normal_envelope E ("sudhamshusuri.2015@gmail.com", [b]))
       initial_world (exec (process_breaches E [b] None) initial_world).
Proof.
  intros E b.
  assert (H : USE_TEST_EMAIL (cfg E) = false) by reflexivity.
  destruct (normal_mode_copies_loggers E H) as (Hsend & Hbatch & _).
  assert (Hres : resolved_recipients E [b] None initial_world
                 = [("sudhamshusuri.2015@gmail.com", [b])]) by (vm_compute; reflexivity).
  split; [exact H|]. split; [apply (Hsend _ _ _ None initial_world)|].
  split; [exact Hres|].
  destruct (Hbatch [b] None initial_world) as (new & Hnew & Hall).
  exists new. split; [exact Hnew|].
  eapply Forall_impl; [exact Hall|].
  intros m (entry & Hin & ->). rewrite Hres in Hin.
  destruct Hin as [<- | []]. reflexivity.
Defined.

(** ** The queue manager and the entry point *)

Lemma take_batch_breaches (bs : list Breach) (rest : list (option Breach)) :
  take_batch (map Some bs ++ None :: rest) = Some (bs, rest).
Proof.
  induction bs as [|b bs IH]; cbn [map app take_batch]; [reflexivity|].
  rewrite IH. reflexivity.
Qed.

(** X25.  [add_red_breach] and [add_warning_breach] never fail and touch
    their own queue and mark only.  On a full queue the breach is discarded,
    the error is logged and nothing else changes; otherwise the breach goes to
    the tail of the queue and the high-water mark becomes the larger of its
    old value and the new size. *)
Theorem add_to_queue_spec (q : QueueRef) (b : Breach) (p : Process) :
  let items := queue_of q (queue_manager (world p)) in
  let run := add_to_queue q b p in
  fst run = Ok ()
  /\ queue_of (other_queue q) (queue_manager (world (snd run)))
     = queue_of (other_queue q) (queue_manager (world p))
  /\ high_water_mark (other_queue q) (snd run) = high_water_mark (other_queue q) p
  /\ (if is_full items then
        world (snd run) = world p
        /\ high_water_mark q (snd run) = high_water_mark q p
        /\ notes (snd run)
           = (notes p ++ [Noted ERROR (NoteQueueFull (channel_title q))])%list
      else
        queue_of q (queue_manager (world (snd run))) = (items ++ [Some b])%list
        /\ high_water_mark q (snd run)
           = Z.max (high_water_mark q p) (Z.of_nat (length items) + 1)).
Proof.
  cbv zeta. remember (add_to_queue q b p) as run eqn:Hrun.
  unfold add_to_queue, ptry_except_full in Hrun.
  unfold pbind at 1 in Hrun. unfold lift at 1 in Hrun.
  unfold put_nowait, bind, get_world, raise, modify in Hrun.
  cbv beta iota zeta in Hrun.
  destruct (is_full (queue_of q (queue_manager (world p)))) eqn:Hfull.
  - cbv beta iota in Hrun. subst run. destruct q; repeat split.
  - cbv beta iota in Hrun. unfold pbind at 1 in Hrun. unfold pget at 1 in Hrun.
    cbv beta iota in Hrun.
    cbn [world set_world queue_manager set_queue_manager] in Hrun.
    assert (Hlen : Z.of_nat (length (queue_of q
                     (set_queue q (queue_of q (queue_manager (world p)) ++ [Some b])
                        (queue_manager (world p)))))
                   = (Z.of_nat (length (queue_of q (queue_manager (world p)))) + 1)%Z).
    { destruct q; cbn [queue_of set_queue red_queue warning_queue];
        rewrite length_app; cbn [length]; lia. }
    rewrite Hlen in Hrun.
    assert (Hmark : forall p0, high_water_mark q (set_world p0 p) = high_water_mark q p)
      by (intros; destruct q; reflexivity).
    rewrite Hmark in Hrun.
    destruct (Z.ltb_spec (high_water_mark q p)
                (Z.of_nat (length (queue_of q (queue_manager (world p)))) + 1)) as [Hlt|Hge].
    + unfold pbind at 1 in Hrun. unfold pmodify at 1 in Hrun. cbv beta iota in Hrun.
      destruct (py_gt _ _); subst run; clear Hlen Hmark Hfull;
        (destruct q; cbn in *; repeat split; lia).
    + subst run. clear Hlen Hmark Hfull. destruct q; cbn in *; repeat split; lia.
Qed.

Lemma set_world_world (p : Process) : set_world (world p) p = p.
Proof. destruct p. reflexivity. Qed.

Lemma drain_turn_run (q : QueueRef) (channel : string) (interval : Z)
    (process_func : list Breach -> string -> Proc unit) (bs : list Breach) (p : Process) :
  queue_of q (queue_manager (world p)) = map Some bs ->
  drain_turn q channel interval process_func p
  = if is_full (map Some bs) then (Ok Blocked, p)
    else match bs with
         | [] => (Ok Completed, with_queue q [] p)
         | _ =>
             let p1 := set_notes
                         (notes p ++ [Noted INFO (NoteDraining (length bs) channel)])
                         (with_queue q [] p) in
             match process_func bs channel p1 with
             | (Ok _, p2) => (Ok Completed, p2)
             | (Raise e, p2) =>
                 (Ok Completed,
                  set_notes
                    (notes p2 ++ [Noted ERROR (NoteDrainError channel e);
                                  Noted ERROR NoteTraceback])%list p2)
             end
         end.
Proof.
  intros Hq. unfold drain_turn, ptry_except.
  unfold pbind at 1. unfold pget at 1. cbv beta iota zeta. rewrite Hq.
  destruct (is_full (map Some bs)); [reflexivity|].
  change [None] with (None :: @nil (option Breach)).
  rewrite take_batch_breaches.
  unfold pbind at 1. unfold pmodify at 1. cbv beta iota.
  fold (with_queue q [] p).
  destruct bs as [|b bs'].
  - unfold pbind, pret, lift, time_sleep, ret. cbv beta iota zeta.
    rewrite set_world_world. reflexivity.
  - unfold pbind at 1. unfold pbind at 1. unfold note at 1. unfold pmodify at 1.
    cbv beta iota.
    change (notes (with_queue q [] p)) with (notes p).
    destruct (process_func (b :: bs') channel _) as [[[]|e] p2].
    + unfold pbind, pret, lift, time_sleep, ret. cbv beta iota zeta.
      rewrite set_world_world. reflexivity.
    + unfold pbind, pret, note, pmodify. cbv beta iota zeta.
      cbn [notes set_notes]. rewrite <- app_assoc. destruct p2. reflexivity.
Qed.

Section Workers.
Variable E : Env.

Lemma classifier_state_send_email (rs : list string) (subj c : string) (lp : option string) :
  preserves same_dsm_and_queues (send_email E rs subj c lp).
Proof. unfold send_email. cbv zeta. frame ltac:(split; reflexivity). Qed.

Lemma classifier_state_rate_limited (l : list Breach) :
  preserves same_dsm_and_queues (rate_limited E l).
Proof.
  induction l as [|b l IH]; cbn [rate_limited].
  - frame ltac:(split; reflexivity).
  - unfold should_send. frame ltac:(split; reflexivity).
Qed.

Lemma classifier_state_resolve_breaches (d : string) (l : list Breach)
    (acc : list (string * list Breach)) :
  preserves same_dsm_and_queues (resolve_breaches E d l acc).
Proof.
  revert acc. induction l as [|b l IH]; intros acc; cbn [resolve_breaches].
  - frame ltac:(split; reflexivity).
  - unfold resolve_breach, get_emails. frame ltac:(split; reflexivity).
Qed.

Lemma classifier_state_resolve_devices (l acc : list (string * list Breach)) :
  preserves same_dsm_and_queues (resolve_devices E l acc).
Proof.
  revert acc. induction l as [|entry l IH]; intros acc; cbn [resolve_devices].
  - frame ltac:(split; reflexivity).
  - pose proof classifier_state_rate_limited. pose proof classifier_state_resolve_breaches.
    unfold resolve_device. frame ltac:(split; reflexivity).
Qed.

Lemma classifier_state_process_breaches (bs : list Breach) (lp : option string) :
  preserves same_dsm_and_queues (process_breaches E bs lp).
Proof.
  pose proof classifier_state_resolve_devices. pose proof classifier_state_send_email.
  unfold process_breaches, send_to_recipient, queue_for_retry.
  frame ltac:(split; reflexivity).
Qed.

Lemma classifier_state_retry_job (n : nat) :
  preserves same_dsm_and_queues (retry_job E n).
Proof.
  induction n as [|n IH]; cbn [retry_job].
  - frame ltac:(split; reflexivity).
  - pose proof classifier_state_send_email.
    unfold retry_job_turn, queue_for_retry. frame ltac:(split; reflexivity).
Qed.

Lemma pfor_each_notes {A} (l : list A) (body : A -> Proc unit) (f : A -> Note)
    (path : string) (p : Process) :
  (forall x, body x = note_to_file (f x) path) ->
  pfor_each l body p
  = (Ok (), set_notes (notes p ++ map (fun x => NotedToFile path (f x)) l) p).
Proof.
  intros Hbody. revert p. induction l as [|x l IH]; intros p; cbn [pfor_each map].
  - unfold pret. rewrite app_nil_r. destruct p. reflexivity.
  - rewrite Hbody. unfold pbind, note_to_file at 1, pmodify. rewrite IH.
    cbn [notes set_notes]. rewrite <- app_assoc. destruct p. reflexivity.
Qed.

Lemma main_process_breaches_run (bs : list Breach) (breach_type : string) (p : Process) :
  let log_path := if String.eqb breach_type "red" then "red.log" else "non_red.log" in
  let announced :=
    (notes p
       ++ [Noted INFO (NoteProcessing (length bs) breach_type);
           NotedToFile log_path (NoteProcessing (length bs) breach_type)]
       ++ map (fun ib : nat * Breach =>
                 NotedToFile log_path
                   (NoteBreach (fst ib + 1) (b_device_id (snd ib)) (b_sensor_id (snd ib))
                      (b_threshold_type (snd ib))))
            (enumerate 0 bs))%list in
  main_process_breaches E bs breach_type p
  = (Ok (),
     set_world (exec (process_breaches E bs (Some log_path)) (world p))
       (set_notes announced p)).
Proof.
  cbv zeta. unfold main_process_breaches. cbv zeta.
  set (log_path := if String.eqb breach_type "red" then "red.log" else "non_red.log").
  unfold pbind at 1. unfold note at 1. unfold pmodify at 1. cbv beta iota.
  unfold pbind at 1. unfold note_to_file at 1. unfold pmodify at 1. cbv beta iota.
  unfold pbind at 1.
  rewrite (pfor_each_notes (enumerate 0 bs) _
             (fun ib => NoteBreach (fst ib + 1) (b_device_id (snd ib))
                          (b_sensor_id (snd ib)) (b_threshold_type (snd ib)))
             log_path) by (intros [i b]; reflexivity).
  unfold lift. cbn [world set_notes notes].
  destruct (never_raises_process_breaches E bs (Some log_path) (world p)) as [[] Hok].
  unfold exec.
  destruct (process_breaches E bs (Some log_path) (world p)) as [r w'].
  cbn [fst snd] in *. subst r. rewrite <- !app_assoc. destruct p. reflexivity.
Qed.

(** X26.  One turn of a drainer on a queue that holds breaches only.  On a
    full queue the turn waits in the [put] of its batch marker and nothing
    changes.  Otherwise the turn completes: the queue is emptied, and the
    breaches, if there are any, are handed to [process_func] in queue order;
    if [process_func] raises, the error is logged and the batch is gone. *)
Theorem drain_turn_spec (q : QueueRef) (channel : string) (interval : Z)
    (process_func : list Breach -> string -> Proc unit) (bs : list Breach) (p : Process) :
  queue_of q (queue_manager (world p)) = map Some bs ->
  let run := drain_turn q channel interval process_func p in
  let handed_over :=
    set_notes (notes p ++ [Noted INFO (NoteDraining (length bs) channel)])
      (with_queue q [] p) in
  (is_full (map Some bs) = true -> run = (Ok Blocked, p))
  /\ (is_full (map Some bs) = false ->
      fst run = Ok Completed
      /\ (bs = [] -> snd run = with_queue q [] p)
      /\ (bs <> [] ->
          forall p2,
            (process_func bs channel handed_over = (Ok (), p2) -> snd run = p2)
            /\ (forall e,
                  process_func bs channel handed_over = (Raise e, p2) ->
                  snd run
                  = set_notes
                      (notes p2 ++ [Noted ERROR (NoteDrainError channel e);
                                    Noted ERROR NoteTraceback])%list p2))).
Proof.
  intros Hq run handed_over. subst run.
  rewrite (drain_turn_run q channel interval process_func bs p Hq).
  split; [intros ->; reflexivity|]. intros ->.
  destruct bs as [|b bs'].
  - split; [reflexivity|]. split; [reflexivity | congruence].
  - cbv zeta. fold handed_over.
    destruct (process_func (b :: bs') channel handed_over) as [[[]|e] p2'] eqn:Hf.
    + split; [reflexivity|]. split; [discriminate|]. intros _ p2. split.
      * intros H. injection H as <-. reflexivity.
      * intros e H. discriminate.
    + split; [reflexivity|]. split; [discriminate|]. intros _ p2. split.
      * intros H. discriminate.
      * intros e' H. injection H as <- <-. reflexivity.
Qed.

(** X27.  A drainer turn with the entry point's [process_breaches] closure
    as its [process_func]: the queued batch reaches the notifier's
    [process_breaches] whole and in order, with log path ["red.log"] from the
    critical queue and ["non_red.log"] from the warning queue; the drained
    queue is left empty, and the device states and the marks are as before. *)
Theorem worker_turn_hands_batch_to_notifier (q : QueueRef) (interval : Z)
    (bs : list Breach) (p : Process) :
  bs <> [] ->
  queue_of q (queue_manager (world p)) = map Some bs ->
  is_full (map Some bs) = false ->
  let worker :=
    match q with
    | RedQueue => process_red_breaches
    | WarningQueue => process_warning_breaches
    end in
  let log_path :=
    match q with
    | RedQueue => "red.log"
    | WarningQueue => "non_red.log"
    end in
  let run := worker interval (main_process_breaches E) p in
  fst run = Ok Completed
  /\ world (snd run)
     = exec (process_breaches E bs (Some log_path)) (world (with_queue q [] p))
  /\ queue_manager (world (snd run)) = set_queue q [] (queue_manager (world p))
  /\ device_state_manager (world (snd run)) = device_state_manager (world p)
  /\ high_water_mark RedQueue (snd run) = high_water_mark RedQueue p
  /\ high_water_mark WarningQueue (snd run) = high_water_mark WarningQueue p.
Proof.
  intros Hne Hq Hfull worker log_path run.
  assert (Hrun : exists channel,
            run = drain_turn q channel interval (main_process_breaches E) p
            /\ (if String.eqb channel "red" then "red.log" else "non_red.log") = log_path).
  { destruct q; eexists; split; reflexivity. }
  destruct Hrun as (channel & Hrun & Hpath). clearbody run. subst run.
  rewrite (drain_turn_run q channel interval _ bs p Hq), Hfull.
  destruct bs as [|b bs']; [congruence|]. cbv zeta.
  rewrite main_process_breaches_run. cbv zeta. rewrite Hpath.
  cbn [fst snd world set_world set_notes].
  pose proof (classifier_state_process_breaches (b :: bs') (Some log_path)
                (world (with_queue q [] p))) as [Hdsm Hqm].
  split; [reflexivity|]. split; [reflexivity|].
  split; [exact Hqm|]. split; [exact Hdsm|]. split; reflexivity.
Qed.

(** X28.  [threshold_check_wrapper] never fails: it logs the device and runs
    [run_threshold_check] on the queue manager's two queues.  The classifier
    puts on the queues directly, so the high-water marks are not moved. *)
Theorem threshold_check_wrapper_spec (data : Event) (p : Process) :
  let run := threshold_check_wrapper E data p in
  fst run = Ok ()
  /\ world (snd run)
     = exec (run_threshold_check E data RedQueue WarningQueue) (world p)
  /\ high_water_mark RedQueue (snd run) = high_water_mark RedQueue p
  /\ high_water_mark WarningQueue (snd run) = high_water_mark WarningQueue p
  /\ notes (snd run)
     = (notes p ++ [Noted DEBUG (NoteProcessingData (ev_device_id data))])%list.
Proof.
  cbv zeta. unfold threshold_check_wrapper, ptry_except, pbind, note, pmodify, lift.
  cbn [world set_notes]. unfold exec.
  pose proof (try_except_logged
                (check_thresholds_against_data E (ev_device_id data) (ev_readings data)
                   (ev_time data) RedQueue WarningQueue)
                ERROR MsgErrorInThresholdCheck (world p)) as Hok.
  fold (run_threshold_check E data RedQueue WarningQueue) in Hok.
  destruct (run_threshold_check E data RedQueue WarningQueue (world p)) as [r w'].
  cbn [fst] in Hok. subst r. repeat split.
Qed.
End Workers.

Lemma drain_turn_spec_witness :
  let b := example_breach "red" 30 in
  let p := with_queue RedQueue [Some b] initial_process in
  let failing := fun (_ : list Breach) (_ : string) (p : Process) =>
                   (Raise (A := unit) TypeError, p) in
  queue_of RedQueue (queue_manager (world p)) = map Some [b]
  /\ fst (drain_turn RedQueue "red" 1 failing p) = Ok Completed
  /\ queue_of RedQueue (queue_manager (world (snd (drain_turn RedQueue "red" 1 failing p))))
     = [].
Proof.
  intros b p failing.
  assert (Hq : queue_of RedQueue (queue_manager (world p)) = map Some [b]) by reflexivity.
  split; [exact Hq|].
  destruct (drain_turn_spec RedQueue "red" 1 failing [b] p Hq) as [_ H].
  destruct (H eq_refl) as (Hres & _ & Hfail).
  split; [exact Hres|].
  destruct (Hfail ltac:(discriminate)
              (set_notes (notes p ++ [Noted INFO (NoteDraining 1 "red")])
                 (with_queue RedQueue [] p))) as [_ Hraise].
  rewrite (Hraise TypeError eq_refl). reflexivity.
Defined.

Lemma worker_turn_hands_batch_to_notifier_witness :
  let E := example_env false 20 Delivered in
  let b := example_breach "red" 30 in
  let p := with_queue RedQueue [Some b] initial_process in
  let run := process_red_breaches 1 (main_process_breaches E) p in
  [b] <> []
  /\ fst run = Ok Completed
  /\ world (snd run)
     = exec (process_breaches E [b] (Some "red.log")) (world (with_queue RedQueue [] p)).
Proof.
  intros E b p run.
  assert (Hne : [b] <> []) by discriminate.
  split; [exact Hne|].
  destruct (worker_turn_hands_batch_to_notifier E RedQueue 1 [b] p Hne eq_refl eq_refl)
    as (H1 & H2 & _).
  split; [exact H1 | exact H2].
Defined.

(** ** The order of the rows of a page *)

Lemma raw_eqb_eq (a b : raw) : raw_eqb a b = true <-> a = b.
Proof.
  destruct a as [s1|n1|], b as [s2|n2|]; cbn; try (split; [discriminate|congruence]).
  - rewrite String.eqb_eq. split; congruence.
  - rewrite Z.eqb_eq. split; congruence.
  - tauto.
Qed.

Lemma ordering_string : ordering String.compare.
Proof.
  split.
  - intros a b. split; [apply String.compare_eq_iff|].
    intros ->. pose proof (String.compare_antisym b b) as H.
    destruct (String.compare b b); [reflexivity | discriminate | discriminate].
  - intros a b. apply String.compare_antisym.
  - intros a b d H1 H2.
    apply String_as_OT.cmp_lt. apply String_as_OT.cmp_lt in H1, H2.
    eapply String_as_OT.lt_trans; eassumption.
Qed.

Lemma ordering_raw : ordering raw_compare.
Proof.
  destruct ordering_string as [eqS antiS transS]. split.
  - intros [s1|n1|] [s2|n2|]; cbn; try (split; [discriminate|congruence]).
    + rewrite eqS. split; congruence.
    + rewrite Z.compare_eq_iff. split; congruence.
    + tauto.
  - intros [s1|n1|] [s2|n2|]; cbn; try reflexivity.
    + apply antiS.
    + apply Z.compare_antisym.
  - intros [s1|n1|] [s2|n2|] [s3|n3|]; cbn; try discriminate; try reflexivity.
    + apply transS.
    + rewrite !Z.compare_lt_iff. lia.
Qed.

Lemma ordering_lex : ordering lex_compare.
Proof.
  destruct ordering_raw as [eqR antiR transR]. split.
  - intros a. induction a as [|x a IH]; intros [|y b]; cbn;
      try (split; [discriminate|congruence]); [tauto|].
    destruct (raw_compare x y) eqn:Hxy.
    + apply eqR in Hxy. subst y. rewrite IH. split; congruence.
    + split; [discriminate|]. intros H. injection H as -> ->.
      rewrite (proj2 (eqR y y) eq_refl) in Hxy. discriminate.
    + split; [discriminate|]. intros H. injection H as -> ->.
      rewrite (proj2 (eqR y y) eq_refl) in Hxy. discriminate.
  - intros a. induction a as [|x a IH]; intros [|y b]; cbn; try reflexivity.
    rewrite (antiR x y). destruct (raw_compare x y); cbn; [apply IH | reflexivity..].
  - intros a. induction a as [|x a IH]; intros [|y b] [|z d]; cbn;
      try discriminate; try reflexivity.
    destruct (raw_compare x y) eqn:Hxy.
    + apply eqR in Hxy. subst y.
      destruct (raw_compare x z); try discriminate; [apply IH | reflexivity].
    + intros _. destruct (raw_compare y z) eqn:Hyz; try discriminate.
      * apply eqR in Hyz. subst z. rewrite Hxy. reflexivity.
      * intros _. rewrite (transR _ _ _ Hxy Hyz). reflexivity.
    + discriminate.
Qed.

(** Where [<] is defined it is the order above. *)
Lemma raw_lt_compare (a b : raw) (r : bool) :
  raw_lt a b = Some r ->
  r = match raw_compare a b with Lt => true | _ => false end.
Proof.
  destruct a as [s1|n1|], b as [s2|n2|]; cbn; try discriminate.
  - intros H. injection H as <-. reflexivity.
  - intros H. injection H as <-. unfold Z.ltb. reflexivity.
Qed.

Lemma tuple_lt_compare (a b : list raw) (r : bool) :
  tuple_lt a b = Some r ->
  r = match lex_compare a b with Lt => true | _ => false end.
Proof.
  revert b. induction a as [|x a IH]; intros [|y b]; cbn.
  - intros H. injection H as <-. reflexivity.
  - intros H. injection H as <-. reflexivity.
  - intros H. injection H as <-. reflexivity.
  - destruct (raw_eqb x y) eqn:Hxy.
    + apply raw_eqb_eq in Hxy. subst y.
      rewrite (proj2 (ordering_eq _ ordering_raw x x) eq_refl). apply IH.
    + intros H. pose proof (raw_lt_compare x y r H) as Hr.
      destruct (raw_compare x y) eqn:Hc; [|exact Hr..].
      apply (ordering_eq _ ordering_raw) in Hc. subst y.
      rewrite (proj2 (raw_eqb_eq x x) eq_refl) in Hxy. discriminate.
Qed.

Lemma raw_lt_defined_sym (a b : raw) : is_Some (raw_lt a b) -> is_Some (raw_lt b a).
Proof. destruct a, b; cbn; intros [r H]; try discriminate; eauto. Qed.

Lemma raw_eqb_sym (a b : raw) : raw_eqb a b = raw_eqb b a.
Proof.
  destruct (raw_eqb a b) eqn:H1, (raw_eqb b a) eqn:H2; try reflexivity.
  - apply raw_eqb_eq in H1. subst b. rewrite (proj2 (raw_eqb_eq a a) eq_refl) in H2.
    discriminate.
  - apply raw_eqb_eq in H2. subst b. rewrite (proj2 (raw_eqb_eq a a) eq_refl) in H1.
    discriminate.
Qed.

Lemma tuple_lt_defined_sym (a b : list raw) :
  is_Some (tuple_lt a b) -> is_Some (tuple_lt b a).
Proof.
  revert b. induction a as [|x a IH]; intros [|y b]; cbn; eauto.
  rewrite (raw_eqb_sym y x). destruct (raw_eqb x y); [apply IH | apply raw_lt_defined_sym].
Qed.

Lemma tuple_lt_refl (a : list raw) : tuple_lt a a = Some false.
Proof.
  induction a as [|x a IH]; cbn; [reflexivity|].
  rewrite (proj2 (raw_eqb_eq x x) eq_refl). exact IH.
Qed.

Lemma comparable_sym (a b : BreachDict) : comparable a b = true -> comparable b a = true.
Proof.
  unfold comparable, key_lt. intros H.
  destruct (tuple_lt_defined_sym (sort_key a) (sort_key b)) as [r ->]; [|reflexivity].
  destruct (tuple_lt (sort_key a) (sort_key b)); [eauto | discriminate].
Qed.

Lemma comparable_refl (a : BreachDict) : comparable a a = true.
Proof. unfold comparable, key_lt. rewrite tuple_lt_refl. reflexivity. Qed.

(** All pairs, in both orders. *)
Lemma all_comparable_pairs (l : list BreachDict) :
  all_comparable l = true <-> (forall a b, In a l -> In b l -> comparable a b = true).
Proof.
  induction l as [|x l IH]; cbn [all_comparable].
  - split; [intros _ a b [] | reflexivity].
  - rewrite andb_true_iff, forallb_forall, IH. split.
    + intros [Hx Hl] a b [<-|Ha] [<-|Hb].
      * apply comparable_refl.
      * apply Hx, Hb.
      * apply comparable_sym, Hx, Ha.
      * apply Hl; assumption.
    + intros H. split.
      * intros b Hb. apply H; [left; reflexivity | right; exact Hb].
      * intros a b Ha Hb. apply H; right; assumption.
Qed.

Lemma all_comparable_perm (l l' : list BreachDict) :
  Permutation l l' -> all_comparable l = true -> all_comparable l' = true.
Proof.
  intros Hp. rewrite !all_comparable_pairs. intros H a b Ha Hb.
  apply H; eapply Permutation_in; try eassumption; symmetry; exact Hp.
Qed.

Lemma key_le_of_equal_keys (a b : BreachDict) : sort_key a = sort_key b -> key_le a b = true.
Proof. intros H. unfold key_le, key_lt. rewrite H, tuple_lt_refl. reflexivity. Qed.

Lemma key_le_compare (a b : BreachDict) :
  comparable a b = true ->
  key_le a b = match lex_compare (sort_key a) (sort_key b) with Gt => false | _ => true end.
Proof.
  intros H. apply comparable_sym in H. unfold comparable in H. unfold key_le.
  destruct (key_lt b a) as [r|] eqn:Hr; [|discriminate].
  unfold key_lt in Hr. apply tuple_lt_compare in Hr. subst r.
  rewrite (ordering_antisym _ ordering_lex (sort_key a) (sort_key b)).
  destruct (lex_compare (sort_key a) (sort_key b)); reflexivity.
Qed.

Lemma key_le_total (a b : BreachDict) :
  comparable a b = true -> key_le a b = false -> key_le b a = true.
Proof.
  intros H. rewrite (key_le_compare a b H), (key_le_compare b a (comparable_sym _ _ H)).
  rewrite (ordering_antisym _ ordering_lex (sort_key a) (sort_key b)).
  destruct (lex_compare (sort_key a) (sort_key b)); cbn; congruence.
Qed.

Lemma key_le_trans (a b d : BreachDict) :
  comparable a b = true -> comparable b d = true -> comparable a d = true ->
  key_le a b = true -> key_le b d = true -> key_le a d = true.
Proof.
  intros Hab Hbd Had.
  rewrite (key_le_compare a b Hab), (key_le_compare b d Hbd), (key_le_compare a d Had).
  destruct (lex_compare (sort_key a) (sort_key b)) eqn:H1; try discriminate;
    destruct (lex_compare (sort_key b) (sort_key d)) eqn:H2; try discriminate;
    intros _ _.
  - apply (ordering_eq _ ordering_lex) in H1. rewrite H1, H2. reflexivity.
  - apply (ordering_eq _ ordering_lex) in H1. rewrite H1, H2. reflexivity.
  - apply (ordering_eq _ ordering_lex) in H2. rewrite <- H2, H1. reflexivity.
  - rewrite (ordering_trans _ ordering_lex _ _ _ H1 H2). reflexivity.
Qed.

Lemma key_le_in_order (a b : BreachDict) :
  comparable a b = true -> key_le a b = true -> key_lt b a = Some false.
Proof.
  intros H. apply comparable_sym in H. unfold comparable in H. unfold key_le.
  destruct (key_lt b a) as [[]|]; [discriminate | reflexivity | discriminate].
Qed.

Lemma insert_by_key_perm (x : BreachDict) (l : list BreachDict) :
  Permutation (insert_by_key x l) (x :: l).
Proof.
  induction l as [|y l IH]; cbn [insert_by_key]; [reflexivity|].
  destruct (key_le x y); [reflexivity|].
  rewrite IH. apply perm_swap.
Qed.

Lemma sort_perm (l : list BreachDict) : Permutation (fold_right insert_by_key [] l) l.
Proof.
  induction l as [|x l IH]; cbn [fold_right]; [reflexivity|].
  rewrite insert_by_key_perm. constructor. exact IH.
Qed.

Lemma insert_by_key_in_order (x : BreachDict) (l : list BreachDict) :
  all_comparable (x :: l) = true -> in_order l -> in_order (insert_by_key x l).
Proof.
  unfold in_order. rewrite all_comparable_pairs.
  induction l as [|y l IH]; intros Hc Hl; cbn [insert_by_key].
  - repeat constructor.
  - apply StronglySorted_inv in Hl as [Hl Hy].
    assert (Hxy : comparable x y = true) by (apply Hc; cbn; auto).
    destruct (key_le x y) eqn:Hle.
    + constructor; [constructor; assumption|].
      constructor; [apply key_le_in_order; assumption|].
      rewrite Forall_forall in Hy |- *. intros z Hz.
      assert (Hlt : key_lt z y = Some false) by (apply Hy, Hz).
      apply list_elem_of_In in Hz.
      assert (Hyz : comparable y z = true) by (apply Hc; cbn; auto).
      assert (Hxz : comparable x z = true) by (apply Hc; cbn; auto).
      apply key_le_in_order; [exact Hxz|].
      apply (key_le_trans x y z Hxy Hyz Hxz Hle).
      unfold key_le. rewrite Hlt. reflexivity.
    + constructor.
      * apply IH; [|exact Hl]. intros a b Ha Hb. apply Hc; cbn in *; tauto.
      * rewrite insert_by_key_perm.
        constructor; [|exact Hy].
        apply key_le_in_order; [apply comparable_sym, Hxy|].
        apply key_le_total; assumption.
Qed.

Lemma sort_in_order (l : list BreachDict) :
  all_comparable l = true -> in_order (fold_right insert_by_key [] l).
Proof.
  induction l as [|x l IH]; intros Hc; cbn [fold_right]; [constructor|].
  assert (Hl : all_comparable l = true).
  { cbn [all_comparable] in Hc. apply andb_true_iff in Hc. tauto. }
  apply insert_by_key_in_order; [|apply IH, Hl].
  apply (all_comparable_perm (x :: l)); [|exact Hc].
  constructor. symmetry. apply sort_perm.
Qed.

Lemma insert_by_key_stable (key : list raw) (x : BreachDict) (l : list BreachDict) :
  with_key key (insert_by_key x l) = with_key key (x :: l).
Proof.
  unfold with_key. induction l as [|y l IH]; cbn [insert_by_key]; [reflexivity|].
  destruct (key_le x y) eqn:Hxy; [reflexivity|].
  cbn [List.filter] in *. rewrite IH.
  destruct (bool_decide (sort_key x = key)) eqn:Hx; [|reflexivity].
  destruct (bool_decide (sort_key y = key)) eqn:Hy; [|reflexivity].
  apply bool_decide_eq_true_1 in Hx, Hy.
  rewrite key_le_of_equal_keys in Hxy by congruence. discriminate.
Qed.

Lemma sort_stable (key : list raw) (l : list BreachDict) :
  with_key key (fold_right insert_by_key [] l) = with_key key l.
Proof.
  induction l as [|x l IH]; cbn [fold_right]; [reflexivity|].
  rewrite insert_by_key_stable. unfold with_key in *. cbn [List.filter].
  rewrite IH. reflexivity.
Qed.

Lemma sort_fixpoint (l : list BreachDict) : in_order l -> fold_right insert_by_key [] l = l.
Proof.
  unfold in_order. induction l as [|x l IH]; intros Hl; [reflexivity|].
  apply StronglySorted_inv in Hl as [Hl Hx]. cbn [fold_right].
  rewrite (IH Hl). destruct l as [|y l]; [reflexivity|]. cbn [insert_by_key].
  apply Forall_cons in Hx as [Hy _]. unfold key_le. rewrite Hy. reflexivity.
Qed.

Lemma tuple_lt_strings (a b : list raw) :
  Forall (fun v => exists s, v = RawStr s) a ->
  Forall (fun v => exists s, v = RawStr s) b ->
  is_Some (tuple_lt a b).
Proof.
  intros Ha. revert b. induction Ha as [|x a [s ->] Ha IH]; intros b Hb.
  - destruct b; cbn; eauto.
  - destruct Hb as [|y b [s' ->] Hb]; cbn; [eauto|].
    destruct (String.eqb s s'); [apply IH, Hb | eauto].
Qed.

Lemma all_comparable_strings (bs : list Breach) :
  all_comparable (map dict_of_breach bs) = true.
Proof.
  apply all_comparable_pairs. intros a b Ha Hb.
  apply in_map_iff in Ha as (a0 & <- & _). apply in_map_iff in Hb as (b0 & <- & _).
  unfold comparable, key_lt.
  destruct (tuple_lt_strings (sort_key (dict_of_breach a0)) (sort_key (dict_of_breach b0)))
    as [r ->]; [| |reflexivity]; cbn; repeat constructor; eauto.
Qed.

(** Integer timestamps are listed by value, 9 before 10; as strings "10"
    comes before "9"; a batch that mixes the two is not rendered. *)
Lemma sorted_breaches_examples :
  let row := fun timestamp =>
    {| bd_device_id := RawStr "d1"; bd_sensor_id := RawStr "s1";
       bd_factory_name := RawStr "f"; bd_zone_name := RawStr "z";
       bd_machine_name := RawStr "m"; bd_sensor_name := RawStr "temperature";
       bd_sensor_value := PyNum (float_of_int 35); bd_timestamp := timestamp;
       bd_threshold_type := "red"; bd_threshold_value := float_of_int 30 |} in
  sorted_breaches [row (RawInt 10); row (RawInt 9)]
    = Ok [row (RawInt 9); row (RawInt 10)]
  /\ sorted_breaches [row (RawStr "9"); row (RawStr "10")]
     = Ok [row (RawStr "10"); row (RawStr "9")]
  /\ sorted_breaches [row (RawInt 9); row (RawStr "10")] = Raise TypeError
  /\ sorted_breaches [row RawNone; row RawNone] = Ok [row RawNone; row RawNone]
  /\ sorted_breaches [row RawNone; row (RawInt 9)] = Raise TypeError.
Proof. vm_compute. repeat split. Qed.

Section Page.
Variable str_of_value : pyval -> string.
Variable str_of_number : float -> string.

(** X29.  [create_html_content] on the breach dicts as it reads them, the key
    values being strings, integers or [None] as the payload and the store had
    them.  When no two keys of the batch raise on comparison, the page lists
    the batch in ascending order of (timestamp, factory, zone, device,
    sensor), strings by code point and integers by value, as a rearrangement
    of the batch with dicts of equal key in batch order; the page of the
    batch is the page of the batch in that order.  When two keys of the batch
    cannot be compared, as a string with an integer at the first position
    where they differ, the formatter raises [TypeError].  A batch whose key
    values are all strings, as in the pipeline modelled here, is always
    rendered. *)
Theorem sorted_breaches_spec (breaches : list BreachDict) :
  (all_comparable breaches = true ->
     exists rows,
       sorted_breaches breaches = Ok rows
       /\ in_order rows
       /\ Permutation rows breaches
       /\ (forall key, with_key key rows = with_key key breaches)
       /\ html_content str_of_value str_of_number breaches
          = Ok (page str_of_value str_of_number rows)
       /\ html_content str_of_value str_of_number rows
          = html_content str_of_value str_of_number breaches)
  /\ (all_comparable breaches = false ->
        html_content str_of_value str_of_number breaches = Raise TypeError)
  /\ (forall a b, In a breaches -> In b breaches ->
        key_lt a b = None -> all_comparable breaches = false)
  /\ (forall pipeline_breaches,
        breaches = map dict_of_breach pipeline_breaches ->
        all_comparable breaches = true).
Proof.
  split; [|split; [|split]].
  - intros Hc. exists (fold_right insert_by_key [] breaches).
    pose proof (sort_in_order breaches Hc) as Hs.
    pose proof (sort_perm breaches) as Hp.
    assert (Hc' : all_comparable (fold_right insert_by_key [] breaches) = true)
      by (apply (all_comparable_perm breaches); [symmetry; exact Hp | exact Hc]).
    unfold html_content, sorted_breaches. rewrite Hc, Hc', (sort_fixpoint _ Hs).
    split; [reflexivity|]. split; [exact Hs|]. split; [exact Hp|].
    split; [intros key; apply sort_stable|]. split; reflexivity.
  - intros Hc. unfold html_content, sorted_breaches. rewrite Hc. reflexivity.
  - intros a b Ha Hb Hnone.
    destruct (all_comparable breaches) eqn:Hc; [|reflexivity].
    pose proof (proj1 (all_comparable_pairs breaches) Hc a b Ha Hb) as H.
    unfold comparable in H. rewrite Hnone in H. discriminate.
  - intros bs ->. apply all_comparable_strings.
Qed.
End Page.
